(** * Policy merge and application core of adsys
    (internal/policies/policies.go)

    Shallow embedding of [Policies.GetUniqueRules], [Manager.ApplyPolicies],
    [Manager.getSubcriptionState], [filterRules], [Policies.Save] and
    [NewFromCache], and the properties the specification states about them.

    Go maps are finite maps ([gmap]) with string keys, reading a missing key
    gives the zero value of the element type, and the map used as a set
    ([seen]) is a [gset].  Strings are byte strings, compared byte-wise. *)

From Stdlib Require Import Strings.Ascii Strings.String.
From stdpp Require Import gmap strings list sorting.

Local Open Scope string_scope.
Local Open Scope list_scope.

(** The one-byte string holding a line feed, Go's ["\n"]. *)
Definition LF : string := String "010"%char "".

(** ** Package entry *)

Module entry.

(** Modelled from the spec: the declaration of [entry.Entry] and of the
    strategy constants is in internal/policies/entry, outside
    policies.go.  The spec gives a rule entry the components key, value,
    strategy (Override by default, or Append), disabled flag and
    provenance metadata; the strategy is a Go string that the merge
    compares with [StrategyAppend]. *)
Record Entry : Type := mkEntry {
  Key : string;
  Value : string;
  Disabled : bool;
  Meta : string;
  Strategy : string
}.

Definition StrategyOverride : string := "override".
Definition StrategyAppend : string := "append".

(** The zero value of the struct, what reading a missing map key gives. *)
Definition zero : Entry :=
  {| Key := ""; Value := ""; Disabled := false; Meta := ""; Strategy := "" |}.

Definition withValueMeta (e : Entry) (v m : string) : Entry :=
  {| Key := Key e; Value := v; Disabled := Disabled e; Meta := m;
     Strategy := Strategy e |}.

Definition withDisabled (e : Entry) (b : bool) : Entry :=
  {| Key := Key e; Value := Value e; Disabled := b; Meta := Meta e;
     Strategy := Strategy e |}.

Definition isAppend (e : Entry) : bool :=
  bool_decide (Strategy e = StrategyAppend).

#[global] Instance Entry_eq_dec : EqDecision Entry.
Proof. solve_decision. Defined.

#[global] Instance Entry_inhabited : Inhabited Entry := populate zero.

End entry.

Import entry.

(** ** Policies *)

(** Modelled from the spec: the declaration of [GPO] is in another file of
    the package.  [Rules] is a Go map from policy domain to entries; the
    merge ranges over it, and Go leaves the order of that traversal open, so
    the map is given as its bindings in the order the range statement visits
    them.  A well-formed value binds each domain once ([wfGPO]). *)
Record GPO : Type := mkGPO {
  ID : string;
  Name : string;
  Rules : list (string * list Entry)
}.

Definition wfGPO (g : GPO) : bool := bool_decide (NoDup (Rules g).*1).

(** [Data] is an [io.ReaderAt]; only its presence matters here. *)
Record Policies : Type := mkPolicies {
  GPOs : list GPO;
  Data : option (list Byte.byte)
}.

Definition wfPolicies (pols : Policies) : bool := forallb wfGPO (GPOs pols).

(** ** GetUniqueRules *)

(** The three maps the function builds while it walks the GPOs. *)
Record dedupState : Type := mkState {
  dedup : gmap string (gmap string Entry);
  seen : gset string;
  keys : gmap string (list string)
}.

Definition emptyState : dedupState :=
  {| dedup := ∅; seen := ∅; keys := ∅ |}.

(** The binding of key [k] in [dedup[t]], if there is one. *)
Definition dedupLookup (d : gmap string (gmap string Entry)) (t k : string) :
    option Entry :=
  d !! t ≫= (.!! k).

(** [dedup[t][k]], with Go's zero value for a missing binding. *)
Definition dedupAt (d : gmap string (gmap string Entry)) (t k : string) : Entry :=
  default zero (dedupLookup d t k).

(** [keys[t]], nil when the domain has no binding. *)
Definition keysOf (st : dedupState) (t : string) : list string :=
  default [] (keys st !! t).

(** [dedup[t][k] = e] *)
Definition setDedup (t : string) (e : Entry) (st : dedupState) : dedupState :=
  {| dedup := <[t := <[Key e := e]> (default ∅ (dedup st !! t))]> (dedup st);
     seen := seen st;
     keys := keys st |}.

(** The two statements after the switch:
    [keys[t] = append(keys[t], e.Key)] and [seen[t+e.Key] = struct{}{}]. *)
Definition markSeen (t : string) (e : Entry) (st : dedupState) : dedupState :=
  {| dedup := dedup st;
     seen := {[ t +:+ Key e ]} ∪ seen st;
     keys := <[t := keysOf st t ++ [Key e]]> (keys st) |}.

(** The body of the innermost loop, for one entry [e] of domain [t]: the
    switch on [e.Strategy], where every [continue] leaves the state as it
    is, and the two statements after the switch ([markSeen]). *)
Definition visitEntry (t : string) (st : dedupState) (e : Entry) : dedupState :=
  if isAppend e then
    (* case entry.StrategyAppend *)
    if Disabled e then st
    else if decide (t +:+ Key e ∈ seen st) then
      (* keyAlreadySeen: merge into dedup[t][e.Key] unless it is an override *)
      let closest := dedupAt (dedup st) t (Key e) in
      if negb (isAppend closest) then st
      else setDedup t (withValueMeta e (Value e +:+ LF +:+ Value closest)
                                       (Meta closest)) st
    else markSeen t e (setDedup t e st)
  else
    (* default: the override case *)
    if decide (t +:+ Key e ∈ seen st) then st
    else markSeen t e (setDedup t e st).

(** [if dedup[t] == nil { dedup[t] = make(map[string]entry.Entry) }] *)
Definition enterType (t : string) (st : dedupState) : dedupState :=
  match dedup st !! t with
  | None => {| dedup := <[t := ∅]> (dedup st); seen := seen st;
               keys := keys st |}
  | Some _ => st
  end.

(** The loop over one binding of [gpo.Rules]. *)
Definition visitType (st : dedupState) (b : string * list Entry) : dedupState :=
  foldl (visitEntry b.1) (enterType b.1 st) b.2.

Definition visitGPO (st : dedupState) (g : GPO) : dedupState :=
  foldl visitType st (Rules g).

Definition dedupGPOs (gpos : list GPO) : dedupState :=
  foldl visitGPO emptyState gpos.

(** [sort.Strings]: increasing byte-wise order. *)
Definition sort_Strings (l : list string) : list string :=
  merge_sort String.le l.

(** The final loop: for each domain of [dedup], its entries in key order. *)
Definition orderedEntries (st : dedupState) (t : string) : list Entry :=
  (λ k, dedupAt (dedup st) t k) <$> sort_Strings (keysOf st t).

Definition collect (st : dedupState) : gmap string (list Entry) :=
  map_imap (λ t _, Some (orderedEntries st t)) (dedup st).

Definition GetUniqueRules (pols : Policies) : gmap string (list Entry) :=
  collect (dedupGPOs (GPOs pols)).

(** Reading [rules[t]] from the returned map: a missing domain gives nil. *)
Definition rulesOf (rules : gmap string (list Entry)) (t : string) : list Entry :=
  default [] (rules !! t).

(** ** Errors, the status bus and the cache files *)

(** A Go error: a message, or an error wrapped by [decorate.OnError] with
    a format and its argument. *)
Inductive error : Type :=
| Err (msg : string)
| Decorated (format arg : string) (cause : error).

(** Modelled from the spec: [decorate.OnError] is in internal/decorate.  A
    failure reaches the caller wrapped with a message that names the target,
    and success stays success. *)
Definition decorate_OnError (format arg : string) (err : option error) :
    option error :=
  Decorated format arg <$> err.

(** What a D-Bus property can hold: a string, or a value of another type
    (given by its signature). *)
Inductive Variant : Type :=
| StringVariant (s : string)
| OtherVariant (signature : string).

(** What the file takes from outside the repository: a constant of
    internal/consts, [filepath.Join], and the YAML codec on the contents of
    a cache file.  [Data] carries the tag [yaml:"-"], so only the GPO list
    is encoded. *)
Class Externals : Type := {
  SubcriptionDbusInterface : string;
  filepath_Join : string → string → string;
  Bytes : Type;
  yaml_Marshal : list GPO → Bytes + error;
  yaml_Unmarshal : Bytes → list GPO + error
}.

(** A codec is lawful when decoding inverts encoding. *)
Class LawfulYAML (E : Externals) : Prop :=
  yaml_roundtrip : ∀ gpos d, yaml_Marshal gpos = inl d → yaml_Unmarshal d = inl gpos.

Section withExternals.
Context {E : Externals}.

(** The files of the cache directory, and how a write can fail.  A write
    to a path of [readOnly] fails when the file is opened and leaves it as
    it was.  [os.WriteFile] truncates the file when it opens it and then
    writes: where [shortWrite] gives bytes for a path and the data, the
    write fails after the file was opened and leaves those bytes in it. *)
Record FileSystem : Type := mkFS {
  files : gmap string Bytes;
  readOnly : gset string;
  shortWrite : string → Bytes → option Bytes
}.

Definition setFile (p : string) (d : Bytes) (fs : FileSystem) : FileSystem :=
  {| files := <[p := d]> (files fs); readOnly := readOnly fs;
     shortWrite := shortWrite fs |}.

Definition os_ReadFile (fs : FileSystem) (p : string) : Bytes + error :=
  match files fs !! p with
  | Some d => inl d
  | None => inr (Err "no such file or directory")
  end.

Definition os_WriteFile (fs : FileSystem) (p : string) (d : Bytes) :
    FileSystem * option error :=
  if decide (p ∈ readOnly fs) then (fs, Some (Err "permission denied"))
  else match shortWrite fs p d with
       | Some rest => (setFile p rest fs, Some (Err "no space left on device"))
       | None => (setFile p d fs, None)
       end.

(** ** NewFromCache and Save *)

Definition NewFromCache (fs : FileSystem) (p : string) : Policies + error :=
  let format := "can't get cached policies from %s" in
  match os_ReadFile fs p with
  | inr err => inr (Decorated format p err)
  | inl d =>
      match yaml_Unmarshal d with
      | inr err => inr (Decorated format p err)
      | inl gpos => inl {| GPOs := gpos; Data := None |}
      end
  end.

Definition Save (pols : Policies) (fs : FileSystem) (p : string) :
    FileSystem * option error :=
  let format := "can't save policies to %s" in
  match yaml_Marshal (GPOs pols) with
  | inr err => (fs, Some (Decorated format p err))
  | inl d =>
      let '(fs', err) := os_WriteFile fs p d in
      (fs', decorate_OnError format p err)
  end.

(** ** The manager *)

(** The three policy handlers are collaborators outside the file: each is
    given by the error its [ApplyPolicy] returns (nil is [None]).  The status
    object is given by what [GetProperty] returns for a property name. *)
Record Manager : Type := mkManager {
  policiesCacheDir : string;
  dconf : string → bool → list Entry → option error;
  privilege : string → bool → list Entry → option error;
  gdm : list Entry → option error;
  subcriptionDbus : string → Variant + error;
  subscriptionEnabled : bool
}.

Definition setSubscription (m : Manager) (b : bool) : Manager :=
  {| policiesCacheDir := policiesCacheDir m; dconf := dconf m;
     privilege := privilege m; gdm := gdm m;
     subcriptionDbus := subcriptionDbus m; subscriptionEnabled := b |}.

(** ** getSubcriptionState, GetStatus and filterRules *)

(** The value the function returns; the deferred closure then stores it in
    the manager. *)
Definition subscriptionStatus (m : Manager) : bool :=
  match subcriptionDbus m (SubcriptionDbusInterface +:+ ".Status") with
  | inr _ => false
  | inl prop =>
      match prop with
      | StringVariant enabled =>
          if negb (String.eqb enabled "enabled") then false else true
      | OtherVariant _ => false
      end
  end.

Definition getSubcriptionState (m : Manager) : Manager * bool :=
  let subscriptionEnabled := subscriptionStatus m in
  (setSubscription m subscriptionEnabled, subscriptionEnabled).

Definition GetStatus (m : Manager) : bool := subscriptionEnabled m.

(** [rules["privilege"] = nil] *)
Definition filterRules (rules : gmap string (list Entry)) :
    gmap string (list Entry) :=
  <["privilege" := []]> rules.

(** ** ApplyPolicies *)

(** What an observer of one call can see, in the order it happens. *)
Inductive Event : Type :=
| DconfCalled (objectName : string) (isComputer : bool) (rules : list Entry)
| DconfReturned (err : option error)
| SubscriptionChecked (enabled : bool)
| RulesFiltered
| PrivilegeCalled (objectName : string) (isComputer : bool) (rules : list Entry)
| PrivilegeReturned (err : option error)
| GdmCalled (rules : list Entry)
| GdmReturned (err : option error)
| PoliciesSaved (path : string) (err : option error).

(** What the goroutines of one call share: the manager, the [rules] map
    (the closures read it when they run), whether a read or a write of
    that map is under way, the fatal error of the runtime when it has
    ended the process, and the first error the [errgroup.Group] has
    recorded. *)
Record Shared : Type := mkShared {
  mgr : Manager;
  rules : gmap string (list Entry);
  reading : bool;
  writing : bool;
  fatal : option string;
  groupErr : option error;
  trace : list Event
}.

Definition emit (ev : Event) (s : Shared) : Shared :=
  {| mgr := mgr s; rules := rules s; reading := reading s; writing := writing s;
     fatal := fatal s; groupErr := groupErr s; trace := trace s ++ [ev] |}.

Definition setMgr (m : Manager) (s : Shared) : Shared :=
  {| mgr := m; rules := rules s; reading := reading s; writing := writing s;
     fatal := fatal s; groupErr := groupErr s; trace := trace s |}.

Definition setRules (r : gmap string (list Entry)) (s : Shared) : Shared :=
  {| mgr := mgr s; rules := r; reading := reading s; writing := writing s;
     fatal := fatal s; groupErr := groupErr s; trace := trace s |}.

Definition setReading (b : bool) (s : Shared) : Shared :=
  {| mgr := mgr s; rules := rules s; reading := b; writing := writing s;
     fatal := fatal s; groupErr := groupErr s; trace := trace s |}.

Definition setWriting (b : bool) (s : Shared) : Shared :=
  {| mgr := mgr s; rules := rules s; reading := reading s; writing := b;
     fatal := fatal s; groupErr := groupErr s; trace := trace s |}.

Definition throw (msg : string) (s : Shared) : Shared :=
  {| mgr := mgr s; rules := rules s; reading := reading s; writing := writing s;
     fatal := Some msg; groupErr := groupErr s; trace := trace s |}.

(** [errgroup]: the first non-nil error returned by a function of the group
    is kept. *)
Definition recordErr (err : option error) (s : Shared) : Shared :=
  match groupErr s with
  | Some _ => s
  | None => {| mgr := mgr s; rules := rules s; reading := reading s;
               writing := writing s; fatal := fatal s; groupErr := err;
               trace := trace s |}
  end.

(** A Go map is not safe for a read and a write at the same time, and no
    lock guards [rules]: the goroutine of the first [g.Go] reads
    [rules["dconf"]] while the caller may be in [filterRules], which writes
    [rules["privilege"]].  A read and a write take time; when one starts
    while the other is under way the run has no meaning in Go, and the
    runtime ends the process with a fatal error where it sees it.  The
    model ends every such run there. *)
Definition mapaccess_begin (s : Shared) : Shared :=
  if writing s then throw "concurrent map read and map write" s
  else setReading true s.

Definition mapassign_begin (s : Shared) : Shared :=
  if reading s then throw "concurrent map read and map write" s
  else setWriting true s.

(** A sequence of steps; each one is taken on the shared state as it is
    then, and decides how to go on. *)
Inductive Thread : Type :=
| Halt
| Act (step : Shared → Shared) (next : Shared → Thread).

(** No step is taken once the process has ended. *)
Fixpoint runThread (th : Thread) (s : Shared) : Shared :=
  match th with
  | Halt => s
  | Act step next =>
      match fatal s with
      | Some _ => s
      | None => runThread (next s) (step s)
      end
  end.

(** One run of two threads: the schedule says which one takes the next
    step ([true] for the first); when it ends, or names a thread that has
    finished, what is left runs through. *)
Fixpoint interleave (sched : list bool) (a b : Thread) (s : Shared) : Shared :=
  match fatal s with
  | Some _ => s
  | None =>
      match sched with
      | [] => runThread b (runThread a s)
      | true :: sched' =>
          match a with
          | Halt => runThread b s
          | Act step next => interleave sched' (next s) b (step s)
          end
      | false :: sched' =>
          match b with
          | Halt => runThread a s
          | Act step next => interleave sched' a (next s) (step s)
          end
      end
  end.

(** The last step of a function of the group: the handler has returned,
    and [errgroup] records its error. *)
Definition dconfReturn (err : option error) : Thread :=
  Act (λ s, emit (DconfReturned err) (recordErr err s)) (λ _, Halt).

(** The read of the map ends and the handler is called with what was
    read. *)
Definition dconfCall (objectName : string) (isComputer : bool) : Thread :=
  Act (λ s, emit (DconfCalled objectName isComputer (rulesOf (rules s) "dconf"))
                 (setReading false s))
      (λ s, dconfReturn (dconf (mgr s) objectName isComputer
                               (rulesOf (rules s) "dconf"))).

(** [g.Go(func() error { return m.dconf.ApplyPolicy(..., rules["dconf"]) })]:
    the closure reads the map when it runs, then calls the handler. *)
Definition dconfRoutine (objectName : string) (isComputer : bool) : Thread :=
  Act mapaccess_begin (λ _, dconfCall objectName isComputer).

Definition privilegeReturn (err : option error) : Thread :=
  Act (λ s, emit (PrivilegeReturned err) (recordErr err s)) (λ _, Halt).

(** [g.Go(func() error { return m.privilege.ApplyPolicy(..., rules["privilege"]) })]:
    this goroutine starts after [filterRules] has returned, and nothing
    writes the map after that. *)
Definition privilegeRoutine (objectName : string) (isComputer : bool) : Thread :=
  Act (λ s, emit (PrivilegeCalled objectName isComputer
                    (rulesOf (rules s) "privilege")) s)
      (λ s, privilegeReturn (privilege (mgr s) objectName isComputer
                                       (rulesOf (rules s) "privilege"))).

(** The write of [filterRules] ends; the second [g.Go] follows. *)
Definition filterEnd (objectName : string) (isComputer : bool) : Thread :=
  Act (λ s, emit RulesFiltered
              (setWriting false (setRules (filterRules (rules s)) s)))
      (λ _, privilegeRoutine objectName isComputer).

(** What the caller does after the entitlement check. *)
Definition afterCheck (enabled : bool) (objectName : string)
    (isComputer : bool) : Thread :=
  if negb enabled
  then Act mapassign_begin (λ _, filterEnd objectName isComputer)
  else privilegeRoutine objectName isComputer.

(** The caller's own steps between the first [g.Go] and [g.Wait]: the
    entitlement check, the filter, which writes the map, and the second
    [g.Go]. *)
Definition mainRoutine (objectName : string) (isComputer : bool) : Thread :=
  Act (λ s, emit (SubscriptionChecked (getSubcriptionState (mgr s)).2)
                 (setMgr (getSubcriptionState (mgr s)).1 s))
      (λ s, afterCheck (getSubcriptionState (mgr s)).2 objectName isComputer).

(** The shared state when the call starts. *)
Definition startOf (m : Manager) (r0 : gmap string (list Entry)) : Shared :=
  {| mgr := m; rules := r0; reading := false; writing := false; fatal := None;
     groupErr := None; trace := [] |}.

(** The shared state when [g.Wait] returns, or when the process has
    ended: the functions of the group have run, in the order [sched] gives
    to their steps and the caller's. *)
Definition atWait (sched : list bool) (m : Manager) (objectName : string)
    (isComputer : bool) (pols : Policies) : Shared :=
  interleave sched (dconfRoutine objectName isComputer)
    (mainRoutine objectName isComputer) (startOf m (GetUniqueRules pols)).

(** What one call leaves.  [outFatal] holds the fatal error of a run in
    which the runtime has ended the process: such a call does not return,
    and [outErr] is then [None] for want of a returned value. *)
Record Outcome : Type := mkOutcome {
  outManager : Manager;
  outFiles : FileSystem;
  outTrace : list Event;
  outErr : option error;
  outFatal : option string
}.

(** [sched] is the order in which the runtime lets the goroutines step.
    The handlers do not write the cache files: the files change only in
    [Save]. *)
Definition ApplyPolicies (sched : list bool) (m : Manager) (fs : FileSystem)
    (objectName : string) (isComputer : bool) (pols : Policies) : Outcome :=
  let format := "failed to apply policy to %q" in
  let s := atWait sched m objectName isComputer pols in
  match fatal s with
  | Some msg =>
      {| outManager := mgr s; outFiles := fs; outTrace := trace s;
         outErr := None; outFatal := Some msg |}
  | None =>
      match groupErr s with
      | Some err =>
          {| outManager := mgr s; outFiles := fs; outTrace := trace s;
             outErr := decorate_OnError format objectName (Some err);
             outFatal := None |}
      | None =>
          let gdmErr :=
            if isComputer then gdm (mgr s) (rulesOf (rules s) "gdm")
            else None in
          let gdmTrace :=
            if isComputer
            then [GdmCalled (rulesOf (rules s) "gdm"); GdmReturned gdmErr]
            else [] in
          match gdmErr with
          | Some err =>
              {| outManager := mgr s; outFiles := fs;
                 outTrace := trace s ++ gdmTrace;
                 outErr := decorate_OnError format objectName (Some err);
                 outFatal := None |}
          | None =>
              let path := filepath_Join (policiesCacheDir (mgr s)) objectName in
              let '(fs', err) := Save pols fs path in
              {| outManager := mgr s; outFiles := fs';
                 outTrace := trace s ++ gdmTrace ++ [PoliciesSaved path err];
                 outErr := decorate_OnError format objectName err;
                 outFatal := None |}
          end
      end
  end.

(** ** Describing the trace of a call *)

(** An interleaving of two sequences keeps the order of each. *)
Inductive Interleave {A : Type} : list A → list A → list A → Prop :=
| Interleave_nil : Interleave [] [] []
| Interleave_l x a b c : Interleave a b c → Interleave (x :: a) b (x :: c)
| Interleave_r x a b c : Interleave a b c → Interleave a (x :: b) (x :: c).

(** The first error a function of the group returns, in the order of the
    trace. *)
Fixpoint firstError (tr : list Event) : option error :=
  match tr with
  | [] => None
  | DconfReturned (Some err) :: _ => Some err
  | PrivilegeReturned (Some err) :: _ => Some err
  | _ :: tr' => firstError tr'
  end.

(** What the goroutine of the desktop-configuration handler does. *)
Definition dconfTrace (m : Manager) (objectName : string) (isComputer : bool)
    (r0 : gmap string (list Entry)) : list Event :=
  [DconfCalled objectName isComputer (rulesOf r0 "dconf");
   DconfReturned (dconf m objectName isComputer (rulesOf r0 "dconf"))].

(** The rules the privilege handler is given. *)
Definition privilegeRules (m : Manager) (r0 : gmap string (list Entry)) :
    list Entry :=
  if subscriptionStatus m then rulesOf r0 "privilege" else [].

(** What the caller and the goroutine of the privilege handler do. *)
Definition mainTrace (m : Manager) (objectName : string) (isComputer : bool)
    (r0 : gmap string (list Entry)) : list Event :=
  SubscriptionChecked (subscriptionStatus m)
  :: (if subscriptionStatus m then [] else [RulesFiltered])
  ++ [PrivilegeCalled objectName isComputer (privilegeRules m r0);
      PrivilegeReturned (privilege m objectName isComputer (privilegeRules m r0))].

(** *** Where a run of the group stands *)

(** The goroutine of the desktop-configuration handler after [i] steps,
    and how many of its events have happened by then. *)
Definition dconfAt (m : Manager) (o : string) (c : bool)
    (r0 : gmap string (list Entry)) (i : nat) : Thread :=
  match i with
  | 0 => dconfRoutine o c
  | 1 => dconfCall o c
  | 2 => dconfReturn (dconf m o c (rulesOf r0 "dconf"))
  | _ => Halt
  end.

Definition dconfSeen (i : nat) : nat :=
  match i with 0 | 1 => 0 | 2 => 1 | _ => 2 end.

(** The caller at stage [j]: before the check, after it, in the write of
    the filter, after the filter, in the privilege handler, at the end.
    An entitled caller goes from stage 1 to stage 4. *)
Definition mainAt (m : Manager) (o : string) (c : bool)
    (r0 : gmap string (list Entry)) (j : nat) : Thread :=
  match j with
  | 0 => mainRoutine o c
  | 1 => afterCheck (subscriptionStatus m) o c
  | 2 => filterEnd o c
  | 3 => privilegeRoutine o c
  | 4 => privilegeReturn (privilege m o c (privilegeRules m r0))
  | _ => Halt
  end.

Definition mainSeen (enabled : bool) (j : nat) : nat :=
  match j with
  | 0 => 0
  | 1 | 2 => 1
  | 3 => 2
  | 4 => if enabled then 2 else 3
  | _ => if enabled then 3 else 4
  end.

(** What holds of the two threads and the shared state all along a run:
    either the runtime has ended the process, which happens only when
    the machine is not entitled and before any handler is called, or the
    threads stand at stages [i] and [j], never both inside the map, with
    the state these stages give. *)
Inductive groupInv (m : Manager) (o : string) (c : bool)
    (r0 : gmap string (list Entry)) (a b : Thread) (s : Shared) : Prop :=
| groupInv_fatal msg :
    fatal s = Some msg →
    subscriptionStatus m = false →
    mgr s = setSubscription m (subscriptionStatus m) →
    trace s = [SubscriptionChecked false] →
    groupErr s = None →
    groupInv m o c r0 a b s
| groupInv_live i j :
    fatal s = None →
    a = dconfAt m o c r0 i → b = mainAt m o c r0 j →
    (i ≤ 3)%nat → (j ≤ 5)%nat →
    (subscriptionStatus m = true → j ≠ 2 ∧ j ≠ 3) →
    ¬ (i = 1 ∧ j = 2) →
    mgr s = (if bool_decide (j = 0) then m
             else setSubscription m (subscriptionStatus m)) →
    rules s = (if subscriptionStatus m then r0
               else if bool_decide (3 ≤ j)%nat then filterRules r0 else r0) →
    reading s = bool_decide (i = 1) →
    writing s = bool_decide (j = 2) →
    Interleave (take (dconfSeen i) (dconfTrace m o c r0))
               (take (mainSeen (subscriptionStatus m) j) (mainTrace m o c r0))
               (trace s) →
    groupErr s = firstError (trace s) →
    groupInv m o c r0 a b s.

(** The four ways a call ends. *)
Inductive ending (sched : list bool) (m : Manager) (fs : FileSystem)
    (o : string) (c : bool) (pols : Policies) : Outcome → Prop :=
| ending_fatal msg :
    fatal (atWait sched m o c pols) = Some msg →
    ending sched m fs o c pols
      {| outManager := mgr (atWait sched m o c pols); outFiles := fs;
         outTrace := trace (atWait sched m o c pols);
         outErr := None; outFatal := Some msg |}
| ending_group err :
    fatal (atWait sched m o c pols) = None →
    groupErr (atWait sched m o c pols) = Some err →
    ending sched m fs o c pols
      {| outManager := mgr (atWait sched m o c pols); outFiles := fs;
         outTrace := trace (atWait sched m o c pols);
         outErr := Some (Decorated "failed to apply policy to %q" o err);
         outFatal := None |}
| ending_gdm err rs :
    fatal (atWait sched m o c pols) = None →
    groupErr (atWait sched m o c pols) = None → c = true →
    rs = rulesOf (rules (atWait sched m o c pols)) "gdm" →
    gdm m rs = Some err →
    ending sched m fs o c pols
      {| outManager := mgr (atWait sched m o c pols); outFiles := fs;
         outTrace := trace (atWait sched m o c pols)
                     ++ [GdmCalled rs; GdmReturned (Some err)];
         outErr := Some (Decorated "failed to apply policy to %q" o err);
         outFatal := None |}
| ending_save gdmTrace fs' err :
    fatal (atWait sched m o c pols) = None →
    groupErr (atWait sched m o c pols) = None →
    (c = true → gdm m (rulesOf (rules (atWait sched m o c pols)) "gdm") = None) →
    gdmTrace = (if c then [GdmCalled (rulesOf (rules (atWait sched m o c pols)) "gdm");
                           GdmReturned None] else []) →
    Save pols fs (filepath_Join (policiesCacheDir m) o) = (fs', err) →
    ending sched m fs o c pols
      {| outManager := mgr (atWait sched m o c pols); outFiles := fs';
         outTrace := trace (atWait sched m o c pols) ++ gdmTrace
                     ++ [PoliciesSaved (filepath_Join (policiesCacheDir m) o) err];
         outErr := decorate_OnError "failed to apply policy to %q" o err;
         outFatal := None |}.

(** An event that can only follow [g.Wait]. *)
Definition afterWait (ev : Event) : Prop :=
  match ev with
  | GdmCalled _ | GdmReturned _ | PoliciesSaved _ _ => True
  | _ => False
  end.

(** Every handler that a call for [o] runs returns no error on the rules
    it is given. *)
Definition backendsSucceed (m : Manager) (o : string) (c : bool)
    (pols : Policies) : Prop :=
  dconf m o c (rulesOf (GetUniqueRules pols) "dconf") = None ∧
  privilege m o c (privilegeRules m (GetUniqueRules pols)) = None ∧
  (c = true → gdm m (rulesOf (GetUniqueRules pols) "gdm") = None).

(** A handler has failed when the trace holds a return with an error. *)
Definition backendFailed (tr : list Event) : Prop :=
  ∃ err, DconfReturned (Some err) ∈ tr ∨ PrivilegeReturned (Some err) ∈ tr ∨
         GdmReturned (Some err) ∈ tr.

End withExternals.

(** ** A sample instance of the collaborators *)

(** The contents of a cache file are taken to be the GPO list itself. *)
Definition sampleExternals : Externals :=
  {| SubcriptionDbusInterface := "com.canonical.UbuntuAdvantage.Manager";
     filepath_Join := λ dir name, dir +:+ "/" +:+ name;
     Bytes := list GPO;
     yaml_Marshal := inl;
     yaml_Unmarshal := inl |}.

(** A manager whose handlers succeed and whose status object answers
    with the string [status]. *)
Definition sampleManager (status : string) : Manager :=
  {| policiesCacheDir := "/var/cache/adsys/policies";
     dconf := λ _ _ _, None;
     privilege := λ _ _ _, None;
     gdm := λ _, None;
     subcriptionDbus := λ _, inl (StringVariant status);
     subscriptionEnabled := false |}.

(** The same manager with a desktop-configuration handler that fails. *)
Definition failingDconf (status : string) : Manager :=
  {| policiesCacheDir := "/var/cache/adsys/policies";
     dconf := λ _ _ _, Some (Err "dconf failed");
     privilege := λ _ _ _, None;
     gdm := λ _, None;
     subcriptionDbus := λ _, inl (StringVariant status);
     subscriptionEnabled := false |}.

Definition emptyFiles : @FileSystem sampleExternals :=
  {| files := ∅; readOnly := ∅; shortWrite := λ _ _, None |}.

(** The cache file of ["host"] cannot be opened for writing. *)
Definition lockedCache : @FileSystem sampleExternals :=
  {| files := ∅; readOnly := {[ "/var/cache/adsys/policies/host" ]};
     shortWrite := λ _ _, None |}.

(** A cache of ["host"] from an earlier call, on a disk where a write
    fails after the file has been truncated. *)
Definition fullDisk (earlier : list GPO) : @FileSystem sampleExternals :=
  @mkFS sampleExternals {[ "/var/cache/adsys/policies/host" := earlier ]} ∅
    (λ _ _, Some ([] : list GPO)).

(** ** Sample policy sets *)

Definition appendEntry (k v m : string) : Entry :=
  {| Key := k; Value := v; Disabled := false; Meta := m;
     Strategy := StrategyAppend |}.

Definition overrideEntry (k v m : string) : Entry :=
  {| Key := k; Value := v; Disabled := false; Meta := m;
     Strategy := StrategyOverride |}.

Definition oneRuleGPO (name t : string) (e : Entry) : GPO :=
  {| ID := name; Name := name; Rules := [(t, [e])] |}.

Definition appendChain : Policies :=
  {| GPOs := [oneRuleGPO "G1" "dconf" (appendEntry "a" "x" "G1");
              oneRuleGPO "G2" "dconf" (appendEntry "a" "y" "G2")];
     Data := None |}.

Definition overrideThenAppend : Policies :=
  {| GPOs := [oneRuleGPO "G1" "dconf" (overrideEntry "a" "x" "G1");
              oneRuleGPO "G2" "dconf" (appendEntry "a" "y" "G2")];
     Data := None |}.

(** One rule of the privilege domain. *)
Definition withPrivilege : Policies :=
  {| GPOs := [oneRuleGPO "G1" "privilege"
                (overrideEntry "allow-local-admins" "true" "G1")];
     Data := None |}.

Definition disabledEntry (e : Entry) : Entry := withDisabled e true.

(** A disabled Override entry in the closest GPO, an Append entry below. *)
Definition disabledOverrideFirst : Policies :=
  {| GPOs := [oneRuleGPO "G1" "dconf" (disabledEntry (overrideEntry "a" "x" "G1"));
              oneRuleGPO "G2" "dconf" (appendEntry "a" "y" "G2")];
     Data := None |}.

(** A disabled Append entry in the closest GPO, an enabled one below. *)
Definition disabledAppendFirst : Policies :=
  {| GPOs := [oneRuleGPO "G1" "dconf" (disabledEntry (appendEntry "a" "x" "G1"));
              oneRuleGPO "G2" "dconf" (appendEntry "a" "y" "G2")];
     Data := None |}.

(** An Override entry between two Append entries of the same key. *)
Definition overrideInsideChain : Policies :=
  {| GPOs := [oneRuleGPO "G1" "dconf" (appendEntry "a" "x" "G1");
              oneRuleGPO "G2" "dconf" (overrideEntry "a" "z" "G2");
              oneRuleGPO "G3" "dconf" (appendEntry "a" "y" "G3")];
     Data := None |}.

(** Two pairs of domain and key with the same concatenation. *)
Definition sharedSeenKey : Policies :=
  {| GPOs := [oneRuleGPO "G1" "a" (overrideEntry "bc" "x" "G1");
              oneRuleGPO "G2" "ab" (overrideEntry "c" "y" "G2")];
     Data := None |}.

(** A disabled Override entry, the only entry of its domain and key, whose
    domain and key concatenate as those of an entry of a closer GPO do. *)
Definition disabledOverrideClash : Policies :=
  {| GPOs := [oneRuleGPO "G1" "a" (overrideEntry "bc" "x" "G1");
              oneRuleGPO "G2" "ab" (disabledEntry (overrideEntry "c" "y" "G2"))];
     Data := None |}.

(** ** The walk as one sequence of steps *)

(** The three nested loops visit, for each binding of each GPO, the domain
    and then its entries. *)
Inductive visit : Type :=
| EnterType (t : string)
| VisitRule (t : string) (e : Entry).

Definition visitStep (st : dedupState) (v : visit) : dedupState :=
  match v with
  | EnterType t => enterType t st
  | VisitRule t e => visitEntry t st e
  end.

Definition visitsOfBinding (b : string * list Entry) : list visit :=
  EnterType b.1 :: (VisitRule b.1 <$> b.2).

Definition visitsOf (gpos : list GPO) : list visit :=
  g ← gpos; b ← Rules g; visitsOfBinding b.

(** The state after a sequence of steps. *)
Definition walk (st : dedupState) (vs : list visit) : dedupState :=
  foldl visitStep st vs.

(** An entry takes part in the merge unless it is a disabled Append entry. *)
Definition effective (e : Entry) : bool := negb (isAppend e && Disabled e).

(** The entries of domain [t] and key [k] that take part, closest first. *)
Fixpoint contributors (vs : list visit) (t k : string) : list Entry :=
  match vs with
  | [] => []
  | EnterType _ :: vs' => contributors vs' t k
  | VisitRule t' e :: vs' =>
      if bool_decide (t' = t ∧ Key e = k) && effective e
      then e :: contributors vs' t k
      else contributors vs' t k
  end.

(** The key of [seen] that an entry is tracked under, [t+e.Key]. *)
Definition seenKey (t : string) (e : Entry) : string := t +:+ Key e.

(** No entry that takes part is visited under the key [sk] of [seen]. *)
Fixpoint unseenIn (vs : list visit) (sk : string) : bool :=
  match vs with
  | [] => true
  | EnterType _ :: vs' => unseenIn vs' sk
  | VisitRule t e :: vs' =>
      negb (effective e && bool_decide (seenKey t e = sk)) && unseenIn vs' sk
  end.

(** The value of a chain of Append entries given closest first: each
    farther value is put in front of what the closer ones have built,
    [newValue + "\n" + existingValue]. *)
Definition mergedValue (values : list string) : string :=
  match values with
  | [] => ""
  | closest :: farther =>
      foldl (λ existing new, new +:+ LF +:+ existing) closest farther
  end.

(** The Append entries of a domain and key that take part, closest first. *)
Definition appendChainOf (vs : list visit) (t k : string) : list Entry :=
  filter (λ c, isAppend c = true) (contributors vs t k).

(** Entries that share a key of [seen] share their domain. *)
Definition noClash (vs : list visit) : Prop :=
  ∀ t1 e1 t2 e2, VisitRule t1 e1 ∈ vs → VisitRule t2 e2 ∈ vs →
                 seenKey t1 e1 = seenKey t2 e2 → t1 = t2.

(** ** Transformations of a policy set *)

Definition mapEntries (f : list Entry → list Entry) (pols : Policies) : Policies :=
  {| GPOs := (λ g, {| ID := ID g; Name := Name g;
                      Rules := prod_map id f <$> Rules g |}) <$> GPOs pols;
     Data := Data pols |}.

(** The policy set without its disabled Append entries. *)
Definition dropDisabledAppend : Policies → Policies :=
  mapEntries (filter (λ e, effective e = true)).

(** The flag [Disabled] of every entry that is not an Append entry set to [b]. *)
Definition flagOverride (b : bool) (e : Entry) : Entry :=
  if isAppend e then e else withDisabled e b.

Definition flagOverrides (b : bool) : Policies → Policies :=
  mapEntries (fmap (flagOverride b)).

(** A change of the entries held in [dedup]. *)
Definition mapState (f : Entry → Entry) (st : dedupState) : dedupState :=
  {| dedup := (λ m : gmap string Entry, f <$> m) <$> dedup st;
     seen := seen st; keys := keys st |}.

(** A policy set made of closer GPOs followed by farther ones. *)
Definition policiesOf (gpos : list GPO) : Policies :=
  {| GPOs := gpos; Data := None |}.

(** ** The three ways an entry is handled *)

(** An entry is skipped, or merged into the chain of its key, or becomes
    the first value of its key. *)
Inductive handled (t : string) (e : Entry) (st : dedupState) : dedupState → Prop :=
| handled_skip :
    effective e = false ∨ seenKey t e ∈ seen st →
    handled t e st st
| handled_merge closest :
    isAppend e = true → Disabled e = false → seenKey t e ∈ seen st →
    dedupLookup (dedup st) t (Key e) = Some closest →
    isAppend closest = true →
    handled t e st
      (setDedup t (withValueMeta e (Value e +:+ LF +:+ Value closest)
                                   (Meta closest)) st)
| handled_first :
    effective e = true → seenKey t e ∉ seen st →
    handled t e st (markSeen t e (setDedup t e st)).

(** ** The invariant of the walk *)

Record Inv (st : dedupState) : Prop := mkInv {
  inv_key : ∀ t k e, dedupLookup (dedup st) t k = Some e → Key e = k;
  inv_seen : ∀ t k e, dedupLookup (dedup st) t k = Some e → t +:+ k ∈ seen st;
  inv_listed : ∀ t k, k ∈ keysOf st t ↔ is_Some (dedupLookup (dedup st) t k);
  inv_nodup : ∀ t, NoDup (keysOf st t);
  inv_enabled : ∀ t k e, dedupLookup (dedup st) t k = Some e →
                  isAppend e = true → Disabled e = false
}.

(** ** The merge stated without the maps *)

(** The domains that the GPOs of a policy set bind. *)
Definition domainsOf (gpos : list GPO) : list string :=
  (gpos ≫= Rules).*1.

(** What a domain and key resolve to, from the entries that take part for
    them, closest first: nothing without an entry; the closest entry itself
    when it is not an Append entry; otherwise the closest entry with the
    merged value of the Append entries among them. *)
Definition resolve (cs : list Entry) : option Entry :=
  match cs with
  | [] => None
  | c :: _ =>
      Some (if isAppend c
            then withValueMeta c
                   (mergedValue (Value <$> filter (λ x, isAppend x = true) cs))
                   (Meta c)
            else c)
  end.

(** The keys of the entries of domain [t] that take part. *)
Fixpoint takingPart (vs : list visit) (t : string) : list string :=
  match vs with
  | [] => []
  | EnterType _ :: vs' => takingPart vs' t
  | VisitRule t' e :: vs' =>
      if bool_decide (t' = t) && effective e
      then Key e :: takingPart vs' t
      else takingPart vs' t
  end.

(** The rules of a domain stated without the three maps: one entry for
    each key that has an entry taking part, in ascending order of key. *)
Definition resolvedRules (vs : list visit) (t : string) : list Entry :=
  omap (λ k, resolve (contributors vs t k))
       (sort_Strings (remove_dups (takingPart vs t))).

(** Two GPO lists that differ only in the order in which the bindings of
    each GPO are visited. *)
Definition sameBindings (gpos1 gpos2 : list GPO) : Prop :=
  Forall2 (λ g1 g2, Rules g1 ≡ₚ Rules g2) gpos1 gpos2.

(** A check of [noClash]. *)
Definition noClashb (vs : list visit) : bool :=
  forallb (λ v1, forallb (λ v2,
    match v1, v2 with
    | VisitRule t1 e1, VisitRule t2 e2 =>
        implb (bool_decide (seenKey t1 e1 = seenKey t2 e2)) (bool_decide (t1 = t2))
    | _, _ => true
    end) vs) vs.

(** One GPO that binds two domains whose pairs clash in [seen], in the two
    orders in which its bindings can be visited. *)
Definition clashingGPO (swap : bool) : GPO :=
  let b1 := ("a", [overrideEntry "bc" "x" "G1"]) in
  let b2 := ("ab", [overrideEntry "c" "y" "G1"]) in
  {| ID := "G1"; Name := "G1"; Rules := if swap then [b2; b1] else [b1; b2] |}.

(** A GPO that binds two domains, in the two orders. *)
Definition twoDomainsGPO (swap : bool) : GPO :=
  let b1 := ("dconf", [appendEntry "a" "x" "G1"]) in
  let b2 := ("privilege", [overrideEntry "a" "y" "G1"]) in
  {| ID := "G1"; Name := "G1"; Rules := if swap then [b2; b1] else [b1; b2] |}.

(** ** The events of each handler *)

(** The events of the desktop-configuration handler. *)
Definition isDconfEvent (ev : Event) : bool :=
  match ev with DconfCalled _ _ _ | DconfReturned _ => true | _ => false end.

(** The events of the privilege handler. *)
Definition isPrivilegeEvent (ev : Event) : bool :=
  match ev with PrivilegeCalled _ _ _ | PrivilegeReturned _ => true | _ => false end.

(** ** Errors with their arguments *)

(** An argument of a format: a string or a boolean. *)
Inductive Arg : Type :=
| ArgString (s : string)
| ArgBool (b : bool).

(** An error as [DumpPolicies], [LastUpdateFor] and [NewManager] return
    it: the error of a callee, wrapped any number of times by [fmt.Errorf]
    or by [decorate.OnError] with a format and its arguments.  A format is
    recorded as the source writes it, before [i18n.G] translates it. *)
Inductive failure : Type :=
| Cause (e : error)
| Wrapped (format : string) (args : list Arg) (cause : failure).

(** ** The host *)

(** What [DumpPolicies] and [LastUpdateFor] take from outside the file:
    [os.Hostname], the modification time [os.Stat] reports for a file that
    exists, the translation [i18n.G], and the method [GPO.Format], which
    is in another file of the package: it appends text to the writer it is
    given and returns the set of rules already shown, updated.
    [nilRuleSet] is the nil map the first call is given. *)
Class Host (E : Externals) : Type := {
  os_Hostname : string + error;
  time_Time : Type;
  os_ModTime : @FileSystem E → string → time_Time;
  i18n_G : string → string;
  RuleSet : Type;
  nilRuleSet : RuleSet;
  GPO_Format : GPO → bool → bool → RuleSet → string * RuleSet
}.

Section withHost.
Context {E : Externals} {HostI : Host E}.

(** [fmt.Fprintln(&out, s)] *)
Definition Fprintln (out s : string) : string := out +:+ s +:+ LF.

(** [for _, g := range gpos { alreadyProcessedRules = g.Format(&out, ...) }] *)
Definition formatGPOs (withRules withOverridden : bool)
    (acc : string * RuleSet) (gpos : list GPO) : string * RuleSet :=
  foldl (λ acc g,
           let '(text, alreadyProcessedRules) :=
             GPO_Format g withRules withOverridden acc.2 in
           (acc.1 +:+ text, alreadyProcessedRules))
        acc gpos.

(** ** DumpPolicies *)

Definition DumpPolicies (m : Manager) (fs : FileSystem) (objectName : string)
    (withRules withOverridden : bool) : string + failure :=
  let decorate := Wrapped "failed to dump policies for %q" [ArgString objectName] in
  match os_Hostname with
  | inr err => inr (decorate (Cause err))
  | inl hostname =>
      let machine : string * RuleSet + failure :=
        if bool_decide (objectName ≠ hostname) then
          let out := Fprintln "" (i18n_G "Policies from machine configuration:") in
          match NewFromCache fs (filepath_Join (policiesCacheDir m) hostname) with
          | inr err =>
              inr (Wrapped "no policy applied for %q: %v" [ArgString hostname]
                     (Cause err))
          | inl policiesHost =>
              let '(out, alreadyProcessedRules) :=
                formatGPOs withRules withOverridden (out, nilRuleSet)
                  (GPOs policiesHost) in
              inl (Fprintln out (i18n_G "Policies from user configuration:"),
                   alreadyProcessedRules)
          end
        else inl ("", nilRuleSet) in
      match machine with
      | inr err => inr (decorate err)
      | inl acc =>
          match NewFromCache fs (filepath_Join (policiesCacheDir m) objectName) with
          | inr err =>
              inr (decorate
                     (Wrapped "no policy applied for %q: %v" [ArgString objectName]
                        (Cause err)))
          | inl policiesTarget =>
              inl (formatGPOs withRules withOverridden acc (GPOs policiesTarget)).1
          end
      end
  end.

(** ** LastUpdateFor *)

(** [os.Stat] followed by [info.ModTime()]: a file that is not there is an
    error. *)
Definition os_Stat (fs : FileSystem) (p : string) : time_Time + error :=
  match files fs !! p with
  | Some _ => inl (os_ModTime fs p)
  | None => inr (Err "no such file or directory")
  end.

(** The arguments of the deferred [decorate.OnError] are evaluated when
    the function starts: the error names the [objectName] the caller gave,
    also when the machine's name has taken its place. *)
Definition LastUpdateFor (m : Manager) (fs : FileSystem) (objectName : string)
    (isMachine : bool) : time_Time + failure :=
  let decorate :=
    Wrapped "failed to get policy last update time %q (machine: %q)"
      [ArgString objectName; ArgBool isMachine] in
  let target : string + error :=
    if isMachine then os_Hostname else inl objectName in
  match target with
  | inr err => inr (decorate (Cause err))
  | inl objectName =>
      match os_Stat fs (filepath_Join (policiesCacheDir m) objectName) with
      | inr err =>
          inr (decorate
                 (Wrapped "policies were not applied for %q: %v"
                    [ArgString objectName] (Cause err)))
      | inl modTime => inl modTime
      end
  end.

End withHost.

(** ** NewManager and its options *)

(** What [NewManager] takes from outside the file: constants of
    internal/consts and of the package, the constructors of the three
    handlers, and [os.MkdirAll].  A handler is given, as in [Manager], by
    the error its [ApplyPolicy] returns. *)
Class Packages : Type := {
  DefaultCacheDir : string;
  PoliciesCacheBaseName : string;
  SubcriptionDbusRegisteredName : string;
  SubcriptionDbusObjectPath : string;
  dconf_Manager_zero : string → bool → list Entry → option error;
  dconf_NewWithDconfDir : string → string → bool → list Entry → option error;
  privilege_NewWithDirs :
    string → string → string → bool → list Entry → option error;
  gdm_New : (string → bool → list Entry → option error) →
            (list Entry → option error) + error;
  os_MkdirAll : string → option error
}.

Section withPackages.
Context {E : Externals} {P : Packages}.

Record options : Type := mkOptions {
  cacheDir : string;
  dconfDir : string;
  sudoersDir : string;
  policyKitDir : string;
  gdmOption : option (list Entry → option error)
}.

(** The Go type [Option], a function on a pointer to [options] that returns
    an error: the options it leaves, or an error. *)
Definition Option : Type := options → options + error.

Definition WithCacheDir (p : string) : Option :=
  λ o, inl {| cacheDir := p; dconfDir := dconfDir o; sudoersDir := sudoersDir o;
              policyKitDir := policyKitDir o; gdmOption := gdmOption o |}.

Definition WithDconfDir (p : string) : Option :=
  λ o, inl {| cacheDir := cacheDir o; dconfDir := p; sudoersDir := sudoersDir o;
              policyKitDir := policyKitDir o; gdmOption := gdmOption o |}.

Definition WithSudoersDir (p : string) : Option :=
  λ o, inl {| cacheDir := cacheDir o; dconfDir := dconfDir o; sudoersDir := p;
              policyKitDir := policyKitDir o; gdmOption := gdmOption o |}.

Definition WithPolicyKitDir (p : string) : Option :=
  λ o, inl {| cacheDir := cacheDir o; dconfDir := dconfDir o;
              sudoersDir := sudoersDir o; policyKitDir := p;
              gdmOption := gdmOption o |}.

(** [for _, o := range opts { if err := o(&args); err != nil { return } }] *)
Fixpoint applyOptions (args : options) (opts : list Option) : options + error :=
  match opts with
  | [] => inl args
  | o :: opts' =>
      match o args with
      | inr err => inr err
      | inl args' => applyOptions args' opts'
      end
  end.

(** [bus] gives, for a registered name and an object path, the object
    whose properties are read. *)
Definition NewManager (bus : string → string → string → Variant + error)
    (opts : list Option) : Manager + failure :=
  let decorate := Wrapped "can't create a new policy handlers manager" [] in
  let args := {| cacheDir := DefaultCacheDir; dconfDir := ""; sudoersDir := "";
                 policyKitDir := ""; gdmOption := None |} in
  match applyOptions args opts with
  | inr err => inr (decorate (Cause err))
  | inl args =>
      let dconfManager :=
        if bool_decide (dconfDir args ≠ "")
        then dconf_NewWithDconfDir (dconfDir args)
        else dconf_Manager_zero in
      let privilegeManager :=
        privilege_NewWithDirs (sudoersDir args) (policyKitDir args) in
      let gdmManager :=
        match gdmOption args with
        | Some g => inl g
        | None => gdm_New dconfManager
        end in
      match gdmManager with
      | inr err => inr (decorate (Cause err))
      | inl gdmManager =>
          let policiesCacheDir :=
            filepath_Join (cacheDir args) PoliciesCacheBaseName in
          match os_MkdirAll policiesCacheDir with
          | Some err => inr (decorate (Cause err))
          | None =>
              inl {| policiesCacheDir := policiesCacheDir;
                     dconf := dconfManager;
                     privilege := privilegeManager;
                     gdm := gdmManager;
                     subcriptionDbus :=
                       bus SubcriptionDbusRegisteredName SubcriptionDbusObjectPath;
                     subscriptionEnabled := false |}
          end
      end
  end.

(** The four options the file exports. *)
Inductive Setting : Type :=
| CacheDir (p : string)
| DconfDir (p : string)
| SudoersDir (p : string)
| PolicyKitDir (p : string).

Definition optionOf (s : Setting) : Option :=
  match s with
  | CacheDir p => WithCacheDir p
  | DconfDir p => WithDconfDir p
  | SudoersDir p => WithSudoersDir p
  | PolicyKitDir p => WithPolicyKitDir p
  end.

(** The value the last setting of a kind gives, [d] when there is none. *)
Definition lastOf (pick : Setting → option string) (d : string)
    (settings : list Setting) : string :=
  default d (last (omap pick settings)).

Definition pickCacheDir (s : Setting) : option string :=
  match s with CacheDir p => Some p | _ => None end.
Definition pickDconfDir (s : Setting) : option string :=
  match s with DconfDir p => Some p | _ => None end.
Definition pickSudoersDir (s : Setting) : option string :=
  match s with SudoersDir p => Some p | _ => None end.
Definition pickPolicyKitDir (s : Setting) : option string :=
  match s with PolicyKitDir p => Some p | _ => None end.

(** The handlers and the directory that the settings of a call ask for. *)
Definition dconfOf (settings : list Setting) :=
  if bool_decide (lastOf pickDconfDir "" settings ≠ "")
  then dconf_NewWithDconfDir (lastOf pickDconfDir "" settings)
  else dconf_Manager_zero.

Definition cacheDirOf (settings : list Setting) : string :=
  filepath_Join (lastOf pickCacheDir DefaultCacheDir settings)
    PoliciesCacheBaseName.

End withPackages.

(** ** Sample host and packages *)

(** A host named ["host"], where a GPO is shown by its name. *)
Definition sampleHost : Host sampleExternals :=
  {| os_Hostname := inl "host";
     time_Time := nat;
     os_ModTime := λ _ _, 0;
     i18n_G := λ s, s;
     RuleSet := list string;
     nilRuleSet := [];
     GPO_Format := λ g _ _ seen, (Name g +:+ LF, Name g :: seen) |}.

(** The caches of the machine and of one user. *)
Definition twoCaches : @FileSystem sampleExternals :=
  {| files := {[ "/var/cache/adsys/policies/host" := GPOs appendChain;
                 "/var/cache/adsys/policies/user" := GPOs overrideThenAppend ]};
     readOnly := ∅; shortWrite := λ _ _, None |}.

Definition samplePackages : Packages :=
  {| DefaultCacheDir := "/var/cache/adsys";
     PoliciesCacheBaseName := "policies";
     SubcriptionDbusRegisteredName := "com.canonical.UbuntuAdvantage";
     SubcriptionDbusObjectPath := "/com/canonical/UbuntuAdvantage/Manager";
     dconf_Manager_zero := λ _ _ _, None;
     dconf_NewWithDconfDir := λ _ _ _ _, None;
     privilege_NewWithDirs := λ _ _ _ _ _, None;
     gdm_New := λ _, inl (λ _, None);
     os_MkdirAll := λ _, None |}.

Definition sampleBus : string → string → string → Variant + error :=
  λ _ _ _, inl (StringVariant "enabled").

(** * Properties *)

(** ** Reading the maps after an update *)

Section MapFacts.
Implicit Types (st : dedupState) (t k : string) (e : Entry).

Lemma dedupLookup_setDedup t e st t' k' :
  dedupLookup (dedup (setDedup t e st)) t' k' =
    if decide (t' = t ∧ k' = Key e) then Some e
    else dedupLookup (dedup st) t' k'.
Proof.
  unfold dedupLookup, setDedup; simpl.
  destruct (decide (t' = t)) as [->|Ht].
  - rewrite lookup_insert_eq; simpl.
    destruct (decide (k' = Key e)) as [->|Hk].
    + rewrite lookup_insert_eq. by rewrite decide_True.
    + rewrite lookup_insert_ne; [|done].
      rewrite decide_False; [|by intros [_ ?]].
      by destruct (dedup st !! t).
  - rewrite lookup_insert_ne; [|done].
    rewrite decide_False; [done|by intros [? _]].
Qed.

Lemma dedupLookup_enterType t st t' k' :
  dedupLookup (dedup (enterType t st)) t' k' = dedupLookup (dedup st) t' k'.
Proof.
  unfold dedupLookup, enterType.
  destruct (dedup st !! t) eqn:Ht; [done|]; simpl.
  destruct (decide (t' = t)) as [->|Hne].
  - by rewrite lookup_insert_eq, Ht.
  - by rewrite lookup_insert_ne.
Qed.

Lemma keysOf_markSeen t e st t' :
  keysOf (markSeen t e st) t' =
    if decide (t' = t) then keysOf st t ++ [Key e] else keysOf st t'.
Proof.
  unfold keysOf at 1; simpl.
  destruct (decide (t' = t)) as [->|Hne].
  - by rewrite lookup_insert_eq.
  - by rewrite lookup_insert_ne.
Qed.

Lemma dedupAt_Some d t k e : dedupLookup d t k = Some e → dedupAt d t k = e.
Proof. unfold dedupAt. by intros ->. Qed.

Lemma dedupAt_isAppend d t k :
  isAppend (dedupAt d t k) = true →
  dedupLookup d t k = Some (dedupAt d t k).
Proof.
  unfold dedupAt. destruct (dedupLookup d t k); [done|].
  simpl. unfold isAppend. by rewrite bool_decide_eq_true.
Qed.
End MapFacts.

(** ** Every entry is handled in one of the three ways *)

Lemma visitEntry_handled t e st : handled t e st (visitEntry t st e).
Proof.
  unfold visitEntry.
  destruct (isAppend e) eqn:Ha; simpl.
  - destruct (Disabled e) eqn:Hd.
    { apply handled_skip. left. unfold effective. by rewrite Ha, Hd. }
    destruct (decide _) as [Hs|Hs].
    + destruct (isAppend (dedupAt _ _ _)) eqn:Hc; simpl.
      * apply handled_merge; auto using dedupAt_isAppend.
      * apply handled_skip. by right.
    + apply handled_first; [|done]. unfold effective. by rewrite Ha, Hd.
  - destruct (decide _) as [Hs|Hs].
    + apply handled_skip. by right.
    + apply handled_first; [|done]. unfold effective. by rewrite Ha.
Qed.

(** ** The invariant holds along the walk *)

Lemma Inv_empty : Inv emptyState.
Proof.
  split; unfold dedupLookup, keysOf; simpl; intros.
  - by rewrite lookup_empty in *.
  - by rewrite lookup_empty in *.
  - rewrite !lookup_empty; simpl. split; [by intros ?%elem_of_nil|by intros []].
  - rewrite lookup_empty. constructor.
  - by rewrite lookup_empty in *.
Qed.

Lemma Inv_enterType t st : Inv st → Inv (enterType t st).
Proof.
  intros [H1 H2 H3 H4 H5].
  assert (Hk : ∀ t', keysOf (enterType t st) t' = keysOf st t').
  { intros t'. unfold keysOf, enterType. by destruct (dedup st !! t). }
  assert (Hs : seen (enterType t st) = seen st).
  { unfold enterType. by destruct (dedup st !! t). }
  split; intros *; rewrite ?dedupLookup_enterType, ?Hk, ?Hs; eauto.
Qed.

Lemma dedup_markSeen t e st : dedup (markSeen t e st) = dedup st.
Proof. reflexivity. Qed.
Lemma seen_markSeen t e st : seen (markSeen t e st) = {[ seenKey t e ]} ∪ seen st.
Proof. reflexivity. Qed.
Lemma seen_setDedup t e st : seen (setDedup t e st) = seen st.
Proof. reflexivity. Qed.
Lemma keysOf_setDedup t e st t' : keysOf (setDedup t e st) t' = keysOf st t'.
Proof. reflexivity. Qed.

Lemma Inv_visitEntry t e st : Inv st → Inv (visitEntry t st e).
Proof.
  intros HI. destruct (visitEntry_handled t e st) as [_|c Ha Hd Hs Hc Hca|He Hs];
    [done| |]; destruct HI as [H1 H2 H3 H4 H5].
  - split.
    + intros t' k' e'. rewrite dedupLookup_setDedup.
      case_decide as Hd'; [|by eauto]. intros [= <-]. by destruct Hd'.
    + intros t' k' e'. rewrite dedupLookup_setDedup; simpl.
      case_decide as Hd'; [|by eauto]. intros _. by destruct Hd' as [-> ->].
    + intros t' k'. rewrite dedupLookup_setDedup.
      change (keysOf (setDedup _ _ st) t') with (keysOf st t').
      rewrite H3. case_decide as Hd'; [|done]. destruct Hd' as [-> ->].
      simpl. rewrite Hc. by split.
    + apply H4.
    + intros t' k' e'. rewrite dedupLookup_setDedup.
      case_decide as Hd'; [|by eauto]. by intros [= <-].
  - assert (Hnone : dedupLookup (dedup st) t (Key e) = None).
    { destruct (dedupLookup _ _ _) eqn:Hl; [|done]. by apply H2 in Hl. }
    split.
    + intros t' k' e'. rewrite dedup_markSeen, dedupLookup_setDedup.
      case_decide as Hd'; [|by eauto]. intros [= <-]. by destruct Hd'.
    + intros t' k' e'. rewrite dedup_markSeen, dedupLookup_setDedup.
      rewrite seen_markSeen, elem_of_union, elem_of_singleton.
      case_decide as Hd'; [|by eauto]. intros _. left. by destruct Hd' as [-> ->].
    + intros t' k'. rewrite keysOf_markSeen, dedup_markSeen, dedupLookup_setDedup.
      change (keysOf (setDedup t e st)) with (keysOf st).
      destruct (decide (t' = t)) as [->|Ht].
      * rewrite elem_of_app, list_elem_of_singleton, H3.
        case_decide as Hd'.
        -- split; [done|]. intros _. right. by destruct Hd'.
        -- split; [|intros ?; by left].
           intros [? | ->]; [done|]. by destruct Hd'.
      * rewrite H3. case_decide as Hd'; [by destruct Hd'|done].
    + intros t'. rewrite keysOf_markSeen.
      change (keysOf (setDedup t e st)) with (keysOf st).
      case_decide as Ht; [subst t'|done].
      apply NoDup_app. split_and!; [done| |apply NoDup_singleton].
      intros k Hk ->%list_elem_of_singleton.
      apply H3 in Hk as [? Hk]. by rewrite Hnone in Hk.
    + intros t' k' e'. rewrite dedup_markSeen, dedupLookup_setDedup.
      case_decide as Hd'; [|by eauto]. intros [= <-] Ha.
      unfold effective in He. rewrite Ha in He. by destruct (Disabled e).
Qed.

(** ** The nested loops are one walk *)

Lemma walk_cons st v vs : walk st (v :: vs) = walk (visitStep st v) vs.
Proof. reflexivity. Qed.

Lemma walk_app st vs1 vs2 : walk st (vs1 ++ vs2) = walk (walk st vs1) vs2.
Proof. apply foldl_app. Qed.

Lemma visitType_walk st b : visitType st b = walk st (visitsOfBinding b).
Proof.
  unfold visitType, visitsOfBinding. rewrite walk_cons. simpl.
  generalize (enterType b.1 st). induction (b.2) as [|e es IH]; intros s; [done|].
  simpl. by rewrite IH.
Qed.

Lemma visitGPO_walk st g :
  visitGPO st g = walk st (Rules g ≫= visitsOfBinding).
Proof.
  unfold visitGPO. revert st. induction (Rules g) as [|b bs IH]; intros st; [done|].
  rewrite bind_cons, walk_app, <- IH, <- visitType_walk. done.
Qed.

Lemma foldl_visitGPO_walk st gpos :
  foldl visitGPO st gpos = walk st (visitsOf gpos).
Proof.
  unfold visitsOf. revert st. induction gpos as [|g gs IH]; intros st; [done|].
  rewrite bind_cons, walk_app, <- IH, <- visitGPO_walk. done.
Qed.

Lemma dedupGPOs_walk gpos : dedupGPOs gpos = walk emptyState (visitsOf gpos).
Proof. apply foldl_visitGPO_walk. Qed.

Lemma visitsOf_app g1 g2 : visitsOf (g1 ++ g2) = visitsOf g1 ++ visitsOf g2.
Proof. unfold visitsOf. apply bind_app. Qed.

Lemma Inv_visitStep st v : Inv st → Inv (visitStep st v).
Proof. destruct v; simpl; auto using Inv_enterType, Inv_visitEntry. Qed.

Lemma Inv_walk vs : ∀ st, Inv st → Inv (walk st vs).
Proof.
  induction vs as [|v vs IH]; intros st HI; [done|].
  rewrite walk_cons. auto using Inv_visitStep.
Qed.

Lemma Inv_dedupGPOs gpos : Inv (dedupGPOs gpos).
Proof. rewrite dedupGPOs_walk. apply Inv_walk, Inv_empty. Qed.

(** ** What a step keeps *)

Section Stability.
Implicit Types (t k : string).

(** A value that is not an Append entry stays as it is. *)
Lemma override_kept_step t k st v e :
  Inv st →
  dedupLookup (dedup st) t k = Some e → isAppend e = false →
  dedupLookup (dedup (visitStep st v)) t k = Some e.
Proof.
  intros HI Hl Hna. destruct v as [t'|t' e']; simpl.
  { by rewrite dedupLookup_enterType. }
  destruct (visitEntry_handled t' e' st) as [_|c Ha Hd Hs Hc Hca|He Hs]; [done| |].
  - rewrite dedupLookup_setDedup. case_decide as Hd'; [|done].
    destruct Hd' as [-> ->]. simpl in *.
    rewrite Hl in Hc. injection Hc as <-. by rewrite Hna in Hca.
  - rewrite dedup_markSeen, dedupLookup_setDedup. case_decide as Hd'; [|done].
    destruct Hd' as [-> ->]. apply (inv_seen _ HI) in Hl. done.
Qed.

Lemma override_kept t k vs : ∀ st e,
  Inv st →
  dedupLookup (dedup st) t k = Some e → isAppend e = false →
  dedupLookup (dedup (walk st vs)) t k = Some e.
Proof.
  induction vs as [|v vs IH]; intros st e HI Hl Hna; [done|].
  rewrite walk_cons. apply IH; auto using Inv_visitStep, override_kept_step.
Qed.

(** The metadata and the strategy of a value never change. *)
Lemma meta_kept_step t k st v e :
  Inv st →
  dedupLookup (dedup st) t k = Some e →
  ∃ e', dedupLookup (dedup (visitStep st v)) t k = Some e' ∧
        Meta e' = Meta e ∧ Strategy e' = Strategy e.
Proof.
  intros HI Hl. destruct v as [t'|t' e']; simpl.
  { rewrite dedupLookup_enterType. eauto. }
  destruct (visitEntry_handled t' e' st) as [_|c Ha Hd Hs Hc Hca|He Hs]; [by eauto| |].
  - rewrite dedupLookup_setDedup. case_decide as Hd'; [|by eauto].
    destruct Hd' as [-> ->]. eexists; split; [done|]. simpl.
    simpl in *. rewrite Hl in Hc. injection Hc as <-. split; [done|].
    unfold isAppend in *. rewrite bool_decide_eq_true in Ha, Hca. by rewrite Ha, Hca.
  - rewrite dedup_markSeen, dedupLookup_setDedup. case_decide as Hd'; [|by eauto].
    destruct Hd' as [-> ->]. apply (inv_seen _ HI) in Hl. done.
Qed.

Lemma meta_kept t k vs : ∀ st e,
  Inv st →
  dedupLookup (dedup st) t k = Some e →
  ∃ e', dedupLookup (dedup (walk st vs)) t k = Some e' ∧
        Meta e' = Meta e ∧ Strategy e' = Strategy e.
Proof.
  induction vs as [|v vs IH]; intros st e HI Hl; [by eauto|].
  rewrite walk_cons.
  destruct (meta_kept_step t k st v e HI Hl) as (e1 & Hl1 & Hm1 & Hs1).
  destruct (IH _ e1 (Inv_visitStep _ v HI) Hl1) as (e2 & Hl2 & Hm2 & Hs2).
  exists e2. split_and!; congruence.
Qed.

(** A key of [seen] that holds no value for the pair never gets one. *)
Lemma blocked_step t k st v :
  t +:+ k ∈ seen st → dedupLookup (dedup st) t k = None →
  t +:+ k ∈ seen (visitStep st v) ∧
  dedupLookup (dedup (visitStep st v)) t k = None.
Proof.
  intros Hs Hl. destruct v as [t'|t' e']; simpl.
  { rewrite dedupLookup_enterType. split; [|done].
    unfold enterType. by destruct (dedup st !! t'). }
  destruct (visitEntry_handled t' e' st) as [_|c Ha Hd Hs' Hc Hca|He Hs']; [done| |].
  - rewrite dedupLookup_setDedup. split; [done|]. case_decide as Hd'; [|done].
    destruct Hd' as [-> ->]. simpl in *. by rewrite Hl in Hc.
  - rewrite dedup_markSeen, dedupLookup_setDedup, seen_markSeen. split; [set_solver|].
    case_decide as Hd'; [|done]. destruct Hd' as [-> ->]. done.
Qed.

Lemma blocked t k vs : ∀ st,
  t +:+ k ∈ seen st → dedupLookup (dedup st) t k = None →
  dedupLookup (dedup (walk st vs)) t k = None.
Proof.
  induction vs as [|v vs IH]; intros st Hs Hl; [done|].
  rewrite walk_cons. destruct (blocked_step t k st v Hs Hl). by apply IH.
Qed.
End Stability.

(** ** The closest contributor *)

Lemma seen_visitStep_mono st v sk : sk ∈ seen st → sk ∈ seen (visitStep st v).
Proof.
  intros Hs. destruct v as [t'|t' e']; simpl.
  { unfold enterType. by destruct (dedup st !! t'). }
  destruct (visitEntry_handled t' e' st) as [_|c Ha Hd Hs' Hc Hca|He Hs']; [done..|].
  rewrite seen_markSeen. apply elem_of_union. by right.
Qed.

(** A value present at the end for a pair whose key of [seen] was free at
    the start comes from the first entry of the pair that takes part. *)
Lemma value_from_closest t k vs : ∀ st e,
  Inv st → t +:+ k ∉ seen st →
  dedupLookup (dedup (walk st vs)) t k = Some e →
  ∃ c, head (contributors vs t k) = Some c ∧
       Meta e = Meta c ∧ Strategy e = Strategy c.
Proof.
  induction vs as [|v vs IH]; intros st e HI Hs Hl.
  { simpl in Hl. by apply (inv_seen _ HI) in Hl. }
  rewrite walk_cons in Hl. destruct v as [t'|t' e']; simpl in *.
  { apply (IH (enterType t' st)); auto using Inv_enterType.
    unfold enterType. by destruct (dedup st !! t'). }
  pose proof (Inv_visitEntry t' e' st HI) as HI'.
  destruct (visitEntry_handled t' e' st) as [Hsk|c Ha Hd Hs' Hc Hca|He Hs'].
  - (* skipped *)
    destruct Hsk as [He|Hs'].
    + rewrite He, andb_false_r. eauto.
    + destruct (bool_decide_reflect (t' = t ∧ Key e' = k)) as [[-> <-]|Hne];
        [done|]. simpl. eauto.
  - (* merged: the pair of [e'] already has a value *)
    destruct (bool_decide_reflect (t' = t ∧ Key e' = k)) as [[-> <-]|Hne].
    { by apply (inv_seen _ HI) in Hc. }
    simpl. eauto.
  - (* first value of the pair of [e'] *)
    rewrite He, andb_true_r.
    destruct (bool_decide_reflect (t' = t ∧ Key e' = k)) as [[-> <-]|Hne].
    + simpl. exists e'. split; [done|].
      assert (Hfirst : dedupLookup (dedup (markSeen t e' (setDedup t e' st)))
                         t (Key e') = Some e').
      { rewrite dedup_markSeen, dedupLookup_setDedup. by rewrite decide_True. }
      destruct (meta_kept t (Key e') vs _ _ HI' Hfirst) as (e2 & Hl2 & Hm & Hstr).
      rewrite Hl in Hl2. by injection Hl2 as <-.
    + destruct (decide (seenKey t' e' = t +:+ k)) as [Heq|Hneq].
      * (* the key of [seen] is taken by another pair *)
        rewrite blocked in Hl; [done| |].
        -- rewrite seen_markSeen, <- Heq.
           apply elem_of_union. left. by apply elem_of_singleton.
        -- rewrite dedup_markSeen, dedupLookup_setDedup.
           rewrite decide_False; [|by intros [-> ->]; apply Hne].
           destruct (dedupLookup (dedup st) t k) eqn:Hold; [|done].
           by apply (inv_seen _ HI) in Hold.
      * apply (IH _ e HI'); [|done].
        rewrite seen_markSeen, elem_of_union, elem_of_singleton.
        by intros [?|?].
Qed.

(** A key of [seen] stays free as long as no entry that takes part uses it. *)
Lemma unseen_walk sk vs : ∀ st,
  sk ∉ seen st → unseenIn vs sk = true → sk ∉ seen (walk st vs).
Proof.
  induction vs as [|v vs IH]; intros st Hs Hu; [done|].
  rewrite walk_cons. destruct v as [t'|t' e']; simpl in *.
  { apply IH; [|done]. unfold enterType. by destruct (dedup st !! t'). }
  apply andb_true_iff in Hu as [Hu1 Hu2]. apply IH; [|done].
  destruct (visitEntry_handled t' e' st) as [_|c Ha Hd Hs' Hc Hca|He Hs']; [done..|].
  rewrite seen_markSeen, He in *. simpl in Hu1.
  apply negb_true_iff, bool_decide_eq_false in Hu1.
  rewrite elem_of_union, elem_of_singleton. by intros [?|?].
Qed.

(** ** From the maps to the returned lists *)

Lemma collect_lookup st t :
  collect st !! t = (λ _, orderedEntries st t) <$> dedup st !! t.
Proof.
  unfold collect. rewrite map_lookup_imap. by destruct (dedup st !! t).
Qed.

Lemma sort_Strings_elem_of l k : k ∈ sort_Strings l ↔ k ∈ l.
Proof. unfold sort_Strings. by rewrite merge_sort_Permutation. Qed.

Lemma keysOf_dedup_None st t : Inv st → dedup st !! t = None → keysOf st t = [].
Proof.
  intros HI Hd. destruct (keysOf st t) as [|k l] eqn:Hk; [done|].
  assert (Hin : k ∈ keysOf st t) by (rewrite Hk; left).
  apply (inv_listed _ HI) in Hin as [e He].
  unfold dedupLookup in He. by rewrite Hd in He.
Qed.

Lemma rulesOf_collect st t : Inv st → rulesOf (collect st) t = orderedEntries st t.
Proof.
  intros HI. unfold rulesOf. rewrite collect_lookup.
  destruct (dedup st !! t) eqn:Hd; [done|]. simpl.
  unfold orderedEntries. by rewrite keysOf_dedup_None.
Qed.

Lemma orderedEntries_keys st t :
  Inv st → Key <$> orderedEntries st t = sort_Strings (keysOf st t).
Proof.
  intros HI. unfold orderedEntries. rewrite <- list_fmap_compose.
  transitivity (id <$> sort_Strings (keysOf st t)); [|apply list_fmap_id].
  apply Forall_fmap_ext_1, Forall_forall.
  intros k Hk. apply (proj1 (sort_Strings_elem_of _ _)) in Hk. simpl.
  apply (inv_listed _ HI) in Hk as [e He].
  rewrite (dedupAt_Some _ _ _ _ He). by apply (inv_key _ HI) in He.
Qed.

Lemma elem_of_orderedEntries st t e :
  Inv st →
  e ∈ orderedEntries st t ↔ dedupLookup (dedup st) t (Key e) = Some e.
Proof.
  intros HI. unfold orderedEntries. rewrite list_elem_of_fmap. split.
  - intros (k & -> & Hk). apply (proj1 (sort_Strings_elem_of _ _)) in Hk.
    apply (inv_listed _ HI) in Hk as [e He].
    rewrite (dedupAt_Some _ _ _ _ He).
    by rewrite (inv_key _ HI _ _ _ He).
  - intros He. exists (Key e). split; [by rewrite (dedupAt_Some _ _ _ _ He)|].
    apply sort_Strings_elem_of, (inv_listed _ HI). by eexists.
Qed.

Lemma elem_of_GetUniqueRules pols t e :
  e ∈ rulesOf (GetUniqueRules pols) t ↔
  dedupLookup (dedup (dedupGPOs (GPOs pols))) t (Key e) = Some e.
Proof.
  unfold GetUniqueRules. rewrite rulesOf_collect by apply Inv_dedupGPOs.
  apply elem_of_orderedEntries, Inv_dedupGPOs.
Qed.

(** ** Disabled Append entries leave no trace *)

Lemma visitEntry_not_effective t st e : effective e = false → visitEntry t st e = st.
Proof.
  unfold effective, visitEntry. rewrite negb_false_iff, andb_true_iff.
  by intros [-> ->].
Qed.

Lemma foldl_visitEntry_filter t es : ∀ st,
  foldl (visitEntry t) st (filter (λ e, effective e = true) es) =
  foldl (visitEntry t) st es.
Proof.
  induction es as [|e es IH]; intros st; [done|].
  rewrite filter_cons. case_decide as He; simpl; [done|].
  rewrite visitEntry_not_effective; [done|]. by destruct (effective e).
Qed.

Lemma dedupGPOs_dropDisabledAppend pols :
  dedupGPOs (GPOs (dropDisabledAppend pols)) = dedupGPOs (GPOs pols).
Proof.
  unfold dedupGPOs. simpl. generalize emptyState.
  induction (GPOs pols) as [|g gs IH]; intros st; [done|].
  simpl. rewrite IH. f_equal. unfold visitGPO. simpl. clear.
  revert st. induction (Rules g) as [|[t es] bs IH]; intros st; [done|].
  simpl. rewrite IH. f_equal. unfold visitType. simpl.
  apply foldl_visitEntry_filter.
Qed.

(** ** The flag of an Override entry plays no part *)

Section Flag.
Variable b : bool.
Local Abbreviation flag := (flagOverride b).

Lemma isAppend_flag e : isAppend (flag e) = isAppend e.
Proof. unfold flagOverride. by destruct (isAppend e) eqn:He. Qed.

Lemma Key_flag e : Key (flag e) = Key e.
Proof. unfold flagOverride. by destruct (isAppend e). Qed.

Lemma flag_append e : isAppend e = true → flag e = e.
Proof. unfold flagOverride. by intros ->. Qed.

Lemma dedupLookup_mapState st t k :
  dedupLookup (dedup (mapState flag st)) t k = flag <$> dedupLookup (dedup st) t k.
Proof.
  unfold dedupLookup; simpl. rewrite lookup_fmap.
  destruct (dedup st !! t) as [m|]; simpl; [|done]. by rewrite lookup_fmap.
Qed.

Lemma setDedup_mapState t e st :
  setDedup t (flag e) (mapState flag st) = mapState flag (setDedup t e st).
Proof.
  unfold setDedup, mapState; simpl. f_equal.
  rewrite !fmap_insert, lookup_fmap, Key_flag.
  destruct (dedup st !! t); simpl; [done|]. by rewrite fmap_empty.
Qed.

Lemma markSeen_mapState t e st :
  markSeen t (flag e) (mapState flag st) = mapState flag (markSeen t e st).
Proof. unfold markSeen, mapState, keysOf; simpl. by rewrite Key_flag. Qed.

Lemma enterType_mapState t st :
  enterType t (mapState flag st) = mapState flag (enterType t st).
Proof.
  unfold enterType; simpl. rewrite lookup_fmap.
  destruct (dedup st !! t); simpl; [done|].
  unfold mapState; simpl. by rewrite fmap_insert, fmap_empty.
Qed.

Lemma visitEntry_mapState t e st :
  visitEntry t (mapState flag st) (flag e) = mapState flag (visitEntry t st e).
Proof.
  unfold visitEntry. rewrite isAppend_flag, Key_flag.
  change (seen (mapState flag st)) with (seen st).
  destruct (isAppend e) eqn:Ha.
  - rewrite (flag_append e Ha).
    destruct (Disabled e) eqn:Hd; [done|].
    destruct (decide _); [|by rewrite <- (flag_append e Ha) at 1 2;
                              rewrite setDedup_mapState, markSeen_mapState].
    unfold dedupAt. rewrite dedupLookup_mapState.
    destruct (dedupLookup (dedup st) t (Key e)) as [c|]; simpl; [|done].
    rewrite isAppend_flag. destruct (isAppend c) eqn:Hc; simpl; [|done].
    rewrite (flag_append c Hc). rewrite <- setDedup_mapState.
    by rewrite flag_append.
  - destruct (decide _); [done|].
    by rewrite setDedup_mapState, markSeen_mapState.
Qed.

Lemma dedupGPOs_flagOverrides pols :
  dedupGPOs (GPOs (flagOverrides b pols)) = mapState flag (dedupGPOs (GPOs pols)).
Proof.
  unfold dedupGPOs. simpl.
  change emptyState with (mapState flag emptyState) at 1.
  generalize emptyState.
  induction (GPOs pols) as [|g gs IH]; intros st; [done|].
  simpl. rewrite <- IH. f_equal. unfold visitGPO. simpl. clear.
  revert st. induction (Rules g) as [|[t es] bs IH]; intros st; [done|].
  simpl. rewrite <- IH. f_equal. unfold visitType. simpl.
  rewrite enterType_mapState. generalize (enterType t st). clear.
  induction es as [|e es IH]; intros st; [done|].
  simpl. by rewrite visitEntry_mapState, IH.
Qed.

Lemma orderedEntries_mapState st t :
  Inv st → orderedEntries (mapState flag st) t = flag <$> orderedEntries st t.
Proof.
  intros HI. unfold orderedEntries. rewrite <- list_fmap_compose.
  change (keysOf (mapState flag st) t) with (keysOf st t).
  apply Forall_fmap_ext_1, Forall_forall.
  intros k Hk. apply (proj1 (sort_Strings_elem_of _ _)) in Hk.
  apply (inv_listed _ HI) in Hk as [e He].
  unfold compose, dedupAt. by rewrite dedupLookup_mapState, He.
Qed.

Lemma collect_mapState st :
  Inv st → collect (mapState flag st) = (λ l : list Entry, flag <$> l) <$> collect st.
Proof.
  intros HI. apply map_eq. intros t.
  rewrite lookup_fmap, !collect_lookup. simpl. rewrite lookup_fmap.
  destruct (dedup st !! t); simpl; [|done].
  by rewrite orderedEntries_mapState.
Qed.
End Flag.

(** ** Order of the returned lists *)

Lemma rulesOf_keys_sorted pols t :
  Key <$> rulesOf (GetUniqueRules pols) t =
  sort_Strings (keysOf (dedupGPOs (GPOs pols)) t).
Proof.
  unfold GetUniqueRules.
  rewrite rulesOf_collect, orderedEntries_keys; auto using Inv_dedupGPOs.
Qed.

Lemma dedupGPOs_app closer farther :
  dedupGPOs (closer ++ farther) = walk (dedupGPOs closer) (visitsOf farther).
Proof. by rewrite !dedupGPOs_walk, visitsOf_app, walk_app. Qed.

Lemma seen_enterType t st : seen (enterType t st) = seen st.
Proof. unfold enterType. by destruct (dedup st !! t). Qed.

Lemma walk_oneRuleGPO st name t e :
  walk st (visitsOf [oneRuleGPO name t e]) = visitEntry t (enterType t st) e.
Proof. reflexivity. Qed.

(** An entry that is not an Append entry and is the first to take part
    under its key of [seen] is the value of its pair at the end. *)
Lemma first_override_kept pols pre t e post :
  visitsOf (GPOs pols) = pre ++ VisitRule t e :: post →
  unseenIn pre (seenKey t e) = true →
  isAppend e = false →
  dedupLookup (dedup (dedupGPOs (GPOs pols))) t (Key e) = Some e.
Proof.
  intros Hvs Hu Hna. rewrite dedupGPOs_walk, Hvs, walk_app, walk_cons.
  pose proof (Inv_walk pre _ Inv_empty) as HI.
  pose proof (unseen_walk (seenKey t e) pre emptyState
                (not_elem_of_empty _) Hu) as Hs.
  set (st := walk emptyState pre) in *.
  apply override_kept; [by apply Inv_visitStep| |done].
  simpl. unfold visitEntry. rewrite Hna, decide_False; [|done].
  rewrite dedup_markSeen, dedupLookup_setDedup. by rewrite decide_True.
Qed.

Lemma closest_split vs t k e :
  head (contributors vs t k) = Some e →
  ∃ pre post, vs = pre ++ VisitRule t e :: post ∧
              contributors pre t k = [] ∧ Key e = k ∧ effective e = true.
Proof.
  induction vs as [|v vs IH]; [done|]. destruct v as [t'|t' e']; simpl.
  { intros (pre & post & -> & Hc & Hk & He)%IH.
    by exists (EnterType t' :: pre), post. }
  destruct (bool_decide_reflect (t' = t ∧ Key e' = k)) as [[-> <-]|Hne]; simpl.
  - destruct (effective e') eqn:He'; simpl.
    + intros [= ->]. by exists [], vs.
    + intros (pre & post & -> & Hc & Hk & He)%IH.
      exists (VisitRule t e' :: pre), post.
      split_and!; [done| |done..]. simpl. by rewrite He', andb_false_r.
  - intros (pre & post & -> & Hc & Hk & He)%IH.
    exists (VisitRule t' e' :: pre), post.
    split_and!; [done| |done..]. simpl. by rewrite bool_decide_false.
Qed.

Lemma unseenIn_no_contributor pre t e :
  (∀ t' e', VisitRule t' e' ∈ pre → seenKey t' e' = seenKey t e → t' = t) →
  contributors pre t (Key e) = [] →
  unseenIn pre (seenKey t e) = true.
Proof.
  induction pre as [|v pre IH]; intros Hcl Hc; [done|].
  destruct v as [t'|t' e']; simpl in *.
  { apply IH; [|done]. intros ?? Hin. apply Hcl. by right. }
  assert (Hrest : unseenIn pre (seenKey t e) = true).
  { apply IH.
    - intros ?? Hin. apply Hcl. by right.
    - by destruct (bool_decide (t' = t ∧ Key e' = Key e) && effective e'). }
  rewrite Hrest, andb_true_r. apply negb_true_iff.
  destruct (effective e') eqn:He'; [|done]. simpl.
  apply bool_decide_eq_false. intros Hsk.
  assert (t' = t) as -> by (apply (Hcl t' e'); [by left|done]).
  unfold seenKey in Hsk. apply (inj (String.app t)) in Hsk.
  rewrite bool_decide_true in Hc; done.
Qed.

(** ** The value of an append chain *)

Lemma other_pair_step t k st t' e' :
  ¬ (t' = t ∧ Key e' = k) →
  dedupLookup (dedup (visitEntry t' st e')) t k = dedupLookup (dedup st) t k.
Proof.
  intros Hne.
  destruct (visitEntry_handled t' e' st) as [_|c Ha Hd Hs Hc Hca|He Hs]; [done| |].
  - rewrite dedupLookup_setDedup, decide_False; [done|]. simpl.
    intros [-> ->]. by apply Hne.
  - rewrite dedup_markSeen, dedupLookup_setDedup, decide_False; [done|].
    intros [-> ->]. by apply Hne.
Qed.

(** From an Append value on, the enabled Append entries of the pair are
    put in front one after the other. *)
Lemma chain_grows t k vs : ∀ st e0,
  Inv st →
  dedupLookup (dedup st) t k = Some e0 → isAppend e0 = true →
  ∃ e1, dedupLookup (dedup (walk st vs)) t k = Some e1 ∧
        Value e1 = foldl (λ existing new, new +:+ LF +:+ existing) (Value e0)
                     (Value <$> appendChainOf vs t k).
Proof.
  unfold appendChainOf.
  induction vs as [|v vs IH]; intros st e0 HI Hl Ha; [by exists e0|].
  rewrite walk_cons. destruct v as [t'|t' e']; simpl.
  { apply IH; [by apply Inv_enterType| |done]. by rewrite dedupLookup_enterType. }
  pose proof (Inv_visitEntry t' e' st HI) as HI'.
  destruct (bool_decide_reflect (t' = t ∧ Key e' = k)) as [[-> <-]|Hne]; simpl.
  2:{ apply IH; [done| |done]. by rewrite other_pair_step. }
  pose proof (inv_seen _ HI _ _ _ Hl) as Hs.
  unfold effective.
  destruct (isAppend e') eqn:Ha'; simpl.
  - destruct (Disabled e') eqn:Hd'; simpl.
    + apply IH; [done| |done]. unfold visitEntry. by rewrite Ha', Hd'.
    + rewrite filter_cons_True by done. simpl.
      apply (IH _ (withValueMeta e' (Value e' +:+ LF +:+ Value e0) (Meta e0)));
        [done| |exact Ha'].
      unfold visitEntry. rewrite Ha', Hd', decide_True by done. cbv zeta.
      rewrite (dedupAt_Some _ _ _ _ Hl), Ha. cbn [negb].
      rewrite dedupLookup_setDedup. by rewrite decide_True.
  - rewrite filter_cons_False by (by rewrite Ha').
    apply IH; [done| |done]. unfold visitEntry.
    by rewrite Ha', decide_True.
Qed.

Lemma chain_from_closest t k vs : ∀ st e,
  Inv st → t +:+ k ∉ seen st →
  dedupLookup (dedup (walk st vs)) t k = Some e →
  isAppend e = true →
  Value e = mergedValue (Value <$> appendChainOf vs t k).
Proof.
  unfold appendChainOf.
  induction vs as [|v vs IH]; intros st e HI Hs Hl Hae.
  { simpl in Hl. by apply (inv_seen _ HI) in Hl. }
  rewrite walk_cons in Hl. destruct v as [t'|t' e']; simpl in *.
  { apply (IH (enterType t' st)); auto using Inv_enterType.
    by rewrite seen_enterType. }
  pose proof (Inv_visitEntry t' e' st HI) as HI'.
  destruct (visitEntry_handled t' e' st) as [Hsk|c Ha Hd Hs' Hc Hca|He Hs'].
  - destruct Hsk as [He|Hs'].
    + rewrite He, andb_false_r. eauto.
    + destruct (bool_decide_reflect (t' = t ∧ Key e' = k)) as [[-> <-]|Hne];
        [done|]. simpl. eauto.
  - destruct (bool_decide_reflect (t' = t ∧ Key e' = k)) as [[-> <-]|Hne].
    { by apply (inv_seen _ HI) in Hc. }
    simpl. eauto.
  - rewrite He, andb_true_r.
    destruct (bool_decide_reflect (t' = t ∧ Key e' = k)) as [[-> <-]|Hne].
    + simpl.
      assert (Hfirst : dedupLookup (dedup (markSeen t e' (setDedup t e' st)))
                         t (Key e') = Some e').
      { rewrite dedup_markSeen, dedupLookup_setDedup. by rewrite decide_True. }
      destruct (meta_kept t (Key e') vs _ _ HI' Hfirst) as (e2 & Hl2 & _ & Hstr).
      rewrite Hl in Hl2. injection Hl2 as <-.
      assert (Hae' : isAppend e' = true).
      { unfold isAppend in *. by rewrite <- Hstr. }
      rewrite filter_cons_True by done. simpl.
      destruct (chain_grows t (Key e') vs _ _ HI' Hfirst Hae') as (e3 & Hl3 & Hv).
      rewrite Hl in Hl3. by injection Hl3 as <-.
    + simpl. destruct (decide (seenKey t' e' = t +:+ k)) as [Heq|Hneq].
      * rewrite blocked in Hl; [done| |].
        -- rewrite seen_markSeen, <- Heq.
           apply elem_of_union. left. by apply elem_of_singleton.
        -- rewrite dedup_markSeen, dedupLookup_setDedup.
           rewrite decide_False; [|by intros [-> ->]; apply Hne].
           destruct (dedupLookup (dedup st) t k) eqn:Hold; [|done].
           by apply (inv_seen _ HI) in Hold.
      * apply (IH _ e HI'); [|done..].
        rewrite seen_markSeen, elem_of_union, elem_of_singleton.
        by intros [?|?].
Qed.

(** One more GPO: when an enabled Append entry [e] of a farther GPO meets
    an Append value [old] that the closer GPOs have left for its domain and
    key, the merged entry has the value [Value e + "\n" + Value old] and the
    metadata of [old]. *)
Lemma append_one_more_GPO closer name t e old :
  old ∈ rulesOf (GetUniqueRules (policiesOf closer)) t →
  isAppend old = true → isAppend e = true → Disabled e = false →
  Key e = Key old →
  withValueMeta e (Value e +:+ LF +:+ Value old) (Meta old)
    ∈ rulesOf (GetUniqueRules (policiesOf (closer ++ [oneRuleGPO name t e]))) t.
Proof.
  intros Hold Hao Hae Hd Hk. apply elem_of_GetUniqueRules in Hold.
  apply elem_of_GetUniqueRules. simpl in *.
  pose proof (Inv_dedupGPOs closer) as HI.
  set (st := dedupGPOs closer) in *.
  rewrite dedupGPOs_app, walk_oneRuleGPO. fold st.
  assert (Hl : dedupLookup (dedup (enterType t st)) t (Key e) = Some old).
  { by rewrite dedupLookup_enterType, Hk. }
  assert (Hs : t +:+ Key e ∈ seen (enterType t st)).
  { rewrite seen_enterType, Hk. by apply (inv_seen _ HI) in Hold. }
  unfold visitEntry. rewrite Hae, Hd, decide_True; [|done].
  cbv zeta. rewrite (dedupAt_Some _ _ _ _ Hl), Hao. cbn [negb].
  rewrite dedupLookup_setDedup. by rewrite decide_True.
Qed.

(** ** The sample policy sets *)

Example appendChain_value :
  Value <$> rulesOf (GetUniqueRules appendChain) "dconf" = ["y" +:+ LF +:+ "x"].
Proof. vm_compute. reflexivity. Qed.

Example overrideThenAppend_value :
  Value <$> rulesOf (GetUniqueRules overrideThenAppend) "dconf" = ["x"].
Proof. vm_compute. reflexivity. Qed.

Example samples_well_formed :
  forallb wfPolicies [appendChain; overrideThenAppend; disabledOverrideFirst;
                      disabledAppendFirst; overrideInsideChain; sharedSeenKey]
  = true.
Proof. vm_compute. reflexivity. Qed.

(** A disabled Override entry is kept, with its flag, and stops the
    Append entry below it. *)
Example disabledOverrideFirst_rules :
  rulesOf (GetUniqueRules disabledOverrideFirst) "dconf"
  = [disabledEntry (overrideEntry "a" "x" "G1")].
Proof. vm_compute. reflexivity. Qed.

(** A disabled Append entry is passed over: the entry below starts the
    chain, with its own metadata. *)
Example disabledAppendFirst_rules :
  rulesOf (GetUniqueRules disabledAppendFirst) "dconf"
  = [appendEntry "a" "y" "G2"].
Proof. vm_compute. reflexivity. Qed.

(** An Override entry met after the chain has started is ignored, and the
    chain goes on below it. *)
Example overrideInsideChain_rules :
  rulesOf (GetUniqueRules overrideInsideChain) "dconf"
  = [{| Key := "a"; Value := "y" +:+ LF +:+ "x"; Disabled := false;
        Meta := "G1"; Strategy := StrategyAppend |}].
Proof. vm_compute. reflexivity. Qed.

(** [seen] is keyed by the concatenation [t+e.Key]: the pair of domain
    ["ab"] and key ["c"] finds the key of the pair of ["a"] and ["bc"], and
    its entry is left out. *)
Example sharedSeenKey_rules :
  rulesOf (GetUniqueRules sharedSeenKey) "a" = [overrideEntry "bc" "x" "G1"] ∧
  GetUniqueRules sharedSeenKey !! "ab" = Some [].
Proof. vm_compute. split; reflexivity. Qed.

Example mergedValue_two : mergedValue ["x"; "y"] = "y" +:+ LF +:+ "x".
Proof. reflexivity. Qed.

(** ** The claims about the merge *)

(** C1 (as stated, refuted): for the two-GPO append chain the specification
    expects the value ["x\ny"], closer content first; the function returns
    another value. *)
Lemma append_chain_not_closer_first :
  Value <$> rulesOf (GetUniqueRules appendChain) "dconf" ≠ ["x" +:+ LF +:+ "y"].
Proof. vm_compute. discriminate. Qed.

(** C1 (amended): the value of every Append entry of the result is built
    from the values of the enabled Append entries of its domain and key,
    each farther value put in front of what the closer ones have built,
    [newValue + "\n" + existingValue]: the farthest content comes first and
    the closest last. *)
Theorem append_chain_farthest_first pols t e :
  e ∈ rulesOf (GetUniqueRules pols) t →
  isAppend e = true →
  Value e = mergedValue (Value <$> appendChainOf (visitsOf (GPOs pols)) t (Key e)).
Proof.
  intros He Ha. apply elem_of_GetUniqueRules in He. rewrite dedupGPOs_walk in He.
  apply (chain_from_closest _ _ _ emptyState); [apply Inv_empty| |done..].
  apply not_elem_of_empty.
Qed.

Lemma append_chain_farthest_first_witness :
  let e := {| Key := "a"; Value := "y" +:+ LF +:+ "x"; Disabled := false;
              Meta := "G1"; Strategy := StrategyAppend |} in
  (e ∈ rulesOf (GetUniqueRules appendChain) "dconf" ∧ isAppend e = true) ∧
  Value e = mergedValue
              (Value <$> appendChainOf (visitsOf (GPOs appendChain)) "dconf" (Key e)).
Proof.
  assert (H : {| Key := "a"; Value := "y" +:+ LF +:+ "x"; Disabled := false;
                 Meta := "G1"; Strategy := StrategyAppend |}
              ∈ rulesOf (GetUniqueRules appendChain) "dconf").
  { vm_compute. constructor. }
  split; [by split|].
  exact (append_chain_farthest_first appendChain "dconf" _ H eq_refl).
Defined.

(** C2: once the closer GPOs have left a value for a domain and key that
    is not an Append entry (an Override entry), that value is the entry of
    the key in the result whatever the farther GPOs hold: farther Override
    entries are ignored and farther Append entries are not concatenated. *)
Theorem override_blocks_farther closer farther t e :
  e ∈ rulesOf (GetUniqueRules (policiesOf closer)) t →
  isAppend e = false →
  e ∈ rulesOf (GetUniqueRules (policiesOf (closer ++ farther))) t ∧
  ∀ e', e' ∈ rulesOf (GetUniqueRules (policiesOf (closer ++ farther))) t →
        Key e' = Key e → e' = e.
Proof.
  intros He Hna. apply elem_of_GetUniqueRules in He. simpl in He.
  assert (Hl : dedupLookup (dedup (dedupGPOs (closer ++ farther))) t (Key e)
               = Some e).
  { rewrite dedupGPOs_app. apply override_kept; auto using Inv_dedupGPOs. }
  split; [by apply elem_of_GetUniqueRules|].
  intros e' He' Hk. apply elem_of_GetUniqueRules in He'. simpl in He'.
  rewrite Hk, Hl in He'. by injection He'.
Qed.

Lemma override_blocks_farther_witness :
  let g1 := oneRuleGPO "G1" "dconf" (overrideEntry "a" "x" "G1") in
  let g2 := oneRuleGPO "G2" "dconf" (appendEntry "a" "y" "G2") in
  let e := overrideEntry "a" "x" "G1" in
  (e ∈ rulesOf (GetUniqueRules (policiesOf [g1])) "dconf" ∧ isAppend e = false) ∧
  (e ∈ rulesOf (GetUniqueRules (policiesOf ([g1] ++ [g2]))) "dconf" ∧
   ∀ e', e' ∈ rulesOf (GetUniqueRules (policiesOf ([g1] ++ [g2]))) "dconf" →
         Key e' = Key e → e' = e).
Proof.
  assert (H : overrideEntry "a" "x" "G1"
              ∈ rulesOf (GetUniqueRules
                  (policiesOf [oneRuleGPO "G1" "dconf" (overrideEntry "a" "x" "G1")]))
                  "dconf").
  { vm_compute. constructor. }
  split; [by split|].
  exact (override_blocks_farther
           [oneRuleGPO "G1" "dconf" (overrideEntry "a" "x" "G1")]
           [oneRuleGPO "G2" "dconf" (appendEntry "a" "y" "G2")] "dconf"
           (overrideEntry "a" "x" "G1") H eq_refl).
Defined.

(** C3: for every policy set and every domain, the keys of the returned
    list are in ascending byte-wise order and no key occurs twice. *)
Theorem GetUniqueRules_sorted_unique pols t :
  StronglySorted String.le (Key <$> rulesOf (GetUniqueRules pols) t) ∧
  NoDup (Key <$> rulesOf (GetUniqueRules pols) t).
Proof.
  rewrite rulesOf_keys_sorted. unfold sort_Strings. split.
  - apply StronglySorted_merge_sort; apply _.
  - rewrite merge_sort_Permutation. apply inv_nodup, Inv_dedupGPOs.
Qed.

(** C4: a disabled Append entry changes none of the three maps when it is
    visited, so the walk and the result are those of the policy set without
    its disabled Append entries, and no entry of the result is a disabled
    Append entry. *)
Theorem disabled_append_ignored pols :
  (∀ t st e, isAppend e = true → Disabled e = true → visitEntry t st e = st) ∧
  dedupGPOs (GPOs (dropDisabledAppend pols)) = dedupGPOs (GPOs pols) ∧
  GetUniqueRules (dropDisabledAppend pols) = GetUniqueRules pols ∧
  ∀ t e, e ∈ rulesOf (GetUniqueRules pols) t →
         ¬ (isAppend e = true ∧ Disabled e = true).
Proof.
  split_and!.
  - intros t st e Ha Hd. apply visitEntry_not_effective.
    unfold effective. by rewrite Ha, Hd.
  - apply dedupGPOs_dropDisabledAppend.
  - unfold GetUniqueRules. by rewrite dedupGPOs_dropDisabledAppend.
  - intros t e He [Ha Hd]. apply elem_of_GetUniqueRules in He.
    apply (inv_enabled _ (Inv_dedupGPOs _)) in He; [|done]. congruence.
Qed.

(** C5: the metadata of every entry of the result, append-merged or not,
    is the metadata of the closest entry of its domain and key that takes
    part in the merge, and so is its strategy. *)
Theorem merged_meta_is_closest pols t e :
  e ∈ rulesOf (GetUniqueRules pols) t →
  ∃ c, head (contributors (visitsOf (GPOs pols)) t (Key e)) = Some c ∧
       Meta e = Meta c ∧ Strategy e = Strategy c.
Proof.
  intros He. apply elem_of_GetUniqueRules in He. rewrite dedupGPOs_walk in He.
  apply (value_from_closest _ _ _ emptyState); [apply Inv_empty| |done].
  apply not_elem_of_empty.
Qed.

Lemma merged_meta_is_closest_witness :
  let e := {| Key := "a"; Value := "y" +:+ LF +:+ "x"; Disabled := false;
              Meta := "G1"; Strategy := StrategyAppend |} in
  e ∈ rulesOf (GetUniqueRules appendChain) "dconf" ∧
  ∃ c, head (contributors (visitsOf (GPOs appendChain)) "dconf" (Key e)) = Some c ∧
       Meta e = Meta c ∧ Strategy e = Strategy c.
Proof.
  assert (H : {| Key := "a"; Value := "y" +:+ LF +:+ "x"; Disabled := false;
                 Meta := "G1"; Strategy := StrategyAppend |}
              ∈ rulesOf (GetUniqueRules appendChain) "dconf").
  { vm_compute. constructor. }
  split; [exact H|].
  exact (merged_meta_is_closest appendChain "dconf" _ H).
Defined.

(** The flag [Disabled] of an entry that is not an Append entry is never
    read: setting it on every such entry changes the result only in the
    flag the entries carry.  Such an entry, disabled or not, that is the
    first to take part under its key of [seen] is the entry of its key in
    the result; so is, when no two domains clash in [seen], the closest
    entry that takes part for its domain and key. *)
Theorem override_disabled_flag_ignored b pols :
  GetUniqueRules (flagOverrides b pols) =
    (λ l : list Entry, flagOverride b <$> l) <$> GetUniqueRules pols ∧
  (∀ pre t e post,
     visitsOf (GPOs pols) = pre ++ VisitRule t e :: post →
     unseenIn pre (seenKey t e) = true →
     isAppend e = false →
     e ∈ rulesOf (GetUniqueRules pols) t ∧
     ∀ e', e' ∈ rulesOf (GetUniqueRules pols) t → Key e' = Key e → e' = e) ∧
  (∀ t e,
     noClash (visitsOf (GPOs pols)) →
     head (contributors (visitsOf (GPOs pols)) t (Key e)) = Some e →
     isAppend e = false →
     e ∈ rulesOf (GetUniqueRules pols) t ∧
     ∀ e', e' ∈ rulesOf (GetUniqueRules pols) t → Key e' = Key e → e' = e).
Proof.
  assert (Hkey : ∀ t e,
            dedupLookup (dedup (dedupGPOs (GPOs pols))) t (Key e) = Some e →
            e ∈ rulesOf (GetUniqueRules pols) t ∧
            ∀ e', e' ∈ rulesOf (GetUniqueRules pols) t → Key e' = Key e → e' = e).
  { intros t e Hl. split; [by apply elem_of_GetUniqueRules|].
    intros e' He' Hk. apply elem_of_GetUniqueRules in He'.
    rewrite Hk, Hl in He'. by injection He'. }
  split_and!.
  - unfold GetUniqueRules. rewrite dedupGPOs_flagOverrides.
    apply collect_mapState, Inv_dedupGPOs.
  - intros pre t e post Hvs Hu Hna. by apply Hkey, (first_override_kept _ pre t e post).
  - intros t e Hcl (pre & post & Hvs & Hc & _ & _)%closest_split Hna.
    apply Hkey, (first_override_kept _ pre t e post); [done| |done].
    apply unseenIn_no_contributor; [|done].
    intros t' e' Hin. apply Hcl.
    + rewrite Hvs. apply elem_of_app. by left.
    + rewrite Hvs. apply elem_of_app. right. by left.
Qed.

(** C10: a disabled Override entry that is the closest, and the only,
    entry of its domain and key is left out of the result when its domain
    and key concatenate as those of an entry met earlier do: [seen] is
    keyed by [t+e.Key], while the comment in the code says that the first
    GPO wins for a given type and key.  The enabled entry is left out in
    the same way. *)
Theorem disabled_override_lost_on_clash :
  let e := disabledEntry (overrideEntry "c" "y" "G2") in
  wfPolicies disabledOverrideClash = true ∧
  isAppend e = false ∧ Disabled e = true ∧
  contributors (visitsOf (GPOs disabledOverrideClash)) "ab" (Key e) = [e] ∧
  GetUniqueRules disabledOverrideClash !! "ab" = Some [] ∧
  rulesOf (GetUniqueRules disabledOverrideClash) "a"
  = [overrideEntry "bc" "x" "G1"] ∧
  GetUniqueRules (flagOverrides false disabledOverrideClash) !! "ab" = Some [].
Proof. vm_compute. split_and!; reflexivity. Qed.

(** ** One call of ApplyPolicies *)

Section Apply.
Context {E : Externals}.

Lemma rulesOf_filterRules_ne r0 t :
  t ≠ "privilege" → rulesOf (filterRules r0) t = rulesOf r0 t.
Proof. intros Hne. unfold rulesOf, filterRules. by rewrite lookup_insert_ne. Qed.

Lemma rulesOf_filterRules r0 : rulesOf (filterRules r0) "privilege" = [].
Proof. unfold rulesOf, filterRules. by rewrite lookup_insert_eq. Qed.

Lemma Interleave_snoc_l {A} (a b c : list A) x :
  Interleave a b c → Interleave (a ++ [x]) b (c ++ [x]).
Proof.
  induction 1 as [|y a b c _ IH|y a b c _ IH]; simpl.
  - apply Interleave_l, Interleave_nil.
  - by apply Interleave_l.
  - by apply Interleave_r.
Qed.

Lemma Interleave_snoc_r {A} (a b c : list A) x :
  Interleave a b c → Interleave a (b ++ [x]) (c ++ [x]).
Proof.
  induction 1 as [|y a b c _ IH|y a b c _ IH]; simpl.
  - apply Interleave_r, Interleave_nil.
  - by apply Interleave_l.
  - by apply Interleave_r.
Qed.

Lemma Interleave_nil_l {A} (b c : list A) : Interleave [] b c → c = b.
Proof.
  remember [] as a eqn:Ha. induction 1 as [|y a b c _ IH|y a b c _ IH];
    [done|done|]. by rewrite IH.
Qed.

Lemma firstError_snoc tr ev :
  firstError (tr ++ [ev])
  = match firstError tr with Some err => Some err | None => firstError [ev] end.
Proof.
  induction tr as [|e tr IH]; [reflexivity|].
  destruct e as [| [?|] | | | | [?|] | | |]; simpl; by rewrite ?IH.
Qed.

Lemma runThread_fatal th s msg : fatal s = Some msg → runThread th s = s.
Proof. intros Hf. destruct th; simpl; by rewrite ?Hf. Qed.

Lemma interleave_fatal sched a b s msg :
  fatal s = Some msg → interleave sched a b s = s.
Proof. intros Hf. destruct sched; simpl; by rewrite Hf. Qed.

Lemma recordErr_fields err s :
  mgr (recordErr err s) = mgr s ∧ rules (recordErr err s) = rules s ∧
  reading (recordErr err s) = reading s ∧ writing (recordErr err s) = writing s ∧
  fatal (recordErr err s) = fatal s ∧ trace (recordErr err s) = trace s ∧
  groupErr (recordErr err s)
  = match groupErr s with Some e => Some e | None => err end.
Proof.
  unfold recordErr. destruct (groupErr s) eqn:Hg; simpl; rewrite ?Hg;
    by split_and!.
Qed.

Ltac record_err :=
  match goal with
  | |- context [recordErr ?err ?s] =>
      let H1 := fresh in let H2 := fresh in let H3 := fresh in
      let H4 := fresh in let H5 := fresh in let H6 := fresh in
      let H7 := fresh in
      destruct (recordErr_fields err s) as (H1 & H2 & H3 & H4 & H5 & H6 & H7);
      rewrite ?H1, ?H2, ?H3, ?H4, ?H5, ?H6, ?H7;
      clear H1 H2 H3 H4 H5 H6 H7
  end.

Section Group.
Context (m : Manager) (o : string) (c : bool) (r0 : gmap string (list Entry)).

Lemma groupInv_start :
  groupInv m o c r0 (dconfRoutine o c) (mainRoutine o c) (startOf m r0).
Proof.
  apply (groupInv_live m o c r0 _ _ _ 0 0); try done; try lia.
  - by destruct (subscriptionStatus m).
  - apply Interleave_nil.
Qed.

(** What the handlers are given does not depend on the stage of the
    caller. *)
Lemma handlers_at_stage j s :
  mgr s = (if bool_decide (j = 0) then m
           else setSubscription m (subscriptionStatus m)) →
  rules s = (if subscriptionStatus m then r0
             else if bool_decide (3 ≤ j)%nat then filterRules r0 else r0) →
  rulesOf (rules s) "dconf" = rulesOf r0 "dconf" ∧
  dconf (mgr s) = dconf m ∧ privilege (mgr s) = privilege m.
Proof.
  intros -> ->. split_and!.
  - destruct (subscriptionStatus m); [done|].
    case_bool_decide; [|done]. by apply rulesOf_filterRules_ne.
  - by case_bool_decide.
  - by case_bool_decide.
Qed.

Lemma groupInv_step_l step next b s :
  groupInv m o c r0 (Act step next) b s → fatal s = None →
  groupInv m o c r0 (next s) b (step s).
Proof.
  intros [msg Hf|i j Hf Ha Hb Hi Hj Hen Hex Hm Hr Hrd Hwr Htr Hg] Hlive;
    [congruence|].
  destruct (handlers_at_stage j s Hm Hr) as (Hrs & Hd & _).
  do 4 (try destruct i as [|i]); try lia; simpl in Ha; [| | |done].
  - (* the read begins *)
    injection Ha as -> ->. unfold mapaccess_begin. rewrite Hwr.
    destruct (bool_decide_reflect (j = 2)) as [->|Hj2].
    + destruct (subscriptionStatus m) eqn:Hs;
        [by destruct (Hen eq_refl)|].
      apply Interleave_nil_l in Htr. unfold mainTrace in Htr.
      rewrite Hs in Htr. simpl in Htr.
      apply (groupInv_fatal _ _ _ _ _ _ _ "concurrent map read and map write");
        simpl; rewrite ?Hs; try done.
      by rewrite Hg, Htr.
    + apply (groupInv_live _ _ _ _ _ _ _ 1 j); simpl; try done; try lia.
      by rewrite Hwr, bool_decide_false.
  - (* the read ends, the handler is called *)
    injection Ha as -> ->.
    apply (groupInv_live _ _ _ _ _ _ _ 2 j); simpl; try done; try lia.
    + by rewrite Hrs, Hd.
    + rewrite Hrs. by apply (Interleave_snoc_l []).
    + by rewrite firstError_snoc, <- Hg; destruct (groupErr s).
  - (* the handler returns *)
    injection Ha as -> ->.
    apply (groupInv_live _ _ _ _ _ _ _ 3 j); simpl; try record_err;
      try done; try lia.
    + by apply (Interleave_snoc_l [_]).
    + rewrite firstError_snoc, <- Hg.
      destruct (groupErr s); [done|]. by destruct (dconf m o c _).
Qed.

Ltac snoc_l H :=
  match goal with
  | |- Interleave _ _ (_ ++ [?x]) => exact (Interleave_snoc_l _ _ _ x H)
  end.

Ltac snoc_r H :=
  match goal with
  | |- Interleave _ _ (_ ++ [?x]) => exact (Interleave_snoc_r _ _ _ x H)
  end.

Lemma groupInv_step_r step next a s :
  groupInv m o c r0 a (Act step next) s → fatal s = None →
  groupInv m o c r0 a (next s) (step s).
Proof.
  intros [msg Hf|i j Hf Ha Hb Hi Hj Hen Hex Hm Hr Hrd Hwr Htr Hg] Hlive;
    [congruence|].
  destruct (handlers_at_stage j s Hm Hr) as (_ & _ & Hp).
  unfold mainTrace, privilegeRules in Htr.
  do 6 (try destruct j as [|j]); try lia; simpl in Hb; [| | | | |done].
  - (* the entitlement check *)
    injection Hb as -> ->. simpl in Hm. rewrite Hm. simpl.
    apply (groupInv_live _ _ _ _ _ _ _ i 1); simpl; try done; try lia.
    + unfold mainTrace. simpl. snoc_r Htr.
    + by rewrite firstError_snoc, <- Hg; destruct (groupErr s).
  - (* after the check: the write of the filter begins, or the handler
       is called *)
    unfold afterCheck in Hb.
    destruct (subscriptionStatus m) eqn:Hs; simpl in Hb; injection Hb as -> ->.
    + apply (groupInv_live _ _ _ _ _ _ _ i 4); simpl; rewrite ?Hs;
        try done; try lia.
      * unfold privilegeRules. by rewrite Hs, Hp, Hr.
      * unfold mainTrace, privilegeRules. rewrite Hs, Hr. simpl. snoc_r Htr.
      * by rewrite firstError_snoc, <- Hg; destruct (groupErr s).
    + unfold mapassign_begin. rewrite Hrd.
      destruct (bool_decide_reflect (i = 1)) as [->|Hi1].
      * simpl in Htr. apply Interleave_nil_l in Htr.
        apply (groupInv_fatal _ _ _ _ _ _ _ "concurrent map read and map write");
          simpl; rewrite ?Hs; try done.
        by rewrite Hg, Htr.
      * apply (groupInv_live _ _ _ _ _ _ _ i 2); simpl; rewrite ?Hs;
          try done; try lia.
        by rewrite Hrd, bool_decide_false.
  - (* the write of the filter ends *)
    injection Hb as -> ->.
    destruct (subscriptionStatus m) eqn:Hs; [by destruct (Hen eq_refl) as [? _]|].
    rewrite bool_decide_false in Hr by lia.
    apply (groupInv_live _ _ _ _ _ _ _ i 3); simpl; rewrite ?Hs;
      try done; try lia.
    + by rewrite Hr.
    + snoc_r Htr.
    + by rewrite firstError_snoc, <- Hg; destruct (groupErr s).
  - (* the privilege handler is called *)
    injection Hb as -> ->.
    destruct (subscriptionStatus m) eqn:Hs; [by destruct (Hen eq_refl) as [_ ?]|].
    rewrite bool_decide_true in Hr by lia.
    apply (groupInv_live _ _ _ _ _ _ _ i 4); simpl; rewrite ?Hs;
      try done; try lia.
    + unfold privilegeRules. by rewrite Hs, Hp, Hr, rulesOf_filterRules.
    + unfold mainTrace, privilegeRules. rewrite Hs, Hr, rulesOf_filterRules.
      simpl. snoc_r Htr.
    + by rewrite firstError_snoc, <- Hg; destruct (groupErr s).
  - (* the privilege handler returns *)
    injection Hb as -> ->.
    apply (groupInv_live _ _ _ _ _ _ _ i 5); simpl; try record_err;
      try done; try lia.
    + unfold mainTrace, privilegeRules in *.
      destruct (subscriptionStatus m); simpl in *; snoc_r Htr.
    + rewrite firstError_snoc, <- Hg.
      destruct (groupErr s); [done|]. by destruct (privilege m o c _).
Qed.

Lemma groupInv_runThread_l a : ∀ b s,
  groupInv m o c r0 a b s →
  ∃ a', groupInv m o c r0 a' b (runThread a s) ∧
        (fatal (runThread a s) = None → a' = Halt).
Proof.
  induction a as [|step next IH]; intros b s HI; simpl.
  - by exists Halt.
  - destruct (fatal s) eqn:Hf.
    + exists (Act step next). split; [done|]. by rewrite Hf.
    + apply IH. by apply groupInv_step_l.
Qed.

Lemma groupInv_runThread_r b : ∀ a s,
  groupInv m o c r0 a b s →
  ∃ b', groupInv m o c r0 a b' (runThread b s) ∧
        (fatal (runThread b s) = None → b' = Halt).
Proof.
  induction b as [|step next IH]; intros a s HI; simpl.
  - by exists Halt.
  - destruct (fatal s) eqn:Hf.
    + exists (Act step next). split; [done|]. by rewrite Hf.
    + apply IH. by apply groupInv_step_r.
Qed.

Lemma runThread_keeps_fatal th : ∀ s,
  fatal (runThread th s) = None → fatal s = None.
Proof.
  induction th as [|step next IH]; intros s; simpl; [done|].
  destruct (fatal s) eqn:Hf; [|done]. intros H. by rewrite Hf in H.
Qed.

(** The invariant holds when the run is over, and then both threads have
    come to their end unless the runtime has ended the process. *)
Lemma groupInv_interleave sched : ∀ a b s,
  groupInv m o c r0 a b s →
  ∃ a' b', groupInv m o c r0 a' b' (interleave sched a b s) ∧
           (fatal (interleave sched a b s) = None → a' = Halt ∧ b' = Halt).
Proof.
  induction sched as [|pick sched IH]; intros a b s HI; simpl;
    destruct (fatal s) eqn:Hf.
  - exists a, b. split; [done|]. by rewrite Hf.
  - destruct (groupInv_runThread_l a b s HI) as (a' & HI1 & Ha).
    destruct (groupInv_runThread_r b a' _ HI1) as (b' & HI2 & Hb).
    exists a', b'. split; [done|]. intros Hlive. split; [|by apply Hb].
    by apply Ha, (runThread_keeps_fatal b).
  - exists a, b. split; [done|]. by rewrite Hf.
  - destruct pick.
    + destruct a as [|step next].
      * destruct (groupInv_runThread_r b Halt s HI) as (b' & HI2 & Hb).
        exists Halt, b'. split; [done|]. intros Hlive. split; [done|by apply Hb].
      * apply IH. by apply groupInv_step_l.
    + destruct b as [|step next].
      * destruct (groupInv_runThread_l a Halt s HI) as (a' & HI2 & Ha).
        exists a', Halt. split; [done|]. intros Hlive. split; [by apply Ha|done].
      * apply IH. by apply groupInv_step_r.
Qed.

End Group.

(** Every run of the group, whatever the schedule: the entitlement status
    is stored; a run that the runtime ends has taken the check and called
    no handler, and there is none when the machine is entitled; any other
    run has let both functions of the group run to their end. *)
Lemma group_run sched m objectName isComputer r0 :
  let s := interleave sched (dconfRoutine objectName isComputer)
             (mainRoutine objectName isComputer) (startOf m r0) in
  mgr s = setSubscription m (subscriptionStatus m) ∧
  match fatal s with
  | Some msg =>
      subscriptionStatus m = false ∧
      trace s = [SubscriptionChecked false] ∧ groupErr s = None
  | None =>
      rules s = (if subscriptionStatus m then r0 else filterRules r0) ∧
      Interleave (dconfTrace m objectName isComputer r0)
                 (mainTrace m objectName isComputer r0) (trace s) ∧
      groupErr s = firstError (trace s)
  end.
Proof.
  intros s.
  destruct (groupInv_interleave m objectName isComputer r0 sched _ _ _
              (groupInv_start m objectName isComputer r0))
    as (a & b & HI & Hend).
  fold s in HI, Hend.
  destruct HI as [msg Hf ? ? ? ?|i j Hf Ha Hb Hi Hj Hen Hex Hm Hr Hrd Hwr Htr Hg].
  { by rewrite Hf. }
  rewrite Hf. destruct (Hend Hf) as [-> ->].
  assert (i = 3) as ->.
  { do 4 (try destruct i as [|i]); try lia; done. }
  assert (j = 5) as ->.
  { do 6 (try destruct j as [|j]); try lia; try done.
    simpl in Hb. unfold afterCheck in Hb. by destruct (subscriptionStatus m). }
  split_and!; [done| | |done].
  - rewrite Hr. by destruct (subscriptionStatus m).
  - unfold mainTrace in *. by destruct (subscriptionStatus m).
Qed.

(** A schedule that lets the goroutine of the first [g.Go] run first has
    no read of the map during a write. *)
Lemma group_run_returns m o c pols : fatal (atWait [] m o c pols) = None.
Proof.
  unfold atWait. simpl. unfold afterCheck.
  destruct (subscriptionStatus m); simpl; unfold recordErr; simpl;
    by repeat (destruct (dconf _ _ _ _) || destruct (privilege _ _ _ _) || simpl).
Qed.

Lemma Interleave_elem_of {A} (a b c : list A) x :
  Interleave a b c → (x ∈ c ↔ x ∈ a ∨ x ∈ b).
Proof.
  induction 1 as [|y a b c _ IH|y a b c _ IH].
  - rewrite elem_of_nil. tauto.
  - rewrite !elem_of_cons, IH. tauto.
  - rewrite !elem_of_cons, IH. tauto.
Qed.

Lemma Interleave_sublist_l {A} (a b c : list A) : Interleave a b c → sublist a c.
Proof. induction 1; by constructor. Qed.

Lemma Interleave_sublist_r {A} (a b c : list A) : Interleave a b c → sublist b c.
Proof. induction 1; by constructor. Qed.

Lemma firstError_None tr err :
  firstError tr = None →
  (DconfReturned (Some err) ∉ tr) ∧ (PrivilegeReturned (Some err) ∉ tr).
Proof.
  induction tr as [|ev tr IH]; intros Hf.
  { split; apply not_elem_of_nil. }
  rewrite !not_elem_of_cons.
  destruct ev as [| [?|] | | | | [?|] | | |]; simpl in Hf; try done;
    destruct (IH Hf); by split_and!.
Qed.

Lemma firstError_Some tr err :
  firstError tr = Some err →
  DconfReturned (Some err) ∈ tr ∨ PrivilegeReturned (Some err) ∈ tr.
Proof.
  induction tr as [|ev tr IH]; intros Hf; [done|].
  rewrite !elem_of_cons.
  destruct ev as [| [?|] | | | | [?|] | | |]; simpl in Hf;
    try (destruct (IH Hf); by auto).
  - injection Hf as ->. auto.
  - injection Hf as ->. auto.
Qed.

(** A run of the group that the runtime has not ended. *)
Lemma group_live sched m o c pols :
  fatal (atWait sched m o c pols) = None →
  mgr (atWait sched m o c pols) = setSubscription m (subscriptionStatus m) ∧
  rules (atWait sched m o c pols)
  = (if subscriptionStatus m then GetUniqueRules pols
     else filterRules (GetUniqueRules pols)) ∧
  Interleave (dconfTrace m o c (GetUniqueRules pols))
             (mainTrace m o c (GetUniqueRules pols))
             (trace (atWait sched m o c pols)) ∧
  groupErr (atWait sched m o c pols) = firstError (trace (atWait sched m o c pols)).
Proof.
  intros Hf. destruct (group_run sched m o c (GetUniqueRules pols)) as [Hm Hrun].
  fold (atWait sched m o c pols) in Hm, Hrun. by rewrite Hf in Hrun.
Qed.

(** A run of the group that the runtime has ended. *)
Lemma group_fatal sched m o c pols msg :
  fatal (atWait sched m o c pols) = Some msg →
  mgr (atWait sched m o c pols) = setSubscription m (subscriptionStatus m) ∧
  subscriptionStatus m = false ∧
  trace (atWait sched m o c pols) = [SubscriptionChecked false] ∧
  groupErr (atWait sched m o c pols) = None.
Proof.
  intros Hf. destruct (group_run sched m o c (GetUniqueRules pols)) as [Hm Hrun].
  fold (atWait sched m o c pols) in Hm, Hrun. by rewrite Hf in Hrun.
Qed.

Lemma group_mgr sched m o c pols :
  mgr (atWait sched m o c pols) = setSubscription m (subscriptionStatus m).
Proof. by destruct (group_run sched m o c (GetUniqueRules pols)) as [Hm _]. Qed.

Lemma group_entitled_live sched m o c pols :
  subscriptionStatus m = true → fatal (atWait sched m o c pols) = None.
Proof.
  intros Hs. destruct (fatal _) as [msg|] eqn:Hf; [|done].
  destruct (group_fatal _ _ _ _ _ _ Hf) as (_ & Hs' & _). congruence.
Qed.

Lemma group_trace_elem_of sched m o c pols ev :
  fatal (atWait sched m o c pols) = None →
  ev ∈ trace (atWait sched m o c pols) ↔
  ev ∈ dconfTrace m o c (GetUniqueRules pols) ∨
  ev ∈ mainTrace m o c (GetUniqueRules pols).
Proof.
  intros Hf. destruct (group_live sched m o c pols Hf) as (_ & _ & Hi & _).
  by apply Interleave_elem_of.
Qed.

(** Whatever the run, an event of the group is one of the handlers' or of
    the caller's. *)
Lemma group_trace_elem_of_1 sched m o c pols ev :
  ev ∈ trace (atWait sched m o c pols) →
  ev ∈ dconfTrace m o c (GetUniqueRules pols) ∨
  ev ∈ mainTrace m o c (GetUniqueRules pols).
Proof.
  destruct (fatal (atWait sched m o c pols)) as [msg|] eqn:Hf.
  - destruct (group_fatal _ _ _ _ _ _ Hf) as (_ & Hs & -> & _).
    intros ->%list_elem_of_singleton. right. unfold mainTrace. rewrite Hs. by left.
  - by intros ?%group_trace_elem_of.
Qed.

Lemma group_trace_no_gdm sched m o c pols :
  (∀ rs, GdmCalled rs ∉ trace (atWait sched m o c pols)) ∧
  (∀ err, GdmReturned err ∉ trace (atWait sched m o c pols)) ∧
  (∀ p err, PoliciesSaved p err ∉ trace (atWait sched m o c pols)).
Proof.
  split_and!; intros * Hin; apply group_trace_elem_of_1 in Hin;
    unfold dconfTrace, mainTrace in Hin;
    destruct (subscriptionStatus m); simpl in Hin;
    rewrite ?elem_of_cons, ?elem_of_nil in Hin; intuition discriminate.
Qed.

Lemma ApplyPolicies_ending sched m fs o c pols :
  ending sched m fs o c pols (ApplyPolicies sched m fs o c pols).
Proof.
  unfold ApplyPolicies. cbv zeta.
  pose proof (group_mgr sched m o c pols) as Hm.
  destruct (fatal (atWait sched m o c pols)) as [msg|] eqn:Hf.
  { by apply ending_fatal. }
  destruct (groupErr (atWait sched m o c pols)) as [err|] eqn:Hg.
  { by apply ending_group. }
  assert (Hdir : policiesCacheDir (mgr (atWait sched m o c pols)) = policiesCacheDir m).
  { by rewrite Hm. }
  assert (Hgdm : gdm (mgr (atWait sched m o c pols)) = gdm m).
  { by rewrite Hm. }
  rewrite Hdir, Hgdm.
  destruct c.
  - destruct (gdm m _) as [err|] eqn:Hr.
    + by eapply ending_gdm.
    + destruct (Save pols fs _) as [fs' err] eqn:Hs.
      by eapply ending_save.
  - destruct (Save pols fs _) as [fs' err] eqn:Hs.
    by eapply (ending_save _ _ _ _ _ _ []).
Qed.

Lemma group_ok sched m o c pols :
  fatal (atWait sched m o c pols) = None →
  groupErr (atWait sched m o c pols) = None →
  dconf m o c (rulesOf (GetUniqueRules pols) "dconf") = None ∧
  privilege m o c (privilegeRules m (GetUniqueRules pols)) = None ∧
  ∀ err, (DconfReturned (Some err) ∉ trace (atWait sched m o c pols)) ∧
         (PrivilegeReturned (Some err) ∉ trace (atWait sched m o c pols)).
Proof.
  intros Hlive Hg.
  destruct (group_live sched m o c pols Hlive) as (_ & _ & _ & Hf).
  rewrite Hg in Hf. symmetry in Hf.
  split_and!; [| |by intros err; apply firstError_None].
  - destruct (dconf m o c _) as [err|] eqn:Hd; [|done].
    destruct (firstError_None _ err Hf) as [Hn _]. destruct Hn.
    apply group_trace_elem_of; [done|]. left. unfold dconfTrace. rewrite Hd.
    apply elem_of_cons. right. apply elem_of_cons. by left.
  - destruct (privilege m o c _) as [err|] eqn:Hp; [|done].
    destruct (firstError_None _ err Hf) as [_ Hn]. destruct Hn.
    apply group_trace_elem_of; [done|]. right. unfold mainTrace. rewrite Hp.
    apply elem_of_cons. right. apply elem_of_app. right.
    apply elem_of_cons. right. apply elem_of_cons. by left.
Qed.

Lemma group_failed sched m o c pols err :
  groupErr (atWait sched m o c pols) = Some err →
  DconfReturned (Some err) ∈ trace (atWait sched m o c pols) ∨
  PrivilegeReturned (Some err) ∈ trace (atWait sched m o c pols).
Proof.
  intros Hg. destruct (fatal (atWait sched m o c pols)) as [msg|] eqn:Hf.
  - destruct (group_fatal _ _ _ _ _ _ Hf) as (_ & _ & _ & Hn). congruence.
  - destruct (group_live sched m o c pols Hf) as (_ & _ & _ & Hfe).
    rewrite Hg in Hfe. by apply firstError_Some.
Qed.

Lemma group_rules_gdm sched m o c pols :
  fatal (atWait sched m o c pols) = None →
  rulesOf (rules (atWait sched m o c pols)) "gdm" =
  rulesOf (GetUniqueRules pols) "gdm".
Proof.
  intros Hf. destruct (group_live sched m o c pols Hf) as (_ & -> & _ & _).
  destruct (subscriptionStatus m); [done|]. by apply rulesOf_filterRules_ne.
Qed.

Lemma dconf_then (tr : list Event) (o : string) (c : bool) (dr : list Entry)
    (ev : Event) (rest : list Event) :
  sublist [DconfCalled o c dr; DconfReturned None] tr →
  sublist [DconfCalled o c dr; DconfReturned None; ev] (tr ++ ev :: rest).
Proof.
  intros Hs.
  change [DconfCalled o c dr; DconfReturned None; ev]
    with ([DconfCalled o c dr; DconfReturned None] ++ [ev]).
  apply sublist_app; [done|]. apply sublist_skip, sublist_nil_l.
Qed.

(** ** The claims about ApplyPolicies *)

(** C6: in every call, whatever the order in which the goroutines run, a
    call of the login-manager handler means that the call is for a
    computer, that the desktop-configuration handler was called and has
    returned without error before it, and that no return of that handler
    with an error is in the trace; so when that handler fails the
    login-manager handler is not called. *)
Theorem gdm_only_after_dconf_success sched m fs o c pols rs :
  GdmCalled rs ∈ outTrace (ApplyPolicies sched m fs o c pols) →
  c = true ∧
  sublist [DconfCalled o c (rulesOf (GetUniqueRules pols) "dconf");
           DconfReturned None; GdmCalled rs]
          (outTrace (ApplyPolicies sched m fs o c pols)) ∧
  ∀ err, DconfReturned (Some err) ∉ outTrace (ApplyPolicies sched m fs o c pols).
Proof.
  intros Hin.
  destruct (group_trace_no_gdm sched m o c pols) as (Hng & _ & _).
  assert (Hsub : fatal (atWait sched m o c pols) = None →
                 groupErr (atWait sched m o c pols) = None →
                 sublist [DconfCalled o c (rulesOf (GetUniqueRules pols) "dconf");
                          DconfReturned None] (trace (atWait sched m o c pols))).
  { intros Hf Hg. destruct (group_ok _ _ _ _ _ Hf Hg) as (Hd & _ & _).
    destruct (group_live sched m o c pols Hf) as (_ & _ & Hi & _).
    apply Interleave_sublist_l in Hi. unfold dconfTrace in Hi. by rewrite Hd in Hi. }
  destruct (ApplyPolicies_ending sched m fs o c pols)
    as [msg Hf|err Hf Hg|err rs' Hf Hg Hc Hrs Hgdm|gdmTrace fs' err Hf Hg Hgdm Hgt Hs];
    simpl in *.
  - by apply Hng in Hin.
  - by apply Hng in Hin.
  - apply elem_of_app in Hin as [Hin|Hin]; [by apply Hng in Hin|].
    apply elem_of_cons in Hin as [[= ->]|Hin];
      [|by apply elem_of_cons in Hin as [?|?%elem_of_nil]].
    split_and!; [done|by apply dconf_then, Hsub|].
    intros e. destruct (group_ok _ _ _ _ _ Hf Hg) as (_ & _ & Hno).
    rewrite elem_of_app, !elem_of_cons, elem_of_nil.
    destruct (Hno e). intuition discriminate.
  - destruct c; subst gdmTrace; simpl in Hin.
    + apply elem_of_app in Hin as [Hin|Hin]; [by apply Hng in Hin|].
      apply elem_of_cons in Hin as [[= ->]|Hin].
      2:{ rewrite !elem_of_cons, elem_of_nil in Hin. intuition discriminate. }
      split_and!; [done|by apply dconf_then, Hsub|].
      intros e. destruct (group_ok _ _ _ _ _ Hf Hg) as (_ & _ & Hno).
      simpl. rewrite elem_of_app, !elem_of_cons, elem_of_nil.
      destruct (Hno e). intuition discriminate.
    + apply elem_of_app in Hin as [Hin|Hin]; [by apply Hng in Hin|].
      rewrite elem_of_cons, elem_of_nil in Hin. intuition discriminate.
Qed.

Lemma ApplyPolicies_trace sched m fs o c pols :
  ∃ rest, outTrace (ApplyPolicies sched m fs o c pols)
          = trace (atWait sched m o c pols) ++ rest ∧
          Forall afterWait rest.
Proof.
  destruct (ApplyPolicies_ending sched m fs o c pols)
    as [msg Hf|err Hf Hg|err rs' Hf Hg Hc Hrs Hgdm|gdmTrace fs' err Hf Hg Hgdm Hgt Hs];
    simpl.
  - exists []. by rewrite app_nil_r.
  - exists []. by rewrite app_nil_r.
  - eexists. split; [done|]. by repeat constructor.
  - eexists. split; [done|]. subst gdmTrace. destruct c; by repeat constructor.
Qed.

(** [Save] succeeds exactly when the policy set can be encoded and the
    file can be opened and written in full; the file then holds the
    encoding. *)
Lemma Save_ok_iff pols fs p fs' :
  Save pols fs p = (fs', None) ↔
  ∃ d, yaml_Marshal (GPOs pols) = inl d ∧ (p ∉ readOnly fs) ∧
       shortWrite fs p d = None ∧ fs' = setFile p d fs.
Proof.
  unfold Save, os_WriteFile.
  destruct (yaml_Marshal (GPOs pols)) as [d|err] eqn:Hm.
  - destruct (decide (p ∈ readOnly fs)) as [Hro|Hro]; simpl.
    + split; [done|]. by intros (d' & _ & ? & _).
    + destruct (shortWrite fs p d) as [rest|] eqn:Hsw; simpl.
      * split; [done|]. intros (d' & [= <-] & _ & ? & _). congruence.
      * split; [intros [= <-]; by exists d|].
        by intros (d' & [= <-] & _ & _ & ->).
  - split; [done|]. by intros (d' & ? & _).
Qed.

Lemma Save_err_iff pols fs p fs' err :
  Save pols fs p = (fs', err) →
  err = None ↔
  ∃ d, yaml_Marshal (GPOs pols) = inl d ∧ (p ∉ readOnly fs) ∧
       shortWrite fs p d = None.
Proof.
  intros Hs. split.
  - intros ->. apply Save_ok_iff in Hs as (d & ? & ? & ? & _). by exists d.
  - intros (d & Hm & Hro & Hsw).
    assert (Hok : Save pols fs p = (setFile p d fs, None)).
    { apply Save_ok_iff. by exists d. }
    rewrite Hs in Hok. by injection Hok.
Qed.

Lemma Save_ok (L : LawfulYAML E) pols fs p fs' :
  Save pols fs p = (fs', None) →
  NewFromCache fs' p = inl {| GPOs := GPOs pols; Data := None |}.
Proof.
  intros (d & Hm & _ & _ & ->)%Save_ok_iff.
  unfold NewFromCache, os_ReadFile, setFile. simpl.
  rewrite lookup_insert_eq. by rewrite (yaml_roundtrip _ _ Hm).
Qed.

Lemma group_ok_iff sched m o c pols :
  fatal (atWait sched m o c pols) = None →
  groupErr (atWait sched m o c pols) = None ↔
  dconf m o c (rulesOf (GetUniqueRules pols) "dconf") = None ∧
  privilege m o c (privilegeRules m (GetUniqueRules pols)) = None.
Proof.
  intros Hf. split.
  - intros Hg. destruct (group_ok _ _ _ _ _ Hf Hg) as (? & ? & _). by split.
  - intros [Hd Hp].
    destruct (group_live sched m o c pols Hf) as (_ & _ & Hi & ->).
    destruct (firstError _) as [err|] eqn:Hfe; [|done].
    apply firstError_Some in Hfe.
    rewrite !(Interleave_elem_of _ _ _ _ Hi) in Hfe.
    unfold dconfTrace, mainTrace in Hfe. rewrite Hd, Hp in Hfe.
    destruct (subscriptionStatus m); simpl in Hfe;
      rewrite !elem_of_cons, !elem_of_nil in Hfe; intuition discriminate.
Qed.

(** The handlers that a call runs, each on the rules it is given, return
    no error. *)
Lemma backends_ok sched m o c pols :
  fatal (atWait sched m o c pols) = None →
  (groupErr (atWait sched m o c pols) = None ∧
   (c = true → gdm m (rulesOf (rules (atWait sched m o c pols)) "gdm") = None))
  ↔ backendsSucceed m o c pols.
Proof.
  intros Hf. unfold backendsSucceed.
  rewrite (group_rules_gdm _ _ _ _ _ Hf), (group_ok_iff _ _ _ _ _ Hf). tauto.
Qed.

(** C7: the write of the cache is attempted exactly in the calls that
    return in which every handler has succeeded; the call returns no
    error exactly when, besides, the policy set can be encoded and the
    file can be written, and exactly then a write without error is in
    the trace.  With a codec that decodes what it encodes, the cache file
    then reads as the GPO list of the input, without the auxiliary data.
    A call in which a handler fails returns an error and leaves the files
    as they were. *)
Theorem cache_written_iff_backends_succeed (L : LawfulYAML E)
    sched m fs o c pols :
  let out := ApplyPolicies sched m fs o c pols in
  let path := filepath_Join (policiesCacheDir m) o in
  ((∃ err, PoliciesSaved path err ∈ outTrace out) ↔
   outFatal out = None ∧ backendsSucceed m o c pols) ∧
  (outFatal out = None ∧ outErr out = None ↔
   outFatal out = None ∧ backendsSucceed m o c pols ∧
   ∃ d, yaml_Marshal (GPOs pols) = inl d ∧ (path ∉ readOnly fs) ∧
        shortWrite fs path d = None) ∧
  (outFatal out = None ∧ outErr out = None ↔
   PoliciesSaved path None ∈ outTrace out) ∧
  (outFatal out = None → outErr out = None →
   NewFromCache (outFiles out) path = inl {| GPOs := GPOs pols; Data := None |}) ∧
  (backendFailed (outTrace out) → outErr out ≠ None ∧ outFiles out = fs).
Proof.
  cbv zeta.
  destruct (group_trace_no_gdm sched m o c pols) as (Hng & Hnr & Hns).
  destruct (ApplyPolicies_ending sched m fs o c pols)
    as [msg Hf|err Hf Hg|err rs' Hf Hg Hc Hrs Hgdm|gdmTrace fs' err Hf Hg Hgdm Hgt Hs];
    simpl.
  - destruct (group_fatal _ _ _ _ _ _ Hf) as (_ & _ & Htr & _).
    split_and!.
    + split; [|by intros [? _]]. intros [e He]. by apply Hns in He.
    + split; by intros [? _].
    + split; [by intros [? _]|]. intros He. by apply Hns in He.
    + done.
    + rewrite Htr. intros [e He].
      rewrite !list_elem_of_singleton in He. intuition discriminate.
  - assert (Hno : ¬ backendsSucceed m o c pols).
    { intros Hb. apply (backends_ok _ _ _ _ _ Hf) in Hb as [Hb _]. congruence. }
    split_and!.
    + split; [|by intros [_ ?]]. intros [e He]. by apply Hns in He.
    + split; [by intros [_ ?]|by intros (_ & ? & _)].
    + split; [by intros [_ ?]|]. intros He. by apply Hns in He.
    + done.
    + done.
  - assert (Hno : ¬ backendsSucceed m o c pols).
    { intros Hb. apply (backends_ok _ _ _ _ _ Hf) in Hb as [_ Hb].
      specialize (Hb Hc). rewrite <- Hrs in Hb. congruence. }
    assert (Hnone : ∀ e, PoliciesSaved (filepath_Join (policiesCacheDir m) o) e
                         ∉ trace (atWait sched m o c pols)
                           ++ [GdmCalled rs'; GdmReturned (Some err)]).
    { intros e. rewrite elem_of_app, !elem_of_cons, elem_of_nil.
      pose proof (Hns (filepath_Join (policiesCacheDir m) o) e).
      intuition discriminate. }
    split_and!.
    + split; [|by intros [_ ?]]. intros [e He]. by apply Hnone in He.
    + split; [by intros [_ ?]|by intros (_ & ? & _)].
    + split; [by intros [_ ?]|]. intros He. by apply Hnone in He.
    + done.
    + done.
  - assert (Hyes : backendsSucceed m o c pols).
    { by apply (backends_ok _ _ _ _ _ Hf). }
    assert (Hnf : ¬ backendFailed
              (trace (atWait sched m o c pols) ++ gdmTrace
               ++ [PoliciesSaved (filepath_Join (policiesCacheDir m) o) err])).
    { destruct (group_ok _ _ _ _ _ Hf Hg) as (_ & _ & Hno).
      intros [e He]. destruct (Hno e) as [Hd Hp]. pose proof (Hnr (Some e)) as Hr.
      rewrite !elem_of_app in He. subst gdmTrace.
      destruct c; rewrite ?elem_of_cons, ?elem_of_nil in He;
        intuition discriminate. }
    assert (Hlast : ∀ e, PoliciesSaved (filepath_Join (policiesCacheDir m) o) e
                   ∈ trace (atWait sched m o c pols) ++ gdmTrace
                     ++ [PoliciesSaved (filepath_Join (policiesCacheDir m) o) err]
                   ↔ e = err).
    { intros e. pose proof (Hns (filepath_Join (policiesCacheDir m) o) e) as Hn.
      rewrite !elem_of_app. subst gdmTrace.
      destruct c; rewrite ?elem_of_cons, ?elem_of_nil; split;
        try (intros ->; by auto 6);
        intros H; intuition (try discriminate); by simplify_eq. }
    assert (Herr : decorate_OnError "failed to apply policy to %q" o err = None
                   ↔ err = None).
    { by destruct err. }
    split_and!.
    + split; [done|]. intros _. exists err. by apply Hlast.
    + rewrite Herr, (Save_err_iff _ _ _ _ _ Hs). tauto.
    + rewrite Herr, Hlast. split; [by intros [_ ->]|by intros <-].
    + rewrite Herr. intros _ ->. by apply (Save_ok L pols fs).
    + done.
Qed.

(** C8: the entitlement check answers true exactly when the status
    property was read, holds a string, and that string is ["enabled"]; the
    answer is what [GetStatus] then reports; and every error a call of
    [ApplyPolicies] returns wraps an error of a handler or of the write of
    the cache, never one of the check. *)
Theorem entitlement_fail_closed m :
  ((getSubcriptionState m).2 = true ↔
   subcriptionDbus m (SubcriptionDbusInterface +:+ ".Status")
   = inl (StringVariant "enabled")) ∧
  GetStatus (getSubcriptionState m).1 = (getSubcriptionState m).2 ∧
  ∀ sched fs o c pols e,
    outErr (ApplyPolicies sched m fs o c pols) = Some e →
    ∃ cause,
      e = Decorated "failed to apply policy to %q" o cause ∧
      (DconfReturned (Some cause) ∈ outTrace (ApplyPolicies sched m fs o c pols) ∨
       PrivilegeReturned (Some cause) ∈ outTrace (ApplyPolicies sched m fs o c pols) ∨
       GdmReturned (Some cause) ∈ outTrace (ApplyPolicies sched m fs o c pols) ∨
       ∃ p, PoliciesSaved p (Some cause)
            ∈ outTrace (ApplyPolicies sched m fs o c pols)).
Proof.
  split_and!.
  - unfold getSubcriptionState, subscriptionStatus. simpl.
    destruct (subcriptionDbus m _) as [[s|sg]|err]; [|by split..].
    destruct (String.eqb_spec s "enabled") as [->|Hne]; simpl; [done|].
    split; [done|]. by intros [= ->].
  - done.
  - intros sched fs o c pols e.
    destruct (ApplyPolicies_ending sched m fs o c pols)
      as [msg Hf|err Hf Hg|err rs' Hf Hg Hc Hrs Hgdm
          |gdmTrace fs' err Hf Hg Hgdm Hgt Hs]; simpl.
    + done.
    + intros [= <-]. exists err. split; [done|].
      destruct (group_failed _ _ _ _ _ _ Hg); auto.
    + intros [= <-]. exists err. split; [done|].
      right; right; left. apply elem_of_app. right.
      apply elem_of_cons. right. apply elem_of_cons. by left.
    + destruct err as [err|]; [|done]. simpl. intros [= <-]. exists err.
      split; [done|]. right; right; right. eexists.
      rewrite !elem_of_app. right; right. apply elem_of_cons. by left.
Qed.

(** C9: when the entitlement check answers false, every call of the
    privilege handler is given the empty list and comes after the filter,
    which comes after the check; the handler is called in every run that
    the runtime does not end.  When the check answers true, no run is
    ended, the filter does not run and the handler is given the merged
    rules of the privilege domain. *)
Theorem privilege_rules_filtered_before_dispatch sched m fs o c pols :
  let out := ApplyPolicies sched m fs o c pols in
  let tr := outTrace out in
  ((getSubcriptionState m).2 = false →
   (∀ o' c' rs,
      PrivilegeCalled o' c' rs ∈ tr →
      rs = [] ∧
      sublist [SubscriptionChecked false; RulesFiltered; PrivilegeCalled o c []] tr) ∧
   (outFatal out = None → PrivilegeCalled o c [] ∈ tr)) ∧
  ((getSubcriptionState m).2 = true →
   outFatal out = None ∧
   sublist [SubscriptionChecked true;
            PrivilegeCalled o c (rulesOf (GetUniqueRules pols) "privilege")] tr ∧
   (RulesFiltered ∉ tr) ∧
   ∀ o' c' rs, PrivilegeCalled o' c' rs ∈ tr →
               rs = rulesOf (GetUniqueRules pols) "privilege").
Proof.
  cbv zeta. unfold getSubcriptionState. simpl.
  assert (Hfatal : outFatal (ApplyPolicies sched m fs o c pols)
                   = fatal (atWait sched m o c pols)).
  { by destruct (ApplyPolicies_ending sched m fs o c pols). }
  rewrite Hfatal.
  destruct (ApplyPolicies_trace sched m fs o c pols) as (rest & -> & Hrest).
  assert (Hin : ∀ ev, ev ∈ trace (atWait sched m o c pols) ++ rest →
                      ev ∈ dconfTrace m o c (GetUniqueRules pols) ∨
                      ev ∈ mainTrace m o c (GetUniqueRules pols) ∨
                      afterWait ev).
  { intros ev [Hev|Hev]%elem_of_app.
    - apply group_trace_elem_of_1 in Hev. tauto.
    - right; right. by eapply Forall_forall in Hrest. }
  assert (Hsub : fatal (atWait sched m o c pols) = None →
                 sublist (mainTrace m o c (GetUniqueRules pols))
                         (trace (atWait sched m o c pols) ++ rest)).
  { intros Hf. destruct (group_live sched m o c pols Hf) as (_ & _ & Hi & _).
    apply sublist_inserts_r. by apply Interleave_sublist_r in Hi. }
  unfold dconfTrace, mainTrace, privilegeRules in *.
  split; intros Hb; rewrite Hb in *; simpl in *.
  - assert (Hcalled : ∀ o' c' rs,
              PrivilegeCalled o' c' rs ∈ trace (atWait sched m o c pols) ++ rest →
              rs = [] ∧ fatal (atWait sched m o c pols) = None).
    { intros o' c' rs Hev. split.
      - apply Hin in Hev. rewrite !elem_of_cons, !elem_of_nil in Hev.
        destruct Hev as [Hev|[Hev|Hev]]; [| |done];
          repeat destruct Hev as [Hev|Hev]; try done; by injection Hev.
      - destruct (fatal (atWait sched m o c pols)) as [msg|] eqn:Hf; [|done].
        destruct (group_fatal _ _ _ _ _ _ Hf) as (_ & _ & Htr & _).
        rewrite Htr in Hev. apply elem_of_app in Hev as [Hev|Hev].
        + by apply list_elem_of_singleton in Hev.
        + rewrite Forall_forall in Hrest. by apply Hrest in Hev. }
    split.
    + intros o' c' rs Hev. destruct (Hcalled _ _ _ Hev) as [-> Hf].
      split; [done|]. etrans; [|exact (Hsub Hf)].
      do 3 apply sublist_skip. apply sublist_nil_l.
    + intros Hf. eapply elem_of_sublist; [|exact (Hsub Hf)].
      apply elem_of_cons. right. apply elem_of_cons. right. by left.
  - assert (Hf : fatal (atWait sched m o c pols) = None)
      by (by apply group_entitled_live).
    split_and!; [done| | |].
    + etrans; [|exact (Hsub Hf)].
      do 2 apply sublist_skip. apply sublist_nil_l.
    + intros Hev. apply Hin in Hev.
      rewrite !elem_of_cons, !elem_of_nil in Hev.
      destruct Hev as [Hev|[Hev|Hev]]; [| |done];
        repeat destruct Hev as [Hev|Hev]; done.
    + intros o' c' rs Hev. apply Hin in Hev.
      rewrite !elem_of_cons, !elem_of_nil in Hev.
      destruct Hev as [Hev|[Hev|Hev]]; [| |done];
        repeat destruct Hev as [Hev|Hev]; try done; by injection Hev.
Qed.
End Apply.

(** ** The sample call *)

Lemma sampleExternals_lawful : LawfulYAML sampleExternals.
Proof. intros gpos d [= <-]. reflexivity. Qed.

Lemma gdm_only_after_dconf_success_witness :
  GdmCalled []
    ∈ outTrace (@ApplyPolicies sampleExternals [] (sampleManager "enabled")
                  emptyFiles "host" true appendChain) ∧
  (true = true ∧
   sublist [DconfCalled "host" true (rulesOf (GetUniqueRules appendChain) "dconf");
            DconfReturned None; GdmCalled []]
     (outTrace (@ApplyPolicies sampleExternals [] (sampleManager "enabled")
                  emptyFiles "host" true appendChain)) ∧
   ∀ err, DconfReturned (Some err)
          ∉ outTrace (@ApplyPolicies sampleExternals [] (sampleManager "enabled")
                        emptyFiles "host" true appendChain)).
Proof.
  assert (H : GdmCalled []
    ∈ outTrace (@ApplyPolicies sampleExternals [] (sampleManager "enabled")
                  emptyFiles "host" true appendChain)).
  { vm_compute. repeat constructor. }
  split; [exact H|].
  exact (@gdm_only_after_dconf_success sampleExternals [] (sampleManager "enabled")
           emptyFiles "host" true appendChain [] H).
Defined.

Lemma cache_written_iff_backends_succeed_witness :
  LawfulYAML sampleExternals ∧
  let out := @ApplyPolicies sampleExternals [true; false] (sampleManager "enabled")
               emptyFiles "host" true appendChain in
  let path := @filepath_Join sampleExternals
                (policiesCacheDir (sampleManager "enabled")) "host" in
  ((∃ err, PoliciesSaved path err ∈ outTrace out) ↔
   outFatal out = None ∧
   @backendsSucceed sampleExternals (sampleManager "enabled") "host" true
     appendChain) ∧
  (outFatal out = None ∧ outErr out = None ↔
   outFatal out = None ∧
   @backendsSucceed sampleExternals (sampleManager "enabled") "host" true
     appendChain ∧
   ∃ d, @yaml_Marshal sampleExternals (GPOs appendChain) = inl d ∧
        (path ∉ readOnly emptyFiles) ∧ shortWrite emptyFiles path d = None) ∧
  (outFatal out = None ∧ outErr out = None ↔
   PoliciesSaved path None ∈ outTrace out) ∧
  (outFatal out = None → outErr out = None →
   NewFromCache (outFiles out) path
   = inl {| GPOs := GPOs appendChain; Data := None |}) ∧
  (backendFailed (outTrace out) → outErr out ≠ None ∧ outFiles out = emptyFiles).
Proof.
  split; [exact sampleExternals_lawful|].
  exact (@cache_written_iff_backends_succeed sampleExternals sampleExternals_lawful
           [true; false] (sampleManager "enabled") emptyFiles "host" true
           appendChain).
Defined.

(** Every handler succeeds and yet nothing is persisted: the cache file
    cannot be opened, the call returns the error of the write and the
    cache has no entry for the target. *)
Lemma cache_not_written_when_write_fails :
  let out := @ApplyPolicies sampleExternals [] (sampleManager "enabled")
               lockedCache "host" true appendChain in
  let path := "/var/cache/adsys/policies/host" in
  outFatal out = None ∧
  @backendsSucceed sampleExternals (sampleManager "enabled") "host" true
    appendChain ∧
  ¬ backendFailed (outTrace out) ∧
  outErr out = Some (Decorated "failed to apply policy to %q" "host"
                       (Decorated "can't save policies to %s" path
                          (Err "permission denied"))) ∧
  NewFromCache (outFiles out) path
  = inr (Decorated "can't get cached policies from %s" path
           (Err "no such file or directory")).
Proof.
  cbv zeta. split_and!.
  - vm_compute. reflexivity.
  - by split_and!.
  - intros [e He]. set (tr := outTrace _) in He. vm_compute in (value of tr).
    subst tr. rewrite !elem_of_cons, !elem_of_nil in He. intuition discriminate.
  - vm_compute. reflexivity.
  - vm_compute. reflexivity.
Qed.

(** The cache after the sample call holds the policy set. *)
Example sample_call_succeeds :
  let out := @ApplyPolicies sampleExternals [true; false] (sampleManager "enabled")
               emptyFiles "host" true appendChain in
  outFatal out = None ∧ outErr out = None ∧
  NewFromCache (outFiles out) "/var/cache/adsys/policies/host"
  = inl {| GPOs := GPOs appendChain; Data := None |}.
Proof. vm_compute. split_and!; reflexivity. Qed.

(** A write that fails after the file was truncated: every handler has
    succeeded, the call returns an error, and the cache of an earlier
    call is lost. *)
Example short_write_damages_cache :
  let out := @ApplyPolicies sampleExternals [] (sampleManager "enabled")
               (fullDisk (GPOs appendChain)) "host" true overrideThenAppend in
  NewFromCache (fullDisk (GPOs appendChain)) "/var/cache/adsys/policies/host"
  = inl {| GPOs := GPOs appendChain; Data := None |} ∧
  outErr out = Some (Decorated "failed to apply policy to %q" "host"
                       (Decorated "can't save policies to %s"
                          "/var/cache/adsys/policies/host"
                          (Err "no space left on device"))) ∧
  NewFromCache (outFiles out) "/var/cache/adsys/policies/host"
  = inl {| GPOs := []; Data := None |}.
Proof. vm_compute. split_and!; reflexivity. Qed.

(** Without the entitlement the privilege handler is given no rule. *)
Example call_not_entitled :
  outTrace (@ApplyPolicies sampleExternals [] (sampleManager "disabled")
              emptyFiles "host" false withPrivilege)
  = [DconfCalled "host" false []; DconfReturned None;
     SubscriptionChecked false; RulesFiltered;
     PrivilegeCalled "host" false []; PrivilegeReturned None;
     PoliciesSaved "/var/cache/adsys/policies/host" None].
Proof. vm_compute. reflexivity. Qed.

(** Without the entitlement, a schedule in which the goroutine of the
    first [g.Go] is reading the map when the filter starts to write it:
    the runtime ends the process, no handler is called and no file is
    written. *)
Example call_ended_by_runtime :
  let out := @ApplyPolicies sampleExternals [true; false; false]
               (sampleManager "disabled") emptyFiles "host" false withPrivilege in
  outFatal out = Some "concurrent map read and map write" ∧
  outTrace out = [SubscriptionChecked false] ∧
  outFiles out = emptyFiles.
Proof. vm_compute. split_and!; reflexivity. Qed.

(** With it the handler is given the merged rules of its domain. *)
Example call_entitled :
  outTrace (@ApplyPolicies sampleExternals [false; false; true; true; false]
              (sampleManager "enabled") emptyFiles "host" false withPrivilege)
  = [SubscriptionChecked true;
     PrivilegeCalled "host" false [overrideEntry "allow-local-admins" "true" "G1"];
     DconfCalled "host" false []; PrivilegeReturned None; DconfReturned None;
     PoliciesSaved "/var/cache/adsys/policies/host" None].
Proof. vm_compute. reflexivity. Qed.

(** When the desktop-configuration handler fails, the call fails, the
    login-manager handler is not called and no file is written. *)
Example call_dconf_fails :
  let out := @ApplyPolicies sampleExternals [] (failingDconf "enabled")
               emptyFiles "host" true withPrivilege in
  outTrace out
  = [DconfCalled "host" true []; DconfReturned (Some (Err "dconf failed"));
     SubscriptionChecked true;
     PrivilegeCalled "host" true [overrideEntry "allow-local-admins" "true" "G1"];
     PrivilegeReturned None] ∧
  outErr out = Some (Decorated "failed to apply policy to %q" "host"
                       (Err "dconf failed")) ∧
  outFiles out = emptyFiles.
Proof. vm_compute. split_and!; reflexivity. Qed.

(** * Further properties *)

(** ** The domains of the result *)

Lemma dom_collect st : dom (collect st) = dom (dedup st).
Proof.
  apply set_eq. intros t. rewrite !elem_of_dom, collect_lookup.
  by rewrite fmap_is_Some.
Qed.

Lemma dom_visitEntry t st e :
  t ∈ dom (dedup st) → dom (dedup (visitEntry t st e)) = dom (dedup st).
Proof.
  intros Ht.
  assert (Hset : ∀ x, dom (dedup (setDedup t x st)) = dom (dedup st)).
  { intros x. unfold setDedup; simpl. rewrite dom_insert_L.
    apply set_eq. intros t'. rewrite elem_of_union, elem_of_singleton.
    split; [by intros [->|?]|by right]. }
  destruct (visitEntry_handled t e st) as [_|c _ _ _ _ _|_ _]; [done|by apply Hset|].
  rewrite dedup_markSeen. by apply Hset.
Qed.

Lemma dom_enterType t st : dom (dedup (enterType t st)) = {[ t ]} ∪ dom (dedup st).
Proof.
  unfold enterType. destruct (dedup st !! t) eqn:Ht; simpl.
  - apply set_eq. intros t'. rewrite elem_of_union, elem_of_singleton.
    split; [by right|]. intros [->|?]; [|done]. apply elem_of_dom. by eexists.
  - by rewrite dom_insert_L.
Qed.

Lemma dom_visitType st b :
  dom (dedup (visitType st b)) = {[ b.1 ]} ∪ dom (dedup st).
Proof.
  unfold visitType. rewrite <- dom_enterType.
  assert (Ht : b.1 ∈ dom (dedup (enterType b.1 st))).
  { rewrite dom_enterType. apply elem_of_union. left. by apply elem_of_singleton. }
  revert Ht. generalize (enterType b.1 st).
  induction (b.2) as [|e es IH]; intros s Hs; [done|].
  simpl. rewrite IH; [by apply dom_visitEntry|]. by rewrite dom_visitEntry.
Qed.

Lemma dom_visitGPO st g :
  dom (dedup (visitGPO st g)) = list_to_set (Rules g).*1 ∪ dom (dedup st).
Proof.
  unfold visitGPO. revert st.
  induction (Rules g) as [|b bs IH]; intros st; simpl.
  - apply set_eq. intros t. rewrite elem_of_union, elem_of_empty. tauto.
  - rewrite IH, dom_visitType. apply set_eq. intros t.
    rewrite !elem_of_union. tauto.
Qed.

Lemma dom_dedupGPOs gpos : dom (dedup (dedupGPOs gpos)) = list_to_set (domainsOf gpos).
Proof.
  unfold dedupGPOs, domainsOf.
  assert (H : ∀ st, dom (dedup (foldl visitGPO st gpos))
                    = list_to_set (gpos ≫= Rules).*1 ∪ dom (dedup st)).
  { induction gpos as [|g gs IH]; intros st.
    - simpl. apply set_eq. intros t. rewrite elem_of_union, elem_of_empty. tauto.
    - rewrite bind_cons, fmap_app, list_to_set_app_L. simpl foldl.
      rewrite IH, dom_visitGPO.
      apply set_eq. intros t. rewrite !elem_of_union. tauto. }
  rewrite H. simpl. apply set_eq. intros t.
  rewrite elem_of_union, dom_empty, elem_of_empty. tauto.
Qed.

(** X1: the result has a list, possibly empty, for each domain that some
    GPO binds, and for no other domain. *)
Theorem GetUniqueRules_domains pols :
  dom (GetUniqueRules pols) = list_to_set (domainsOf (GPOs pols)).
Proof. unfold GetUniqueRules. by rewrite dom_collect, dom_dedupGPOs. Qed.

(** ** The result is the resolution of the entries that take part *)

Lemma contributors_key vs t k c : c ∈ contributors vs t k → Key c = k ∧ effective c = true.
Proof.
  induction vs as [|v vs IH]; simpl; [by intros ?%elem_of_nil|].
  destruct v as [t'|t' e']; [done|].
  destruct (bool_decide_reflect (t' = t ∧ Key e' = k)) as [[-> <-]|Hne]; simpl; [|done].
  destruct (effective e') eqn:He; [|done].
  intros [->|?]%elem_of_cons; [done|by apply IH].
Qed.

(** The value of a pair at the end of a walk that started with its key of
    [seen] free is the resolution of the entries that take part for it. *)
Lemma lookup_resolve t k vs : ∀ st e,
  Inv st → t +:+ k ∉ seen st →
  dedupLookup (dedup (walk st vs)) t k = Some e →
  resolve (contributors vs t k) = Some e.
Proof.
  intros st e HI Hs Hl.
  destruct (value_from_closest t k vs st e HI Hs Hl) as (c & Hc & Hm & Hstr).
  pose proof (Inv_walk vs st HI) as HI'.
  destruct (contributors vs t k) as [|c' cs] eqn:Hcs; [done|].
  injection Hc as ->.
  assert (Hin : c ∈ contributors vs t k) by (rewrite Hcs; left).
  apply contributors_key in Hin as [Hk He].
  assert (Hsame : isAppend e = isAppend c).
  { unfold isAppend. by rewrite Hstr. }
  unfold resolve. f_equal.
  destruct (isAppend c) eqn:Ha.
  - pose proof (chain_from_closest t k vs st e HI Hs Hl Hsame) as Hv.
    unfold appendChainOf in Hv. rewrite Hcs in Hv.
    pose proof (inv_key _ HI' _ _ _ Hl) as Hke.
    pose proof (inv_enabled _ HI' _ _ _ Hl Hsame) as Hde.
    unfold effective in He. rewrite Ha in He. simpl in He.
    apply negb_true_iff in He.
    destruct e, c; simpl in *. by subst.
  - (* the closest entry is not an Append entry: it is kept as it is *)
    clear Hm Hstr Hsame HI'. revert st HI Hs Hl Hcs.
    induction vs as [|v vs IH]; intros st HI Hs Hl Hcs; [done|].
    rewrite walk_cons in Hl. destruct v as [t'|t' e']; simpl in *.
    { apply (IH (enterType t' st)); auto using Inv_enterType.
      by rewrite seen_enterType. }
    pose proof (Inv_visitEntry t' e' st HI) as HI'.
    destruct (bool_decide_reflect (t' = t ∧ Key e' = k)) as [[-> Hk']|Hne];
      simpl in Hcs.
    + destruct (effective e') eqn:He'.
      * injection Hcs as -> _.
        assert (Hfirst : dedupLookup (dedup (visitEntry t st c)) t k = Some c).
        { unfold visitEntry. rewrite Ha, Hk, decide_False; [|done].
          rewrite dedup_markSeen, dedupLookup_setDedup.
          by rewrite decide_True. }
        rewrite (override_kept t k vs _ c HI' Hfirst Ha) in Hl.
        by injection Hl.
      * apply (IH (visitEntry t st e')); [done| |done..].
        by rewrite visitEntry_not_effective.
    + destruct (decide (seenKey t' e' ∈ seen (visitEntry t' st e')
                        ∧ seenKey t' e' = t +:+ k ∧ seenKey t' e' ∉ seen st))
        as [(Hnow & Heq & Hbefore)|Hno].
      * rewrite blocked in Hl; [done|by rewrite <- Heq|].
        rewrite other_pair_step; [|done].
        destruct (dedupLookup (dedup st) t k) eqn:Hold; [|done].
        by apply (inv_seen _ HI) in Hold.
      * apply (IH (visitEntry t' st e')); [done| |done..].
        intros Hin. apply Hno.
        destruct (visitEntry_handled t' e' st) as [_|? _ _ _ _ _|_ Hfree];
          [done..|].
        rewrite seen_markSeen, elem_of_union, elem_of_singleton in Hin.
        destruct Hin as [Hin|Hin]; [|done].
        split_and!; [|done..].
        rewrite seen_markSeen, elem_of_union, elem_of_singleton. by left.
Qed.

(** X2: every entry of the result is the resolution of the entries of its
    domain and key that take part in the merge. *)
Theorem GetUniqueRules_resolves pols t e :
  e ∈ rulesOf (GetUniqueRules pols) t →
  resolve (contributors (visitsOf (GPOs pols)) t (Key e)) = Some e.
Proof.
  intros He. apply elem_of_GetUniqueRules in He. rewrite dedupGPOs_walk in He.
  apply (lookup_resolve _ _ _ emptyState); [apply Inv_empty| |done].
  apply not_elem_of_empty.
Qed.

(** ** The lists stated without the maps *)

Lemma takingPart_contributors vs t k :
  k ∈ takingPart vs t ↔ contributors vs t k ≠ [].
Proof.
  induction vs as [|v vs IH]; simpl; [by rewrite elem_of_nil|].
  destruct v as [t'|t' e']; [done|].
  destruct (bool_decide_reflect (t' = t)) as [->|Hne]; simpl.
  - destruct (effective e') eqn:He; simpl.
    + rewrite elem_of_cons, IH.
      destruct (bool_decide_reflect (t = t ∧ Key e' = k)) as [[_ <-]|Hne];
        simpl; [by split; [|left]|].
      split; [intros [->|?]; [by destruct Hne|done]|by right].
    + by rewrite andb_false_r.
  - rewrite bool_decide_false; [done|]. by intros [? _].
Qed.

(** Without a clash in [seen], an entry that takes part gives its key a
    value. *)
Lemma contributors_listed pols t k :
  noClash (visitsOf (GPOs pols)) →
  contributors (visitsOf (GPOs pols)) t k ≠ [] →
  is_Some (dedupLookup (dedup (dedupGPOs (GPOs pols))) t k).
Proof.
  intros Hcl Hne.
  destruct (contributors (visitsOf (GPOs pols)) t k) as [|c cs] eqn:Hcs; [done|].
  assert (Hhead : head (contributors (visitsOf (GPOs pols)) t k) = Some c)
    by (by rewrite Hcs).
  apply closest_split in Hhead as (pre & post & Hvs & Hpre & <- & He).
  assert (Hu : unseenIn pre (seenKey t c) = true).
  { apply unseenIn_no_contributor; [|done]. intros t' e' Hin. apply Hcl.
    - rewrite Hvs. apply elem_of_app. by left.
    - rewrite Hvs. apply elem_of_app. right. by left. }
  rewrite dedupGPOs_walk, Hvs, walk_app, walk_cons.
  pose proof (Inv_walk pre _ Inv_empty) as HI.
  pose proof (unseen_walk (seenKey t c) pre emptyState
                (not_elem_of_empty _) Hu) as Hs.
  set (st := walk emptyState pre) in *.
  assert (Hfirst : dedupLookup (dedup (visitStep st (VisitRule t c))) t (Key c)
                   = Some c).
  { simpl. destruct (visitEntry_handled t c st) as [[Hn|Hn]|? _ _ Hn _ _|_ _].
    - by rewrite He in Hn.
    - done.
    - done.
    - rewrite dedup_markSeen, dedupLookup_setDedup. by rewrite decide_True. }
  destruct (meta_kept t (Key c) post _ c (Inv_visitStep _ _ HI) Hfirst)
    as (e & Hl & _). by eexists.
Qed.

Lemma keysOf_takingPart pols t :
  noClash (visitsOf (GPOs pols)) →
  sort_Strings (keysOf (dedupGPOs (GPOs pols)) t)
  = sort_Strings (remove_dups (takingPart (visitsOf (GPOs pols)) t)).
Proof.
  intros Hcl. unfold sort_Strings.
  apply (Sorted_unique String.le); [apply Sorted_merge_sort; apply _..|].
  rewrite !merge_sort_Permutation.
  apply NoDup_Permutation;
    [apply inv_nodup, Inv_dedupGPOs|apply NoDup_remove_dups|].
  intros k. rewrite elem_of_remove_dups, takingPart_contributors.
  rewrite (inv_listed _ (Inv_dedupGPOs _)). split.
  - intros [e He]. rewrite dedupGPOs_walk in He.
    apply (lookup_resolve _ _ _ emptyState) in He;
      [|apply Inv_empty|apply not_elem_of_empty].
    intros Hnil. by rewrite Hnil in He.
  - by apply contributors_listed.
Qed.

Lemma rulesOf_resolvedRules pols t :
  noClash (visitsOf (GPOs pols)) →
  rulesOf (GetUniqueRules pols) t = resolvedRules (visitsOf (GPOs pols)) t.
Proof.
  intros Hcl. unfold GetUniqueRules, resolvedRules.
  rewrite rulesOf_collect by apply Inv_dedupGPOs.
  unfold orderedEntries. rewrite keysOf_takingPart by done.
  set (ks := sort_Strings _).
  assert (Hks : ∀ k, k ∈ ks →
            resolve (contributors (visitsOf (GPOs pols)) t k)
            = Some (dedupAt (dedup (dedupGPOs (GPOs pols))) t k)).
  { intros k Hk. unfold ks in Hk. rewrite <- keysOf_takingPart in Hk by done.
    apply (proj1 (sort_Strings_elem_of _ _)) in Hk.
    apply (inv_listed _ (Inv_dedupGPOs _)) in Hk as [e He].
    rewrite (dedupAt_Some _ _ _ _ He). rewrite dedupGPOs_walk in He.
    apply (lookup_resolve _ _ _ emptyState) in He;
      [done|apply Inv_empty|apply not_elem_of_empty]. }
  clearbody ks. induction ks as [|k ks IH]; [done|].
  simpl. rewrite Hks by left. simpl. f_equal. apply IH.
  intros k' Hk'. apply Hks. by right.
Qed.

(** X3: when no two domains clash in [seen], the list returned for a
    domain is the one stated without the maps: the keys that have an entry
    taking part, in ascending order, each with the resolution of its
    entries. *)
Theorem GetUniqueRules_refines pols t :
  noClash (visitsOf (GPOs pols)) →
  rulesOf (GetUniqueRules pols) t = resolvedRules (visitsOf (GPOs pols)) t.
Proof. apply rulesOf_resolvedRules. Qed.

Lemma noClashb_sound vs : noClashb vs = true → noClash vs.
Proof.
  unfold noClashb, noClash. rewrite forallb_forall.
  intros H t1 e1 t2 e2 H1%list_elem_of_In H2%list_elem_of_In Hk.
  specialize (H _ H1). rewrite forallb_forall in H. specialize (H _ H2).
  simpl in H. rewrite bool_decide_true in H by done. simpl in H.
  by apply bool_decide_eq_true in H.
Qed.

(** ** The order of the bindings of a GPO *)

Lemma contributors_app vs1 vs2 t k :
  contributors (vs1 ++ vs2) t k = contributors vs1 t k ++ contributors vs2 t k.
Proof.
  induction vs1 as [|v vs1 IH]; [done|]. destruct v as [t'|t' e']; simpl; [done|].
  destruct (_ && _); simpl; by rewrite IH.
Qed.

Lemma takingPart_app vs1 vs2 t :
  takingPart (vs1 ++ vs2) t = takingPart vs1 t ++ takingPart vs2 t.
Proof.
  induction vs1 as [|v vs1 IH]; [done|]. destruct v as [t'|t' e']; simpl; [done|].
  destruct (_ && _); simpl; by rewrite IH.
Qed.

Lemma contributors_other_binding b t k :
  b.1 ≠ t → contributors (visitsOfBinding b) t k = [].
Proof.
  intros Hne. unfold visitsOfBinding. simpl.
  induction (b.2) as [|e es IH]; [done|]. simpl.
  rewrite bool_decide_false; [done|]. by intros [? _].
Qed.

Lemma takingPart_other_binding b t :
  b.1 ≠ t → takingPart (visitsOfBinding b) t = [].
Proof.
  intros Hne. unfold visitsOfBinding. simpl.
  induction (b.2) as [|e es IH]; [done|]. simpl.
  by rewrite bool_decide_false.
Qed.

Lemma bindings_perm (l1 l2 : list (string * list Entry)) t k :
  l1 ≡ₚ l2 → NoDup l1.*1 →
  contributors (l1 ≫= visitsOfBinding) t k = contributors (l2 ≫= visitsOfBinding) t k ∧
  takingPart (l1 ≫= visitsOfBinding) t = takingPart (l2 ≫= visitsOfBinding) t.
Proof.
  induction 1 as [|b l1 l2 Hp IH|b1 b2 l|l1 l2 l3 Hp1 IH1 Hp2 IH2]; intros Hnd.
  - done.
  - rewrite !bind_cons, !contributors_app, !takingPart_app.
    apply NoDup_cons in Hnd as [_ Hnd]. destruct (IH Hnd) as [-> ->]. done.
  - rewrite !bind_cons, !contributors_app, !takingPart_app.
    simpl in Hnd. apply NoDup_cons in Hnd as [Hne _].
    apply not_elem_of_cons in Hne as [Hne _].
    destruct (decide (b1.1 = t)) as [<-|H1].
    + rewrite (contributors_other_binding b2), (takingPart_other_binding b2) by done.
      simpl. by rewrite ?app_nil_r.
    + rewrite (contributors_other_binding b1), (takingPart_other_binding b1) by done.
      simpl. by rewrite ?app_nil_r.
  - destruct (IH1 Hnd) as [-> ->]. apply IH2. by rewrite <- Hp1.
Qed.

Lemma sameBindings_visits gpos1 gpos2 t k :
  sameBindings gpos1 gpos2 → Forall (λ g, wfGPO g = true) gpos1 →
  contributors (visitsOf gpos1) t k = contributors (visitsOf gpos2) t k ∧
  takingPart (visitsOf gpos1) t = takingPart (visitsOf gpos2) t.
Proof.
  unfold visitsOf.
  induction 1 as [|g1 g2 gs1 gs2 Hp _ IH]; intros Hwf; [done|].
  apply Forall_cons in Hwf as [Hw Hwf]. apply bool_decide_eq_true in Hw.
  rewrite !bind_cons, !contributors_app, !takingPart_app.
  destruct (IH Hwf) as [-> ->].
  destruct (bindings_perm _ _ t k Hp Hw) as [E1 E2].
  split; (f_equal; [exact E1 || exact E2]).
Qed.

Lemma elem_of_visitsOf gpos t e :
  VisitRule t e ∈ visitsOf gpos ↔
  ∃ g es, g ∈ gpos ∧ (t, es) ∈ Rules g ∧ e ∈ es.
Proof.
  unfold visitsOf. rewrite list_elem_of_bind. split.
  - intros (g & Hin & Hg). apply list_elem_of_bind in Hin as ([t' es] & Hin & Hb).
    unfold visitsOfBinding in Hin. simpl in Hin.
    apply elem_of_cons in Hin as [?|Hin]; [done|].
    apply list_elem_of_fmap in Hin as (e' & [= -> ->] & He). by exists g, es.
  - intros (g & es & Hg & Hb & He). exists g. split; [|done].
    apply list_elem_of_bind. exists (t, es). split; [|done].
    unfold visitsOfBinding. simpl. right. apply list_elem_of_fmap. by exists e.
Qed.

Lemma sameBindings_elem_of gpos1 gpos2 t e :
  sameBindings gpos1 gpos2 →
  VisitRule t e ∈ visitsOf gpos2 → VisitRule t e ∈ visitsOf gpos1.
Proof.
  intros Hsb. rewrite !elem_of_visitsOf. intros (g2 & es & Hg & Hb & He).
  induction Hsb as [|g1 g2' gs1 gs2 Hp _ IH]; [by apply elem_of_nil in Hg|].
  apply elem_of_cons in Hg as [->|Hg].
  - exists g1, es. split_and!; [by left| |done]. by rewrite Hp.
  - destruct (IH Hg) as (g & es' & ? & ? & ?). exists g, es'.
    split_and!; [by right|done..].
Qed.

Lemma sameBindings_domains gpos1 gpos2 :
  sameBindings gpos1 gpos2 →
  list_to_set (domainsOf gpos1) =@{gset string} list_to_set (domainsOf gpos2).
Proof.
  unfold domainsOf. induction 1 as [|g1 g2 gs1 gs2 Hp _ IH]; [done|].
  rewrite !bind_cons, !fmap_app, !list_to_set_app_L, IH.
  f_equal. apply set_eq. intros t. rewrite !elem_of_list_to_set. by rewrite Hp.
Qed.

Lemma rules_map_eq (m1 m2 : gmap string (list Entry)) :
  dom m1 = dom m2 → (∀ t, rulesOf m1 t = rulesOf m2 t) → m1 = m2.
Proof.
  intros Hd Hr. apply map_eq. intros t. specialize (Hr t). unfold rulesOf in Hr.
  destruct (m1 !! t) as [l1|] eqn:H1, (m2 !! t) as [l2|] eqn:H2; simpl in Hr.
  - by rewrite Hr.
  - apply (elem_of_dom_2 (D := gset string)) in H1. rewrite Hd in H1.
    apply elem_of_dom in H1 as [? H1]. by rewrite H2 in H1.
  - apply (elem_of_dom_2 (D := gset string)) in H2. rewrite <- Hd in H2.
    apply elem_of_dom in H2 as [? H2]. by rewrite H1 in H2.
  - done.
Qed.

(** X4: the order in which Go ranges over the bindings of each well-formed
    GPO does not change the result, when no two domains clash in [seen]. *)
Theorem GetUniqueRules_order_of_bindings pols1 pols2 :
  sameBindings (GPOs pols1) (GPOs pols2) →
  wfPolicies pols1 = true →
  noClash (visitsOf (GPOs pols1)) →
  GetUniqueRules pols1 = GetUniqueRules pols2.
Proof.
  intros Hsb Hwf Hcl.
  assert (Hwf' : Forall (λ g, wfGPO g = true) (GPOs pols1)).
  { apply Forall_forall. intros g Hg%list_elem_of_In.
    unfold wfPolicies in Hwf. rewrite forallb_forall in Hwf. by apply Hwf. }
  assert (Hcl2 : noClash (visitsOf (GPOs pols2))).
  { intros t1 e1 t2 e2 H1 H2. apply Hcl; by eapply sameBindings_elem_of. }
  apply rules_map_eq.
  - unfold GetUniqueRules. rewrite !dom_collect, !dom_dedupGPOs.
    by apply sameBindings_domains.
  - intros t. rewrite !rulesOf_resolvedRules by done.
    unfold resolvedRules.
    destruct (sameBindings_visits _ _ t "" Hsb Hwf') as [_ ->].
    generalize (sort_Strings (remove_dups (takingPart (visitsOf (GPOs pols2)) t))).
    intros ks. induction ks as [|k ks IH]; [done|]. csimpl.
    destruct (sameBindings_visits _ _ t k Hsb Hwf') as [-> _]. by rewrite IH.
Qed.

Lemma string_app_assoc (a b c : string) : (a +:+ b) +:+ c = a +:+ (b +:+ c).
Proof.
  induction a as [|x a IH]; [done|].
  change (String x ((a +:+ b) +:+ c) = String x (a +:+ (b +:+ c))).
  by rewrite IH.
Qed.

Lemma chain_keeps_suffix (v : string) (l : list string) :
  ∃ p, foldl (λ existing new, new +:+ LF +:+ existing) v l = p +:+ v.
Proof.
  revert v. induction l as [|x l IH]; intros v; [by exists ""|].
  simpl. destruct (IH (x +:+ LF +:+ v)) as [p ->].
  exists (p +:+ x +:+ LF). by rewrite !string_app_assoc.
Qed.

(** X5: with a clash in [seen] the result depends on the order in which
    the bindings of a GPO are visited: there are two well-formed policy
    sets that differ only in that order and do not merge to the same
    rules. *)
Theorem GetUniqueRules_order_matters_on_clash :
  ∃ pols1 pols2,
    sameBindings (GPOs pols1) (GPOs pols2) ∧
    wfPolicies pols1 = true ∧ wfPolicies pols2 = true ∧
    GetUniqueRules pols1 ≠ GetUniqueRules pols2.
Proof.
  exists (policiesOf [clashingGPO false]), (policiesOf [clashingGPO true]).
  split_and!.
  - constructor; [|constructor]. apply perm_swap.
  - by vm_compute.
  - by vm_compute.
  - intros H. apply (f_equal (λ m, rulesOf m "a")) in H.
    vm_compute in H. discriminate.
Qed.

(** X6: farther GPOs never take away or relabel what the closer GPOs
    have settled: an entry of the result for the closer GPOs has an entry
    of the same key, metadata, strategy and flag in the result for all of
    them, whose value ends with the value it had. *)
Theorem farther_GPOs_keep_entries closer farther t e :
  e ∈ rulesOf (GetUniqueRules (policiesOf closer)) t →
  ∃ e' p,
    e' ∈ rulesOf (GetUniqueRules (policiesOf (closer ++ farther))) t ∧
    Key e' = Key e ∧ Meta e' = Meta e ∧ Strategy e' = Strategy e ∧
    Disabled e' = Disabled e ∧ Value e' = p +:+ Value e.
Proof.
  intros He. apply elem_of_GetUniqueRules in He. simpl in He.
  pose proof (Inv_dedupGPOs closer) as HI.
  pose proof (Inv_dedupGPOs (closer ++ farther)) as HI'.
  destruct (isAppend e) eqn:Ha.
  - destruct (chain_grows t (Key e) (visitsOf farther) _ e HI He Ha)
      as (e1 & Hl1 & Hv).
    destruct (meta_kept t (Key e) (visitsOf farther) _ e HI He)
      as (e2 & Hl2 & Hm & Hs).
    rewrite Hl1 in Hl2. injection Hl2 as <-.
    rewrite <- dedupGPOs_app in Hl1.
    destruct (chain_keeps_suffix (Value e)
                (Value <$> appendChainOf (visitsOf farther) t (Key e))) as [p Hp].
    exists e1, p.
    pose proof (inv_key _ HI' _ _ _ Hl1) as Hk.
    assert (Ha1 : isAppend e1 = true) by (unfold isAppend in *; by rewrite Hs).
    split_and!; [|done..| |by rewrite Hv].
    + apply elem_of_GetUniqueRules. simpl. by rewrite Hk.
    + rewrite (inv_enabled _ HI' _ _ _ Hl1 Ha1).
      by rewrite (inv_enabled _ HI _ _ _ He Ha).
  - exists e, "". split_and!; [|done..].
    apply elem_of_GetUniqueRules. simpl. rewrite dedupGPOs_app.
    by apply override_kept.
Qed.

(** ** The sample calls of the merge *)

Lemma GetUniqueRules_resolves_witness :
  let e := {| Key := "a"; Value := "y" +:+ LF +:+ "x"; Disabled := false;
              Meta := "G1"; Strategy := StrategyAppend |} in
  e ∈ rulesOf (GetUniqueRules appendChain) "dconf" ∧
  resolve (contributors (visitsOf (GPOs appendChain)) "dconf" (Key e)) = Some e.
Proof.
  assert (H : {| Key := "a"; Value := "y" +:+ LF +:+ "x"; Disabled := false;
                 Meta := "G1"; Strategy := StrategyAppend |}
              ∈ rulesOf (GetUniqueRules appendChain) "dconf").
  { vm_compute. constructor. }
  split; [exact H|].
  exact (GetUniqueRules_resolves appendChain "dconf" _ H).
Defined.

Lemma GetUniqueRules_refines_witness :
  noClash (visitsOf (GPOs overrideInsideChain)) ∧
  rulesOf (GetUniqueRules overrideInsideChain) "dconf"
  = resolvedRules (visitsOf (GPOs overrideInsideChain)) "dconf".
Proof.
  assert (H : noClash (visitsOf (GPOs overrideInsideChain))).
  { apply noClashb_sound. vm_compute. reflexivity. }
  split; [exact H|].
  exact (GetUniqueRules_refines overrideInsideChain "dconf" H).
Defined.

Lemma GetUniqueRules_order_of_bindings_witness :
  (sameBindings (GPOs (policiesOf [twoDomainsGPO false]))
                (GPOs (policiesOf [twoDomainsGPO true])) ∧
   wfPolicies (policiesOf [twoDomainsGPO false]) = true ∧
   noClash (visitsOf (GPOs (policiesOf [twoDomainsGPO false])))) ∧
  GetUniqueRules (policiesOf [twoDomainsGPO false])
  = GetUniqueRules (policiesOf [twoDomainsGPO true]).
Proof.
  assert (H1 : sameBindings (GPOs (policiesOf [twoDomainsGPO false]))
                            (GPOs (policiesOf [twoDomainsGPO true]))).
  { constructor; [|constructor]. apply perm_swap. }
  assert (H2 : wfPolicies (policiesOf [twoDomainsGPO false]) = true).
  { vm_compute. reflexivity. }
  assert (H3 : noClash (visitsOf (GPOs (policiesOf [twoDomainsGPO false])))).
  { apply noClashb_sound. vm_compute. reflexivity. }
  split; [by split_and!|].
  exact (GetUniqueRules_order_of_bindings _ _ H1 H2 H3).
Defined.

Lemma farther_GPOs_keep_entries_witness :
  let g1 := oneRuleGPO "G1" "dconf" (appendEntry "a" "x" "G1") in
  let g2 := oneRuleGPO "G2" "dconf" (appendEntry "a" "y" "G2") in
  let e := appendEntry "a" "x" "G1" in
  e ∈ rulesOf (GetUniqueRules (policiesOf [g1])) "dconf" ∧
  ∃ e' p,
    e' ∈ rulesOf (GetUniqueRules (policiesOf ([g1] ++ [g2]))) "dconf" ∧
    Key e' = Key e ∧ Meta e' = Meta e ∧ Strategy e' = Strategy e ∧
    Disabled e' = Disabled e ∧ Value e' = p +:+ Value e.
Proof.
  assert (H : appendEntry "a" "x" "G1"
              ∈ rulesOf (GetUniqueRules
                  (policiesOf [oneRuleGPO "G1" "dconf" (appendEntry "a" "x" "G1")]))
                  "dconf").
  { vm_compute. constructor. }
  split; [exact H|].
  exact (farther_GPOs_keep_entries
           [oneRuleGPO "G1" "dconf" (appendEntry "a" "x" "G1")]
           [oneRuleGPO "G2" "dconf" (appendEntry "a" "y" "G2")] "dconf"
           (appendEntry "a" "x" "G1") H).
Defined.

(** ** More on one call of ApplyPolicies *)

Section ApplyMore.
Context {E : Externals}.

Lemma Interleave_filter_l {A} (P : A → bool) (a b c : list A) :
  Interleave a b c → Forall (λ x, P x = false) b →
  filter (λ x, P x = true) c = filter (λ x, P x = true) a.
Proof.
  induction 1 as [|x a b c _ IH|x a b c _ IH]; intros Hb; [done| |].
  - rewrite !filter_cons. by rewrite IH.
  - apply Forall_cons in Hb as [Hx Hb]. rewrite filter_cons_False; [by apply IH|].
    by rewrite Hx.
Qed.

Lemma Interleave_filter_r {A} (P : A → bool) (a b c : list A) :
  Interleave a b c → Forall (λ x, P x = false) a →
  filter (λ x, P x = true) c = filter (λ x, P x = true) b.
Proof.
  induction 1 as [|x a b c _ IH|x a b c _ IH]; intros Ha; [done| |].
  - apply Forall_cons in Ha as [Hx Ha]. rewrite filter_cons_False; [by apply IH|].
    by rewrite Hx.
  - rewrite !filter_cons. by rewrite IH.
Qed.

Lemma filter_afterWait (P : Event → bool) rest :
  (∀ ev, afterWait ev → P ev = false) → Forall afterWait rest →
  filter (λ x, P x = true) rest = [].
Proof.
  intros HP. induction 1 as [|ev rest Hev _ IH]; [done|].
  rewrite filter_cons_False; [done|]. by rewrite (HP _ Hev).
Qed.

Lemma outFatal_ApplyPolicies sched m fs o c pols :
  outFatal (ApplyPolicies sched m fs o c pols) = fatal (atWait sched m o c pols).
Proof. by destruct (ApplyPolicies_ending sched m fs o c pols). Qed.

Lemma outManager_ApplyPolicies sched m fs o c pols :
  outManager (ApplyPolicies sched m fs o c pols)
  = setSubscription m (subscriptionStatus m).
Proof.
  rewrite <- (group_mgr sched m o c pols).
  by destruct (ApplyPolicies_ending sched m fs o c pols).
Qed.

(** X7: in every run that the runtime does not end, each of the two
    handlers of the group is called once and returns once, whatever the
    other one returns and whatever the entitlement: the
    desktop-configuration handler with the merged rules of its domain, the
    privilege handler with the rules left by the filter.  A run that the
    runtime ends calls no handler; there is none when the machine is
    entitled. *)
Theorem group_handlers_run_once sched m fs o c pols :
  let out := ApplyPolicies sched m fs o c pols in
  let dr := rulesOf (GetUniqueRules pols) "dconf" in
  let pr := if (getSubcriptionState m).2
            then rulesOf (GetUniqueRules pols) "privilege" else [] in
  (outFatal out = None →
   filter (λ ev, isDconfEvent ev = true) (outTrace out)
   = [DconfCalled o c dr; DconfReturned (dconf m o c dr)] ∧
   filter (λ ev, isPrivilegeEvent ev = true) (outTrace out)
   = [PrivilegeCalled o c pr; PrivilegeReturned (privilege m o c pr)]) ∧
  (outFatal out ≠ None →
   (getSubcriptionState m).2 = false ∧
   outTrace out = [SubscriptionChecked false]) ∧
  ((getSubcriptionState m).2 = true → outFatal out = None).
Proof.
  cbv zeta. unfold getSubcriptionState. simpl.
  rewrite outFatal_ApplyPolicies. split_and!.
  - intros Hf.
    destruct (ApplyPolicies_trace sched m fs o c pols) as (rest & -> & Hrest).
    destruct (group_live sched m o c pols Hf) as (_ & _ & Hi & _).
    rewrite !filter_app.
    rewrite (filter_afterWait isDconfEvent rest); [|by intros ev; destruct ev|done].
    rewrite (filter_afterWait isPrivilegeEvent rest);
      [|by intros ev; destruct ev|done].
    rewrite !app_nil_r. split.
    + rewrite (Interleave_filter_l isDconfEvent _ _ _ Hi); [done|].
      unfold mainTrace. destruct (subscriptionStatus m); by repeat constructor.
    + rewrite (Interleave_filter_r isPrivilegeEvent _ _ _ Hi);
        [|by repeat constructor].
      unfold mainTrace, privilegeRules. by destruct (subscriptionStatus m).
  - intros Hf. destruct (fatal (atWait sched m o c pols)) as [msg|] eqn:Hfe; [|done].
    destruct (group_fatal _ _ _ _ _ _ Hfe) as (_ & Hs & Htr & _).
    split; [done|]. rewrite <- Htr.
    destruct (ApplyPolicies_ending sched m fs o c pols); simpl; congruence.
  - by apply group_entitled_live.
Qed.

Lemma firstError_app_afterWait tr rest :
  Forall afterWait rest → firstError (tr ++ rest) = firstError tr.
Proof.
  intros Hrest. induction tr as [|ev tr IH]; simpl.
  - induction Hrest as [|ev rest Hev _ IH]; [done|]. by destruct ev.
  - destruct ev as [| [?|] | | | | [?|] | | |]; by rewrite ?IH.
Qed.

(** X8: the login-manager handler is called exactly when the runtime has
    not ended the run, the call is for a computer and both handlers of
    the group have returned without error, and it is given the merged
    rules of its domain. *)
Theorem gdm_called_iff sched m fs o c pols rs :
  GdmCalled rs ∈ outTrace (ApplyPolicies sched m fs o c pols) ↔
  outFatal (ApplyPolicies sched m fs o c pols) = None ∧
  c = true ∧
  dconf m o c (rulesOf (GetUniqueRules pols) "dconf") = None ∧
  privilege m o c (if (getSubcriptionState m).2
                   then rulesOf (GetUniqueRules pols) "privilege" else []) = None ∧
  rs = rulesOf (GetUniqueRules pols) "gdm".
Proof.
  change (if (getSubcriptionState m).2
          then rulesOf (GetUniqueRules pols) "privilege" else [])
    with (privilegeRules m (GetUniqueRules pols)).
  destruct (group_trace_no_gdm sched m o c pols) as (Hng & _ & _).
  destruct (ApplyPolicies_ending sched m fs o c pols)
    as [msg Hf|err Hf Hg|err rs' Hf Hg Hc Hrs Hr
        |gdmTrace fs' err Hf Hg Hgdm Hgt Hs]; simpl.
  - split; [by intros ?%Hng|]. by intros [? _].
  - split; [by intros ?%Hng|]. intros (_ & _ & Hd & Hp & _).
    rewrite (proj2 (group_ok_iff _ _ _ _ _ Hf)) in Hg; done.
  - rewrite elem_of_app, !elem_of_cons, elem_of_nil.
    rewrite (group_rules_gdm _ _ _ _ _ Hf) in Hrs.
    destruct (proj1 (group_ok_iff _ _ _ _ _ Hf) Hg) as [Hd Hp]. split.
    + intros [?%Hng|[[= ->]|[?|?]]]; done.
    + intros (_ & _ & _ & _ & ->). right. left. by rewrite Hrs.
  - rewrite !elem_of_app. subst gdmTrace.
    rewrite (group_rules_gdm _ _ _ _ _ Hf).
    destruct (proj1 (group_ok_iff _ _ _ _ _ Hf) Hg) as [Hd Hp].
    destruct c; rewrite ?elem_of_cons, ?elem_of_nil; split.
    + intros [?%Hng|[[[= ->]|[?|?]]|[?|?]]]; done.
    + intros (_ & _ & _ & _ & ->). right. left. by left.
    + intros [?%Hng|[?|[?|?]]]; done.
    + by intros (_ & ? & _).
Qed.

(** X9: when a handler of the group fails, the call returns the first
    error that one of them has returned, in the order of the trace,
    wrapped with the name of the target. *)
Theorem group_error_is_first_returned sched m fs o c pols err :
  firstError (outTrace (ApplyPolicies sched m fs o c pols)) = Some err →
  outErr (ApplyPolicies sched m fs o c pols)
  = Some (Decorated "failed to apply policy to %q" o err).
Proof.
  destruct (ApplyPolicies_trace sched m fs o c pols) as (rest & Htr & Hrest).
  rewrite Htr, firstError_app_afterWait by done.
  destruct (ApplyPolicies_ending sched m fs o c pols)
    as [msg Hf|err' Hf Hg|err' rs' Hf Hg Hc Hrs Hr
        |gdmTrace fs' err' Hf Hg Hgdm Hgt Hs]; simpl.
  - destruct (group_fatal _ _ _ _ _ _ Hf) as (_ & _ & -> & _). done.
  - destruct (group_live _ _ _ _ _ Hf) as (_ & _ & _ & Hfe).
    rewrite <- Hfe, Hg. by intros [= ->].
  - destruct (group_live _ _ _ _ _ Hf) as (_ & _ & _ & Hfe).
    rewrite <- Hfe, Hg. done.
  - destruct (group_live _ _ _ _ _ Hf) as (_ & _ & _ & Hfe).
    rewrite <- Hfe, Hg. done.
Qed.

(** X10: whatever the outcome, a call changes the manager only in the
    entitlement status, which becomes the answer of the check; [GetStatus]
    reports it afterwards. *)
Theorem ApplyPolicies_refreshes_status sched m fs o c pols :
  outManager (ApplyPolicies sched m fs o c pols) = (getSubcriptionState m).1 ∧
  GetStatus (outManager (ApplyPolicies sched m fs o c pols))
  = (getSubcriptionState m).2.
Proof. by rewrite outManager_ApplyPolicies. Qed.

Lemma Save_other_path pols fs p fs' err q :
  Save pols fs p = (fs', err) → q ≠ p → files fs' !! q = files fs !! q.
Proof.
  unfold Save, os_WriteFile.
  destruct (yaml_Marshal (GPOs pols)) as [d|e]; [|by intros [= <- _]].
  destruct (decide (p ∈ readOnly fs)); [by intros [= <- _]|].
  destruct (shortWrite fs p d); simpl; intros [= <- _] Hne; simpl;
    by rewrite lookup_insert_ne.
Qed.

Lemma Save_faults pols fs p fs' err :
  Save pols fs p = (fs', err) →
  readOnly fs' = readOnly fs ∧ shortWrite fs' = shortWrite fs.
Proof.
  unfold Save, os_WriteFile.
  destruct (yaml_Marshal (GPOs pols)) as [d|e]; [|by intros [= <- _]].
  destruct (decide (p ∈ readOnly fs)); [by intros [= <- _]|].
  destruct (shortWrite fs p d); by intros [= <- _].
Qed.

(** A call that does not come to the write of the cache leaves the files
    as they were. *)
Lemma ApplyPolicies_no_write sched m fs o c pols :
  outFatal (ApplyPolicies sched m fs o c pols) ≠ None ∨
  backendFailed (outTrace (ApplyPolicies sched m fs o c pols)) →
  outFiles (ApplyPolicies sched m fs o c pols) = fs.
Proof.
  destruct (group_trace_no_gdm sched m o c pols) as (_ & Hnr & _).
  destruct (ApplyPolicies_ending sched m fs o c pols)
    as [msg Hf|err Hf Hg|err rs' Hf Hg Hc Hrs Hr
        |gdmTrace fs' err Hf Hg Hgdm Hgt Hs]; simpl; [done..|].
  intros [?|[e He]]; [done|]. exfalso.
  destruct (group_ok _ _ _ _ _ Hf Hg) as (_ & _ & Hno).
  destruct (Hno e) as [Hd Hp]. pose proof (Hnr (Some e)) as Hr.
  rewrite !elem_of_app in He. subst gdmTrace.
  destruct c; rewrite ?elem_of_cons, ?elem_of_nil in He; intuition discriminate.
Qed.

(** X11: a call in which a handler fails, or which the runtime ends,
    leaves every file as it was; any call changes at most the cache file
    of its target, and leaves the ways a write can fail as they were. *)
Theorem ApplyPolicies_files sched m fs o c pols :
  let out := ApplyPolicies sched m fs o c pols in
  (outFatal out ≠ None ∨ backendFailed (outTrace out) → outFiles out = fs) ∧
  (∀ q, q ≠ filepath_Join (policiesCacheDir m) o →
        files (outFiles out) !! q = files fs !! q) ∧
  readOnly (outFiles out) = readOnly fs ∧
  shortWrite (outFiles out) = shortWrite fs.
Proof.
  cbv zeta. split; [apply ApplyPolicies_no_write|].
  destruct (ApplyPolicies_ending sched m fs o c pols)
    as [msg Hf|err Hf Hg|err rs' Hf Hg Hc Hrs Hr
        |gdmTrace fs' err Hf Hg Hgdm Hgt Hs]; simpl; [done..|].
  destruct (Save_faults _ _ _ _ _ Hs) as [? ?].
  split_and!; [|done..]. intros q Hq. by eapply Save_other_path.
Qed.

(** X12: [Save] then [NewFromCache] on the same path, with a codec that
    decodes what it encodes, gives back the GPO list without the auxiliary
    data: the policy set itself exactly when it had none. *)
Theorem Save_NewFromCache (L : LawfulYAML E) pols fs p fs' :
  Save pols fs p = (fs', None) →
  NewFromCache fs' p = inl {| GPOs := GPOs pols; Data := None |} ∧
  (NewFromCache fs' p = inl pols ↔ Data pols = None).
Proof.
  intros Hs. pose proof (Save_ok L pols fs p fs' Hs) as Hl.
  split; [done|]. rewrite Hl. destruct pols as [g d]; simpl. split.
  - by intros [= <-].
  - by intros ->.
Qed.

Lemma Save_ok_exists pols fs p fs' :
  Save pols fs p = (fs', None) → is_Some (files fs' !! p).
Proof.
  intros (d & _ & _ & _ & ->)%Save_ok_iff. simpl.
  rewrite lookup_insert_eq. by eexists.
Qed.

(** What a call that returns no error leaves: a file for the target,
    which reads as the GPO list of the call when the codec decodes what
    it encodes. *)
Lemma ApplyPolicies_ok_exists sched m fs o c pols :
  outFatal (ApplyPolicies sched m fs o c pols) = None →
  outErr (ApplyPolicies sched m fs o c pols) = None →
  is_Some (files (outFiles (ApplyPolicies sched m fs o c pols))
           !! filepath_Join (policiesCacheDir m) o).
Proof.
  destruct (ApplyPolicies_ending sched m fs o c pols)
    as [msg Hf|err Hf Hg|err rs' Hf Hg Hc Hrs Hr
        |gdmTrace fs' err Hf Hg Hgdm Hgt Hs]; simpl; [done..|].
  destruct err; [done|]. intros _ _. by apply (Save_ok_exists pols fs).
Qed.

Lemma ApplyPolicies_ok (L : LawfulYAML E) sched m fs o c pols :
  outFatal (ApplyPolicies sched m fs o c pols) = None →
  outErr (ApplyPolicies sched m fs o c pols) = None →
  NewFromCache (outFiles (ApplyPolicies sched m fs o c pols))
    (filepath_Join (policiesCacheDir m) o)
  = inl {| GPOs := GPOs pols; Data := None |}.
Proof.
  destruct (ApplyPolicies_ending sched m fs o c pols)
    as [msg Hf|err Hf Hg|err rs' Hf Hg Hc Hrs Hr
        |gdmTrace fs' err Hf Hg Hgdm Hgt Hs]; simpl; [done..|].
  destruct err; [done|]. intros _ _. by apply (Save_ok L pols fs).
Qed.

(** X13: two calls for the same target, the first of which has returned
    no error: the cache then holds the policy set of the second call when
    that call returns no error, and still the one of the first call when
    the second does not come to the write, because a handler fails or the
    runtime ends it. *)
Theorem cache_is_last_applied (L : LawfulYAML E)
    sched1 sched2 m fs o c1 c2 pols1 pols2 :
  let out1 := ApplyPolicies sched1 m fs o c1 pols1 in
  let out2 := ApplyPolicies sched2 (outManager out1) (outFiles out1) o c2 pols2 in
  let path := filepath_Join (policiesCacheDir m) o in
  outFatal out1 = None → outErr out1 = None →
  (outFatal out2 = None → outErr out2 = None →
   NewFromCache (outFiles out2) path = inl {| GPOs := GPOs pols2; Data := None |}) ∧
  (outFatal out2 ≠ None ∨ backendFailed (outTrace out2) →
   NewFromCache (outFiles out2) path = inl {| GPOs := GPOs pols1; Data := None |}).
Proof.
  cbv zeta. intros Hf1 He1.
  pose proof (ApplyPolicies_ok L sched1 m fs o c1 pols1 Hf1 He1) as Hfirst.
  set (m1 := outManager (ApplyPolicies sched1 m fs o c1 pols1)) in *.
  set (fs1 := outFiles (ApplyPolicies sched1 m fs o c1 pols1)) in *.
  assert (Hdir : policiesCacheDir m1 = policiesCacheDir m).
  { unfold m1. by rewrite outManager_ApplyPolicies. }
  clearbody m1 fs1. split.
  - intros Hf2 He2. rewrite <- Hdir. by apply ApplyPolicies_ok.
  - intros Hno. by rewrite (ApplyPolicies_no_write _ _ _ _ _ _ Hno).
Qed.

End ApplyMore.

(** ** DumpPolicies, LastUpdateFor and NewManager *)


Section DumpFacts.
Context {E : Externals} {HostI : Host E}.



(** X14: with the machine's name known, [DumpPolicies] succeeds exactly
    when the cache of the target can be read and, for a target that is
    not the machine, the cache of the machine too; when the machine's
    cache cannot be read the error names the machine, not the target,
    whatever the state of the target's cache. *)
Theorem DumpPolicies_needs_caches m fs o wr wo h :
  os_Hostname = inl h →
  ((∃ out, DumpPolicies m fs o wr wo = inl out) ↔
   (∃ pols, NewFromCache fs (filepath_Join (policiesCacheDir m) o) = inl pols) ∧
   (o ≠ h →
    ∃ pols, NewFromCache fs (filepath_Join (policiesCacheDir m) h) = inl pols)) ∧
  (o ≠ h →
   ∀ err, NewFromCache fs (filepath_Join (policiesCacheDir m) h) = inr err →
          DumpPolicies m fs o wr wo
          = inr (Wrapped "failed to dump policies for %q" [ArgString o]
                   (Wrapped "no policy applied for %q: %v" [ArgString h]
                      (Cause err)))).
Proof.
  intros Hh. unfold DumpPolicies. rewrite Hh.
  destruct (decide (o = h)) as [->|Hne].
  - rewrite bool_decide_false by (by intros ?).
    split; [|done].
    destruct (NewFromCache fs _) as [pols|err]; split.
    + intros _. split; [by eexists|done].
    + intros _. by eexists.
    + by intros [? ?].
    + by intros [[? ?] _].
  - rewrite bool_decide_true by done.
    destruct (NewFromCache fs (filepath_Join (policiesCacheDir m) h))
      as [polsH|errH].
    + destruct (formatGPOs wr wo _ (GPOs polsH)) as [out already].
      split; [|by intros _ err [=]].
      destruct (NewFromCache fs (filepath_Join (policiesCacheDir m) o))
        as [pols|err]; split.
      * intros _. split; [by eexists|]. intros _. by eexists.
      * intros _. by eexists.
      * by intros [? ?].
      * by intros [[? ?] _].
    + split.
      * split; [by intros [? ?]|]. intros [_ Hm]. by destruct (Hm Hne).
      * by intros _ err [= ->].
Qed.


(** X16: after a call for the machine itself that has returned no error,
    with a codec that decodes what it encodes, [DumpPolicies] for the
    machine returns the text of the GPOs that were applied, as they were
    before the merge, the first of them formatted with the nil set. *)
Theorem DumpPolicies_after_ApplyPolicies (L : LawfulYAML E)
    sched m fs h c pols wr wo :
  os_Hostname = inl h →
  outFatal (ApplyPolicies sched m fs h c pols) = None →
  outErr (ApplyPolicies sched m fs h c pols) = None →
  DumpPolicies (outManager (ApplyPolicies sched m fs h c pols))
    (outFiles (ApplyPolicies sched m fs h c pols)) h wr wo
  = inl (formatGPOs wr wo ("", nilRuleSet) (GPOs pols)).1.
Proof.
  intros Hh Hlive Hok. unfold DumpPolicies. rewrite Hh.
  rewrite bool_decide_false by (by intros ?).
  rewrite outManager_ApplyPolicies. simpl.
  by rewrite (ApplyPolicies_ok L sched m fs h c pols Hlive Hok).
Qed.

(** X17: with [isMachine] the name the caller gives plays no part in the
    answer: the time is the one of the machine's cache, and when that
    cache is missing the inner error names the machine while the outer
    one repeats the name given. *)
Theorem LastUpdateFor_machine_ignores_name m fs o h :
  os_Hostname = inl h →
  (∀ t, LastUpdateFor m fs o true = inl t ↔ LastUpdateFor m fs h false = inl t) ∧
  (files fs !! filepath_Join (policiesCacheDir m) h = None →
   LastUpdateFor m fs o true
   = inr (Wrapped "failed to get policy last update time %q (machine: %q)"
            [ArgString o; ArgBool true]
            (Wrapped "policies were not applied for %q: %v" [ArgString h]
               (Cause (Err "no such file or directory"))))).
Proof.
  intros Hh. unfold LastUpdateFor, os_Stat. rewrite Hh.
  destruct (files fs !! filepath_Join (policiesCacheDir m) h); split; try done.
Qed.

(** X18: after a call for a target that has returned no error,
    [LastUpdateFor] for that target returns the modification time of its
    cache file; asked for the machine it does so, whatever name it is
    given, when the target was named as [os.Hostname] names the machine. *)
Theorem LastUpdateFor_after_ApplyPolicies sched m fs o c pols :
  let out := ApplyPolicies sched m fs o c pols in
  let path := filepath_Join (policiesCacheDir m) o in
  outFatal out = None → outErr out = None →
  LastUpdateFor (outManager out) (outFiles out) o false
  = inl (os_ModTime (outFiles out) path) ∧
  ∀ name, os_Hostname = inl o →
          LastUpdateFor (outManager out) (outFiles out) name true
          = inl (os_ModTime (outFiles out) path).
Proof.
  cbv zeta. intros Hlive Hok.
  destruct (ApplyPolicies_ok_exists sched m fs o c pols Hlive Hok) as [d Hd].
  unfold LastUpdateFor, os_Stat. rewrite outManager_ApplyPolicies. simpl.
  rewrite Hd. split; [done|]. intros name ->. by rewrite Hd.
Qed.
End DumpFacts.

Section ManagerFacts.
Context {E : Externals} {P : Packages}.

Lemma lastOf_cons pick d s ss :
  lastOf pick d (s :: ss) = lastOf pick (default d (pick s)) ss.
Proof.
  unfold lastOf. csimpl. destruct (pick s) as [p|]; [|done].
  generalize (omap pick ss). intros [|x l]; [done|].
  rewrite last_cons_cons. simpl.
  destruct (proj2 (last_is_Some (x :: l))) as [y ->]; done.
Qed.

Lemma applyOptions_settings settings : ∀ args,
  applyOptions args (optionOf <$> settings)
  = inl {| cacheDir := lastOf pickCacheDir (cacheDir args) settings;
           dconfDir := lastOf pickDconfDir (dconfDir args) settings;
           sudoersDir := lastOf pickSudoersDir (sudoersDir args) settings;
           policyKitDir := lastOf pickPolicyKitDir (policyKitDir args) settings;
           gdmOption := gdmOption args |}.
Proof.
  induction settings as [|s ss IH]; intros args; [by destruct args|].
  rewrite !lastOf_cons. destruct s; simpl; by rewrite IH.
Qed.

(** X19: with options of the file, the last option of each kind decides
    and the cache directory is the default one without a [WithCacheDir];
    the login-manager handler is built on the manager's own
    desktop-configuration handler; and a new manager reports no
    entitlement. *)
Theorem NewManager_settings bus settings m :
  NewManager bus (optionOf <$> settings) = inl m →
  policiesCacheDir m = cacheDirOf settings ∧
  dconf m = dconfOf settings ∧
  privilege m = privilege_NewWithDirs (lastOf pickSudoersDir "" settings)
                  (lastOf pickPolicyKitDir "" settings) ∧
  gdm_New (dconf m) = inl (gdm m) ∧
  GetStatus m = false.
Proof.
  unfold NewManager, cacheDirOf, dconfOf.
  rewrite applyOptions_settings. simpl.
  destruct (gdm_New _) as [g|err] eqn:Hg; [|done].
  destruct (os_MkdirAll _); [done|]. by intros [= <-].
Qed.

(** X20: the options of the file never fail: with them [NewManager]
    fails exactly when the login-manager handler cannot be built or the
    cache directory cannot be made; when the handler cannot be built the
    error returned is that of its constructor, wrapped, whatever
    [os.MkdirAll] would answer. *)
Theorem NewManager_failures bus settings :
  ((∃ f, NewManager bus (optionOf <$> settings) = inr f) ↔
   (∃ err, gdm_New (dconfOf settings) = inr err) ∨
   (∃ err, os_MkdirAll (cacheDirOf settings) = Some err)) ∧
  (∀ err, gdm_New (dconfOf settings) = inr err →
          NewManager bus (optionOf <$> settings)
          = inr (Wrapped "can't create a new policy handlers manager" []
                   (Cause err))).
Proof.
  unfold NewManager, cacheDirOf, dconfOf.
  rewrite applyOptions_settings. simpl.
  destruct (gdm_New _) as [g|err] eqn:Hg.
  - split; [|done]. destruct (os_MkdirAll _) as [err|]; split.
    + intros _. right. by eexists.
    + intros _. by eexists.
    + by intros [? ?].
    + by intros [[? ?]|[? ?]].
  - split.
    + split; [|intros _; by eexists]. intros _. left. by eexists.
    + by intros ? [= ->].
Qed.
End ManagerFacts.

(** ** The sample calls of the other functions *)

Lemma group_error_is_first_returned_witness :
  firstError (outTrace (@ApplyPolicies sampleExternals [] (failingDconf "enabled")
                          emptyFiles "host" true withPrivilege))
  = Some (Err "dconf failed") ∧
  outErr (@ApplyPolicies sampleExternals [] (failingDconf "enabled")
            emptyFiles "host" true withPrivilege)
  = Some (Decorated "failed to apply policy to %q" "host" (Err "dconf failed")).
Proof.
  assert (H : firstError
                (outTrace (@ApplyPolicies sampleExternals [] (failingDconf "enabled")
                             emptyFiles "host" true withPrivilege))
              = Some (Err "dconf failed")).
  { vm_compute. reflexivity. }
  split; [exact H|].
  exact (@group_error_is_first_returned sampleExternals [] (failingDconf "enabled")
           emptyFiles "host" true withPrivilege _ H).
Defined.

Lemma Save_NewFromCache_witness :
  (LawfulYAML sampleExternals ∧
   @Save sampleExternals appendChain emptyFiles "/cache/host"
   = (@setFile sampleExternals "/cache/host" (GPOs appendChain) emptyFiles, None)) ∧
  (@NewFromCache sampleExternals
     (@setFile sampleExternals "/cache/host" (GPOs appendChain) emptyFiles) "/cache/host"
   = inl {| GPOs := GPOs appendChain; Data := None |} ∧
   (@NewFromCache sampleExternals
      (@setFile sampleExternals "/cache/host" (GPOs appendChain) emptyFiles) "/cache/host"
    = inl appendChain
    ↔ Data appendChain = None)).
Proof.
  assert (H : @Save sampleExternals appendChain emptyFiles "/cache/host"
              = (@setFile sampleExternals "/cache/host" (GPOs appendChain) emptyFiles, None)).
  { reflexivity. }
  split; [split; [exact sampleExternals_lawful|exact H]|].
  exact (@Save_NewFromCache sampleExternals sampleExternals_lawful appendChain
           emptyFiles "/cache/host" _ H).
Defined.

Lemma cache_is_last_applied_witness :
  (LawfulYAML sampleExternals ∧
   outFatal (@ApplyPolicies sampleExternals [] (sampleManager "enabled") emptyFiles
               "host" true appendChain) = None ∧
   outErr (@ApplyPolicies sampleExternals [] (sampleManager "enabled") emptyFiles
             "host" true appendChain) = None) ∧
  let out1 := @ApplyPolicies sampleExternals [] (sampleManager "enabled") emptyFiles
                "host" true appendChain in
  let out2 := @ApplyPolicies sampleExternals [] (outManager out1) (outFiles out1)
                "host" true overrideThenAppend in
  let path := @filepath_Join sampleExternals
                (policiesCacheDir (sampleManager "enabled")) "host" in
  (outFatal out2 = None → outErr out2 = None →
   NewFromCache (outFiles out2) path
   = inl {| GPOs := GPOs overrideThenAppend; Data := None |}) ∧
  (outFatal out2 ≠ None ∨ backendFailed (outTrace out2) →
   NewFromCache (outFiles out2) path
   = inl {| GPOs := GPOs appendChain; Data := None |}).
Proof.
  assert (H1 : outFatal (@ApplyPolicies sampleExternals [] (sampleManager "enabled")
                           emptyFiles "host" true appendChain) = None).
  { vm_compute. reflexivity. }
  assert (H2 : outErr (@ApplyPolicies sampleExternals [] (sampleManager "enabled")
                         emptyFiles "host" true appendChain) = None).
  { vm_compute. reflexivity. }
  split; [split_and!; [exact sampleExternals_lawful|exact H1|exact H2]|].
  exact (@cache_is_last_applied sampleExternals sampleExternals_lawful [] []
           (sampleManager "enabled") emptyFiles "host" true true
           appendChain overrideThenAppend H1 H2).
Defined.

Lemma DumpPolicies_needs_caches_witness :
  @os_Hostname _ sampleHost = inl "host" ∧
  (((∃ out, @DumpPolicies _ sampleHost (sampleManager "enabled") twoCaches "user"
              true false = inl out) ↔
    (∃ pols, NewFromCache twoCaches
               (@filepath_Join sampleExternals (policiesCacheDir (sampleManager "enabled")) "user")
             = inl pols) ∧
    ("user" ≠ "host" →
     ∃ pols, NewFromCache twoCaches
               (@filepath_Join sampleExternals (policiesCacheDir (sampleManager "enabled")) "host")
             = inl pols)) ∧
   ("user" ≠ "host" →
    ∀ err, NewFromCache twoCaches
             (@filepath_Join sampleExternals (policiesCacheDir (sampleManager "enabled")) "host")
           = inr err →
           @DumpPolicies _ sampleHost (sampleManager "enabled") twoCaches "user"
             true false
           = inr (Wrapped "failed to dump policies for %q" [ArgString "user"]
                    (Wrapped "no policy applied for %q: %v" [ArgString "host"]
                       (Cause err))))).
Proof.
  split; [reflexivity|].
  exact (@DumpPolicies_needs_caches _ sampleHost (sampleManager "enabled")
           twoCaches "user" true false "host" eq_refl).
Defined.

Example DumpPolicies_user_report :
  @DumpPolicies _ sampleHost (sampleManager "enabled") twoCaches "user" true false
  = inl ("Policies from machine configuration:" +:+ LF
         +:+ "G1" +:+ LF +:+ "G2" +:+ LF
         +:+ "Policies from user configuration:" +:+ LF
         +:+ "G1" +:+ LF +:+ "G2" +:+ LF).
Proof. vm_compute. reflexivity. Qed.


Lemma DumpPolicies_after_ApplyPolicies_witness :
  (LawfulYAML sampleExternals ∧ @os_Hostname _ sampleHost = inl "host" ∧
   outFatal (@ApplyPolicies sampleExternals [] (sampleManager "enabled") emptyFiles
               "host" true appendChain) = None ∧
   outErr (@ApplyPolicies sampleExternals [] (sampleManager "enabled") emptyFiles
             "host" true appendChain) = None) ∧
  @DumpPolicies _ sampleHost
    (outManager (@ApplyPolicies sampleExternals [] (sampleManager "enabled")
                   emptyFiles "host" true appendChain))
    (outFiles (@ApplyPolicies sampleExternals [] (sampleManager "enabled")
                 emptyFiles "host" true appendChain)) "host" true true
  = inl (@formatGPOs _ sampleHost true true ("", @nilRuleSet _ sampleHost)
           (GPOs appendChain)).1.
Proof.
  assert (H1 : outFatal (@ApplyPolicies sampleExternals [] (sampleManager "enabled")
                           emptyFiles "host" true appendChain) = None).
  { vm_compute. reflexivity. }
  assert (H2 : outErr (@ApplyPolicies sampleExternals [] (sampleManager "enabled")
                         emptyFiles "host" true appendChain) = None).
  { vm_compute. reflexivity. }
  split; [by split_and!; [exact sampleExternals_lawful|..]|].
  exact (@DumpPolicies_after_ApplyPolicies _ sampleHost sampleExternals_lawful []
           (sampleManager "enabled") emptyFiles "host" true appendChain true true
           eq_refl H1 H2).
Defined.

Lemma LastUpdateFor_machine_ignores_name_witness :
  @os_Hostname _ sampleHost = inl "host" ∧
  ((∀ t, @LastUpdateFor _ sampleHost (sampleManager "enabled") twoCaches "user" true
         = inl t
         ↔ @LastUpdateFor _ sampleHost (sampleManager "enabled") twoCaches "host"
             false = inl t) ∧
   (files twoCaches
    !! @filepath_Join sampleExternals (policiesCacheDir (sampleManager "enabled")) "host" = None →
    @LastUpdateFor _ sampleHost (sampleManager "enabled") twoCaches "user" true
    = inr (Wrapped "failed to get policy last update time %q (machine: %q)"
             [ArgString "user"; ArgBool true]
             (Wrapped "policies were not applied for %q: %v" [ArgString "host"]
                (Cause (Err "no such file or directory")))))).
Proof.
  split; [reflexivity|].
  exact (@LastUpdateFor_machine_ignores_name _ sampleHost (sampleManager "enabled")
           twoCaches "user" "host" eq_refl).
Defined.

Lemma LastUpdateFor_after_ApplyPolicies_witness :
  (outFatal (@ApplyPolicies sampleExternals [] (sampleManager "enabled") emptyFiles
               "host" true appendChain) = None ∧
   outErr (@ApplyPolicies sampleExternals [] (sampleManager "enabled") emptyFiles
             "host" true appendChain) = None) ∧
  let out := @ApplyPolicies sampleExternals [] (sampleManager "enabled") emptyFiles
               "host" true appendChain in
  let path := @filepath_Join sampleExternals
                (policiesCacheDir (sampleManager "enabled")) "host" in
  @LastUpdateFor _ sampleHost (outManager out) (outFiles out) "host" false
  = inl (@os_ModTime _ sampleHost (outFiles out) path) ∧
  ∀ name, @os_Hostname _ sampleHost = inl "host" →
          @LastUpdateFor _ sampleHost (outManager out) (outFiles out) name true
          = inl (@os_ModTime _ sampleHost (outFiles out) path).
Proof.
  assert (H1 : outFatal (@ApplyPolicies sampleExternals [] (sampleManager "enabled")
                           emptyFiles "host" true appendChain) = None).
  { vm_compute. reflexivity. }
  assert (H2 : outErr (@ApplyPolicies sampleExternals [] (sampleManager "enabled")
                         emptyFiles "host" true appendChain) = None).
  { vm_compute. reflexivity. }
  split; [by split|].
  exact (@LastUpdateFor_after_ApplyPolicies _ sampleHost []
           (sampleManager "enabled") emptyFiles "host" true appendChain H1 H2).
Defined.

(** A call for a computer under another name than the machine's leaves
    [LastUpdateFor] for the machine without a file to look at. *)
Example LastUpdateFor_other_name :
  let out := @ApplyPolicies sampleExternals [] (sampleManager "enabled") emptyFiles
               "host.example.com" true appendChain in
  outErr out = None ∧
  @LastUpdateFor _ sampleHost (outManager out) (outFiles out) "host.example.com" true
  = inr (Wrapped "failed to get policy last update time %q (machine: %q)"
           [ArgString "host.example.com"; ArgBool true]
           (Wrapped "policies were not applied for %q: %v" [ArgString "host"]
              (Cause (Err "no such file or directory")))).
Proof. vm_compute. split; reflexivity. Qed.

Lemma NewManager_settings_witness :
  let settings := [CacheDir "/tmp/a"; DconfDir "/etc/dconf"; CacheDir "/tmp/b"] in
  let m := {| policiesCacheDir := "/tmp/b/policies";
              dconf := λ _ _ _, None;
              privilege := λ _ _ _, None;
              gdm := λ _, None;
              subcriptionDbus := sampleBus "com.canonical.UbuntuAdvantage"
                                   "/com/canonical/UbuntuAdvantage/Manager";
              subscriptionEnabled := false |} in
  @NewManager sampleExternals samplePackages sampleBus
    (optionOf <$> settings) = inl m ∧
  (policiesCacheDir m = @cacheDirOf sampleExternals samplePackages settings ∧
   dconf m = @dconfOf samplePackages settings ∧
   privilege m = @privilege_NewWithDirs samplePackages
                   (lastOf pickSudoersDir "" settings)
                   (lastOf pickPolicyKitDir "" settings) ∧
   @gdm_New samplePackages (dconf m) = inl (gdm m) ∧
   GetStatus m = false).
Proof.
  split; [reflexivity|].
  exact (@NewManager_settings sampleExternals samplePackages sampleBus
           [CacheDir "/tmp/a"; DconfDir "/etc/dconf"; CacheDir "/tmp/b"] _ eq_refl).
Defined.
